(** * AES-128 timing attack core (main.c): a shallow embedding

    The measurement and analysis core of the attack: the timing loop and
    its tallies, the normalised means, the Pearson correlator, the
    threshold calibration, the brute-force search over candidate pools
    and the exit codes of [main].

    Conventions.
    - C [int] and [long long] values are [Z]; a conversion that can leave
      the range of its target type is written out ([to_int32]).
    - C [double] values are IEEE binary64 numbers, Rocq's primitive
      [float]; C's arithmetic on doubles is the primitive arithmetic.
    - A [byte] is Stdlib's [Byte.byte]; array positions and loop
      counters that stay below 256 are [nat].
    - The cipher ([aes], [aes_expand]), [rand] and [__rdtsc] come from
      outside main.c: the cipher is a section variable, the random
      numbers and the cycle counts are the streams of a [World]. *)

From Stdlib Require Import ZArith Lia Floats Bool Sorted.
From Stdlib.Strings Require Import Byte.
From stdpp Require Import base numbers list.

Local Open Scope Z_scope.

(** ** Machine numbers *)

(** Conversion of an integer to [int] (two's complement, 32 bits). *)
Definition to_int32 (z : Z) : Z := (z + 2 ^ 31) mod 2 ^ 32 - 2 ^ 31.

Definition INT32_MAX : Z := 2 ^ 31 - 1.

(** [(byte) z]: the low eight bits. *)
Definition byte_of_Z (z : Z) : byte :=
  match Byte.of_N (Z.to_N (z mod 256)) with
  | Some b => b
  | None => "000"%byte
  end.

(** [(double) z] for an [int] or [long long] [z]: the nearest double. *)
Definition double_of_Z (z : Z) : float :=
  if z <? 0 then PrimFloat.opp (PrimFloat.of_uint63 (Uint63.of_Z (- z)))
  else PrimFloat.of_uint63 (Uint63.of_Z z).

(** The integer part of a double: the fraction is dropped (truncation
    toward zero). NaN and the infinities have none: 0. *)
Definition double_trunc (d : float) : Z :=
  match Prim2SF d with
  | S754_finite sgn m e =>
      let mag := if 0 <=? e then Z.pos m * 2 ^ e else Z.pos m / 2 ^ (- e) in
      if sgn then - mag else mag
  | _ => 0
  end.

(** [(int) d] for a double [d]: its integer part; C leaves the conversion
    undefined when that does not fit an [int], and for NaN and the
    infinities: [None]. *)
Definition double_to_int (d : float) : option Z :=
  match Prim2SF d with
  | S754_infinity _ | S754_nan => None
  | _ =>
      let v := double_trunc d in
      if (- 2 ^ 31 <=? v) && (v <=? INT32_MAX) then Some v else None
  end.

(** ** Configuration (the [#define]s of main.c) *)

Definition DEFAULT_RUNS : Z := 22.
Definition THRESH_MULT : Z := 5.
Definition KEYS_CAP : nat := 10.

(** ** Pearson correlation *)

Module Pearson.

Local Open Scope float_scope.

(** The five accumulators of [pearson_correlation_coefficient]; until the
    loop ends [avg_x] and [avg_y] hold the running sums. *)
Record acc := Acc {
  avg_x : float;
  avg_y : float;
  sum_x_sq : float;
  sum_y_sq : float;
  sum_x_y : float
}.

Definition acc0 : acc := Acc 0 0 0 0 0.

(** One pass of the loop body at index [i]. *)
Definition step (data1 data2 : list float) (a : acc) (i : nat) : acc :=
  let x := nth i data1 0 in
  let y := nth i data2 0 in
  {| avg_x := avg_x a + x;
     avg_y := avg_y a + y;
     sum_x_sq := sum_x_sq a + x * x;
     sum_y_sq := sum_y_sq a + y * y;
     sum_x_y := sum_x_y a + x * y |}.

(** [pearson_correlation_coefficient]: one loop over the 256 indices, then
    the closing formula, each operation in the order the C text gives. *)
Definition pearson_correlation_coefficient (data1 data2 : list float) : float :=
  let a := fold_left (step data1 data2) (seq 0 256) acc0 in
  let avg_x := avg_x a / 256 in
  let avg_y := avg_y a / 256 in
  let var_x := (sum_x_sq a - 256 * avg_x * avg_x) / 255 in
  let var_y := (sum_y_sq a - 256 * avg_y * avg_y) / 255 in
  (sum_x_y a - 256 * avg_x * avg_y) / 255 / sqrt (var_x * var_y).

(** The formula as the specification words it: sums over the two
    vectors, averages, variances and covariance with denominator
    N - 1 = 255, and their quotient. *)
Definition fsum (l : list float) : float := fold_left PrimFloat.add l 0.

Definition pearson_textbook (X Y : list float) : float :=
  let avg_x := fsum X / 256 in
  let avg_y := fsum Y / 256 in
  let var_x := (fsum (map (fun x => x * x) X) - 256 * avg_x * avg_x) / 255 in
  let var_y := (fsum (map (fun y => y * y) Y) - 256 * avg_y * avg_y) / 255 in
  let cov_xy := (fsum (zip_with PrimFloat.mul X Y) - 256 * avg_x * avg_y) / 255 in
  cov_xy / sqrt (var_x * var_y).

(** The vector 0, 1, ..., 255. *)
Definition ramp : list float := map (fun i => double_of_Z (Z.of_nat i)) (seq 0 256).

End Pearson.

(** ** The timing measurements *)

(** What main.c takes from outside while it measures: the values
    successive calls of [rand()] return, and the cycle count
    [__rdtsc() - start] that successive calls of [run] observe. *)
Record World := {
  rand : nat -> Z;
  rdtsc_elapsed : nat -> Z
}.

(** [struct tally { long long num; double ticks; }]: [num] counts the
    measurements tallied in the cell, [ticks] is their summed duration. *)
Record tally := Tally {
  num : Z;
  ticks : float
}.

(** The globals of main.c that the measurements read and write, the
    tally table [tly] of [main], and how many values of each stream of
    the [World] have been used so far. *)
Record State := {
  tly : list (list tally);
  total_runs : Z;
  total_ticks : Z;
  tally_threshold : Z;
  d_arg : float;
  rand_calls : nat;
  run_calls : nat
}.

Definition zero_tally : tally := Tally 0 0%float.

(** [memset(tly, 0, 16 * 256 * sizeof(struct tally))]. *)
Definition zero_table : list (list tally) := replicate 16 (replicate 256 zero_tally).

(** The state [main] starts from. *)
Definition initial_state (d : float) : State :=
  {| tly := zero_table; total_runs := 0; total_ticks := 0;
     tally_threshold := INT32_MAX; d_arg := d; rand_calls := 0; run_calls := 0 |}.

(** The cell [tly[i][b]]. *)
Definition cell (t : list (list tally)) (i b : nat) : tally :=
  nth b (nth i t []) zero_tally.

(** [rand_bytes(dest, num)]: [dest[i] = rand()] for [i] below [num], from
    the [k]-th value of the stream on. *)
Definition rand_bytes (w : World) (k num : nat) : list byte :=
  map (fun i => byte_of_Z (rand w (k + i)%nat)) (seq 0 num).

(** [run(data)], the [k]-th call: the cycles the encryption took, as the
    [int] the function returns. The ciphertext goes to [encdata], which no
    measurement reads. *)
Definition run (w : World) (k : nat) : Z := to_int32 (rdtsc_elapsed w k).

(** [do { ticks = run(data); } while (ticks > tally_threshold);] from the
    [k]-th call of [run] on: the accepted tick count and the number of
    calls made by then. [fuel] bounds the number of passes. *)
Fixpoint measure (fuel : nat) (w : World) (T : Z) (k : nat) : option (Z * nat) :=
  match fuel with
  | O => None
  | S fuel' =>
      let ticks := run w k in
      if T <? ticks then measure fuel' w T (S k) else Some (ticks, S k)
  end.

(** Modelled from the spec: the tallying block of [generate], which main.c
    leaves open ("Perform tallies for used cleartext"); here what it does
    to one cell: one more measurement, [d] more ticks. [ticks] is a
    double: the [int] [d] is converted and the sum is a sum of doubles. *)
Definition tally_cell (d : Z) (t : tally) : tally :=
  {| num := num t + 1; ticks := PrimFloat.add (ticks t) (double_of_Z d) |}.

(** Modelled from the spec: the tallying block of [generate] at position
    [i], where the cell of the cleartext byte [data[i]] is the one that
    changes. *)
Definition tally_position (data : list byte) (d : Z)
    (t : list (list tally)) (i : nat) : list (list tally) :=
  alter (alter (tally_cell d) (Byte.to_nat (nth i data "000"%byte))) i t.

(** Modelled from the spec: the tallying block of [generate] as a whole:
    the sixteen positions in turn, then [d] is added to [total_ticks] and
    [total_runs] counts one more. *)
Definition perform_tallies (data : list byte) (d : Z) (s : State) : State :=
  {| tly := fold_left (tally_position data d) (seq 0 16) (tly s);
     total_runs := total_runs s + 1;
     total_ticks := total_ticks s + d;
     tally_threshold := tally_threshold s;
     d_arg := d_arg s;
     rand_calls := rand_calls s;
     run_calls := run_calls s |}.

(** What one call of [generate] leaves behind: the cleartext in [data],
    the accepted tick count, and the state. *)
Record generated := {
  g_data : list byte;
  g_ticks : Z;
  g_state : State
}.

(** [generate(data, tly)]: a random cleartext, the measurement loop, then
    the tallies. *)
Definition generate (fuel : nat) (w : World) (s : State) : option generated :=
  let data := rand_bytes w (rand_calls s) 16 in
  match measure fuel w (tally_threshold s) (run_calls s) with
  | None => None
  | Some (d, k) =>
      let s1 := {| tly := tly s; total_runs := total_runs s;
                   total_ticks := total_ticks s;
                   tally_threshold := tally_threshold s; d_arg := d_arg s;
                   rand_calls := (rand_calls s + 16)%nat; run_calls := k |} in
      Some {| g_data := data; g_ticks := d; g_state := perform_tallies data d s1 |}
  end.

(** The loop of [study_key]: [n] calls of [generate]. *)
Fixpoint generate_n (n fuel : nat) (w : World) (s : State) : option State :=
  match n with
  | O => Some s
  | S n' =>
      match generate fuel w s with
      | None => None
      | Some g => generate_n n' fuel w (g_state g)
      end
  end.

(** ** Threshold calibration *)

(** The loop of [calc_encryption_stats]: a fresh cleartext and one
    unfiltered measurement per pass. *)
Fixpoint cutoff_loop (n : nat) (w : World) (s : State) : State :=
  match n with
  | O => s
  | S n' =>
      cutoff_loop n' w
        {| tly := tly s; total_runs := total_runs s + 1;
           total_ticks := total_ticks s + run w (run_calls s);
           tally_threshold := tally_threshold s; d_arg := d_arg s;
           rand_calls := (rand_calls s + 16)%nat;
           run_calls := S (run_calls s) |}
  end.

(** [tally_threshold = T]. *)
Definition set_threshold (T : Z) (s : State) : State :=
  {| tly := tly s; total_runs := total_runs s; total_ticks := total_ticks s;
     tally_threshold := T; d_arg := d_arg s;
     rand_calls := rand_calls s; run_calls := run_calls s |}.

(** [calc_encryption_stats(key, data, runs)]. [None] where C gives the
    program no meaning: the conversion of an oversized [d_arg], the
    division by a zero [total_runs]. The rate file and the printed line
    are left out. *)
Definition calc_encryption_stats (w : World) (runs : Z) (s : State) : option State :=
  if PrimFloat.ltb 0 (d_arg s) then
    match double_to_int (d_arg s) with
    | Some T => Some (set_threshold T s)
    | None => None
    end
  else
    let s0 := {| tly := tly s; total_runs := 0; total_ticks := total_ticks s;
                 tally_threshold := tally_threshold s; d_arg := d_arg s;
                 rand_calls := (rand_calls s + 16)%nat;
                 run_calls := run_calls s |} in
    let s1 := cutoff_loop (Z.to_nat runs) w s0 in
    if total_runs s1 =? 0 then None
    else Some (set_threshold
                 (to_int32 (Z.quot (total_ticks s1) (total_runs s1) * THRESH_MULT)) s1).

(** ** Normalised means *)

(** Modelled from the spec: the grand mean [G = total_ticks / total_runs]
    of [calc_means], whose body main.c leaves open. *)
Definition grand_mean (s : State) : float :=
  PrimFloat.div (double_of_Z (total_ticks s)) (double_of_Z (total_runs s)).

(** Modelled from the spec: one entry of [calc_means], whose body main.c
    leaves open: the mean [ticks / num] of the cell over [G], or 1.0 for a
    cell that counted nothing. *)
Definition normalized_mean (G : float) (t : tally) : float :=
  if 0 <? num t
  then PrimFloat.div (PrimFloat.div (ticks t) (double_of_Z (num t))) G
  else 1%float.

(** Modelled from the spec: the body of [calc_means], which main.c leaves
    open: the normalised mean of every cell of the table. *)
Definition calc_means (s : State) : list (list float) :=
  map (fun i => map (fun b => normalized_mean (grand_mean s) (cell (tly s) i b))
                 (seq 0 256))
      (seq 0 16).

(** The entry [m[i][b]] of a 16 x 256 matrix of doubles. *)
Definition entry (m : list (list float)) (i b : nat) : float :=
  nth b (nth i m []) 0%float.

(** ** Key studies *)

(** What [study_key] leaves behind: the key it measured under, the means
    and the state. *)
Record studied := {
  k_key : list byte;
  k_means : list (list float);
  k_state : State
}.

(** [study_key(tly, means, data, test_key, gen_key, runs, run_id)]: the
    table and the two counters are zeroed, the key is drawn afresh when
    [gen_key] is set, [generate] runs [runs] times and [calc_means]
    follows. [rand_seed] only restarts [rand], whose values the [World]
    supplies whatever the seed. *)
Definition study_key (fuel : nat) (w : World) (test_key : list byte)
    (gen_key : bool) (runs : Z) (s : State) : option studied :=
  let key := if gen_key then rand_bytes w (rand_calls s) 16 else test_key in
  let s0 := {| tly := zero_table; total_runs := 0; total_ticks := 0;
               tally_threshold := tally_threshold s; d_arg := d_arg s;
               rand_calls := if gen_key then (rand_calls s + 16)%nat else rand_calls s;
               run_calls := run_calls s |} in
  match generate_n (Z.to_nat runs) fuel w s0 with
  | None => None
  | Some s1 => Some {| k_key := key; k_means := calc_means s1; k_state := s1 |}
  end.

(** ** The correlator *)

(** Modelled from the spec: the realigned vector of [correlate], whose
    body main.c leaves open: row [i] of [m] indexed by the T-box input [s],
    which under the key byte [k] is the cleartext byte [s ^ k]. *)
Definition realign (m : list (list float)) (i k : nat) : list float :=
  map (fun s => entry m i (Nat.lxor s k)) (seq 0 256).

(** Modelled from the spec: the body of [correlate], which main.c leaves
    open. [means1] are the means measured under the known test key [key],
    [means2] those of the target key. For position [i] and candidate
    [k1], the vectors [X[s] = means2[i][s ^ k1]] and
    [Y[s] = means1[i][s ^ key[i]]], and their Pearson coefficient. *)
Definition correlate (means1 means2 : list (list float)) (key : list byte)
    : list (list float) :=
  map (fun i =>
         map (fun k1 =>
                Pearson.pearson_correlation_coefficient
                  (realign means2 i k1)
                  (realign means1 i (Byte.to_nat (nth i key "000"%byte))))
             (seq 0 256))
      (seq 0 16).

(** [corr_total[j][k] += corr[j][k]] over the whole matrix. *)
Definition add_corr (total corr : list (list float)) : list (list float) :=
  map (fun j => map (fun k => PrimFloat.add (entry total j k) (entry corr j k))
                 (seq 0 256))
      (seq 0 16).

(** The loop of [main] over the test keys, [n] of them still to study:
    a study under a fresh random key (what [test_key] held before is
    overwritten), its correlation with the means of the target key, and
    the sum so far. *)
Fixpoint test_keys (n fuel : nat) (w : World) (runs : Z)
    (means_target : list (list float)) (corr_total : list (list float))
    (s : State) : option (list (list float) * State) :=
  match n with
  | O => Some (corr_total, s)
  | S n' =>
      match study_key fuel w [] true runs s with
      | None => None
      | Some k =>
          let corr := correlate (k_means k) means_target (k_key k) in
          test_keys n' fuel w runs means_target (add_corr corr_total corr) (k_state k)
      end
  end.

(** [memset(corr_total, 0, 16 * 256 * sizeof(double))]. *)
Definition zero_corr : list (list float) := replicate 16 (replicate 256 0%float).

(** The correlation gathering of [main]: the calibration with
    [runs = 1 << DEFAULT_RUNS], the study of the target key, then the test
    keys. What it returns is the matrix that [dump_corr] writes to
    corr.txt; the writing itself is left out. *)
Definition gather (fuel : nat) (w : World) (target_key : list byte) (s : State)
    : option (list (list float) * State) :=
  let runs := Z.shiftl 1 DEFAULT_RUNS in
  match calc_encryption_stats w runs s with
  | None => None
  | Some s1 =>
      match study_key fuel w target_key false runs s1 with
      | None => None
      | Some k => test_keys KEYS_CAP fuel w runs (k_means k) zero_corr (k_state k)
      end
  end.

(** ** The tally table as a whole *)

(** The table has the sixteen rows of 256 cells that [main] declares. *)
Definition table_shape (t : list (list tally)) : Prop :=
  length t = 16%nat /\ Forall (fun row => length row = 256%nat) t.

(** The sum of [f 0], ..., [f (n - 1)]. *)
Fixpoint Zsum (f : nat -> Z) (n : nat) : Z :=
  match n with
  | O => 0
  | S n' => Zsum f n' + f n'
  end.

(** The sum over all bytes [b] of the counts tallied at position [i]. *)
Definition count_sum (t : list (list tally)) (i : nat) : Z :=
  Zsum (fun b => num (cell t i b)) 256.

(** The sum over all bytes [b] of the ticks tallied at position [i]:
    of every cell the whole number of ticks its double stands for. *)
Definition ticks_sum (t : list (list tally)) (i : nat) : Z :=
  Zsum (fun b => double_trunc (ticks (cell t i b))) 256.

(** ** Sorting positions by a table of doubles *)

(** [cmp_zip(vp1, vp2, vvals)] with [val = vvals], [p1 = *vp1] and
    [p2 = *vp2]: positive when [val[p2] > val[p1]], negative when
    [val[p1] > val[p2]], zero otherwise, so that the larger value sorts
    first. *)
Definition cmp_zip (val : list float) (p1 p2 : nat) : Z :=
  if PrimFloat.ltb (nth p1 val 0%float) (nth p2 val 0%float) then 1
  else if PrimFloat.ltb (nth p2 val 0%float) (nth p1 val 0%float) then -1
  else 0.

(** libc's [qsort_r], which glibc implements as a merge sort: elements
    that compare equal keep the order they came in. The model is the
    insertion sort with that property; [x] goes in front of the first [y]
    with [cmp x y <= 0]. *)
Fixpoint qsort_insert {A} (cmp : A -> A -> Z) (x : A) (l : list A) : list A :=
  match l with
  | [] => [x]
  | y :: l' => if cmp x y <=? 0 then x :: l else y :: qsort_insert cmp x l'
  end.

Definition qsort_r {A} (cmp : A -> A -> Z) (l : list A) : list A :=
  foldr (qsort_insert cmp) [] l.

(** ** The brute-force search *)

Section BruteForce.

(** [aes key data]: the ciphertext that [expand_key(key); run(data)]
    leaves in [encdata]. *)
Variable aes : list byte -> list byte -> list byte.

(** The global [target_key]. *)
Variable target_key : list byte.

(** [cleartext[16] = { 0 }]: the all-zeros block. *)
Definition cleartext : list byte := replicate 16 "000"%byte.

(** [brute_force_attempt(key, data, target_enctext)]: 0 when the sixteen
    bytes of the ciphertext are those of [target_enctext], else 1. *)
Definition brute_force_attempt (key data target_enctext : list byte) : Z :=
  let encdata := aes key data in
  if forallb (fun i => Byte.eqb (nth i target_enctext "000"%byte)
                                (nth i encdata "000"%byte)) (seq 0 16)
  then 0 else 1.

(** The pools as read from [bf.dat]: [lens[i]] and the [lens[i]] bytes of
    [bytes[i]]. *)
Record pools := {
  lens : list nat;
  bytes : list (list byte)
}.

(** The reading loop of [brute_force], with [n] pools still to read from
    what is left of the file: per pool one length byte (0 stands for 256)
    and that many candidates. [None] when an [fread] comes up short. *)
Fixpoint read_pools (n : nat) (f : list byte) : option pools :=
  match n with
  | O => Some {| lens := []; bytes := [] |}
  | S n' =>
      match f with
      | [] => None
      | l :: rest =>
          let len := if (Byte.to_nat l =? 0)%nat then 256%nat else Byte.to_nat l in
          if (length rest <? len)%nat then None
          else
            match read_pools n' (drop len rest) with
            | None => None
            | Some p => Some {| lens := len :: lens p;
                                bytes := take len rest :: bytes p |}
            end
      end
  end.

(** [d_lens[i] = lens[i]]: the pool sizes as doubles, for [cmp_zip]. *)
Definition d_lens (p : pools) : list float :=
  map (fun n => double_of_Z (Z.of_nat n)) (lens p).

(** [qsort_r(order, 16, sizeof(byte), cmp_zip, d_lens)] on
    [order = 0, 1, ..., 15]. *)
Definition sort_order (p : pools) : list nat :=
  qsort_r (cmp_zip (d_lens p)) (seq 0 16).

(** [key[i] = bytes[i][indices[i]]] for the sixteen positions. *)
Definition assemble (p : pools) (indices : list nat) : list byte :=
  map (fun i => nth (nth i indices O) (nth i (bytes p) []) "000"%byte) (seq 0 16).

(** The carry loop
    [while (++indices[*ptr] >= lens[*ptr]) { indices[*ptr] = 0; if (++ptr >= end) break; }]
    with [ptr] running over what is left of [order]: [None] when [ptr]
    reaches [end]. *)
Fixpoint carry (p : pools) (ptr : list nat) (indices : list nat) : option (list nat) :=
  match ptr with
  | [] => None
  | pos :: ptr' =>
      let v := S (nth pos indices O) in
      if (nth pos (lens p) O <=? v)%nat
      then carry p ptr' (<[pos := O]> indices)
      else Some (<[pos := v]> indices)
  end.

(** How a search ends: the return code of [brute_force] and, for the
    statement of its properties, the keys it tried, in order. *)
Record outcome := {
  rc : Z;
  tried : list (list byte)
}.

(** The search loop of [brute_force]; [fuel] bounds the number of
    attempts. *)
Fixpoint search (fuel : nat) (p : pools) (order : list nat)
    (target_enctext : list byte) (indices : list nat) : option outcome :=
  match fuel with
  | O => None
  | S fuel' =>
      let key := assemble p indices in
      if brute_force_attempt key cleartext target_enctext =? 0
      then Some {| rc := 0; tried := [key] |}
      else
        match carry p order indices with
        | None => Some {| rc := 1; tried := [key] |}
        | Some indices' =>
            match search fuel' p order target_enctext indices' with
            | None => None
            | Some o => Some {| rc := rc o; tried := key :: tried o |}
            end
        end
  end.

(** [brute_force()], given the contents of [bf.dat] if the file exists:
    -1 without the file, 1 when it is too short, else what the search
    returns. *)
Definition brute_force (fuel : nat) (bf : option (list byte)) : option outcome :=
  match bf with
  | None => Some {| rc := -1; tried := [] |}
  | Some f =>
      let target_enctext := aes target_key cleartext in
      match read_pools 16 f with
      | None => Some {| rc := 1; tried := [] |}
      | Some p => search fuel p (sort_order p) target_enctext (replicate 16 O)
      end
  end.

End BruteForce.

(** ** The program *)

(** [if (argc > 1) d_arg = strtod(argv[1], NULL);] with [arg] what [strtod]
    makes of the argument, if there is one; [d_arg] is 0 otherwise. *)
Definition cli_threshold (arg : option float) : float :=
  match arg with
  | Some d => d
  | None => 0%float
  end.

(** [main], given the parsed argument if there is one, the contents of
    [aes.key] and of [bf.dat] where they exist, and the cipher: the exit
    code. [None] while [fuel] does not suffice, and where the calibration
    has no meaning. *)
Definition main (aes : list byte -> list byte -> list byte) (fuel : nat)
    (w : World) (arg : option float) (fkey fbf : option (list byte)) : option Z :=
  let d := cli_threshold arg in
  match fkey with
  | None => Some 1
  | Some kf =>
      if (length kf <? 16)%nat then Some 1
      else
        let target_key := take 16 kf in
        match brute_force aes target_key fuel fbf with
        | None => None
        | Some o =>
            if -1 <? rc o then Some (rc o)
            else
              match gather fuel w target_key (initial_state d) with
              | None => None
              | Some _ => Some 0
              end
        end
  end.

(** ** Vocabulary of the statements *)

(** The tally table and the two counters agree: at every position the
    counts add up to [total_runs] and the ticks to [total_ticks]. *)
Definition conserved (s : State) : Prop :=
  table_shape (tly s) /\
  forall i, (i < 16)%nat ->
    count_sum (tly s) i = total_runs s /\ ticks_sum (tly s) i = total_ticks s.

(** A double that is a whole number: it is the double of its integer
    part. *)
Definition integral (x : float) : Prop := x = double_of_Z (double_trunc x).

(** The counters and the cells are within what measurements of one
    non-negative [int] each add up to: [total_ticks] is at most
    [INT32_MAX] a measurement, and every cell holds a whole number of
    ticks, zero or more. *)
Definition whole (s : State) : Prop :=
  0 <= total_ticks s <= total_runs s * INT32_MAX /\
  forall i b, (i < 16)%nat -> (b < 256)%nat ->
    0 <= double_trunc (ticks (cell (tly s) i b)) /\
    integral (ticks (cell (tly s) i b)).

(** The number of binary digits of [c]. *)
Definition digits (c : positive) : Z := Z.pos (digits2_pos c).

(** The binary64 number of sign [sgn] and size [c], for [c] below 2^53:
    the 53-digit mantissa is [c] shifted up, the exponent shifts it back. *)
Definition held_finite (sgn : bool) (c : positive) : spec_float :=
  S754_finite sgn (shift_nat (Z.to_nat (53 - digits c)) c) (digits c - 53).

(** The binary64 number that is the integer [z], for [z] below 2^53 in
    size. *)
Definition held (z : Z) : spec_float :=
  match z with
  | Z0 => S754_zero false
  | Zpos c => held_finite false c
  | Zneg c => held_finite true c
  end.

(** The timer never stays above [T] for good: after any call of [run]
    some later call measures at most [T] ticks. *)
Definition fair (w : World) (T : Z) : Prop :=
  forall k, exists n, run w (k + n) <= T.

(** [lens[i]]. *)
Definition pool_size (p : pools) (i : nat) : nat := nth i (lens p) O.

(** The order [cmp_zip] and a stable sort give: the larger key first, and
    among equal keys the smaller position first. *)
Definition before (key : nat -> nat) (x y : nat) : Prop :=
  (key y < key x)%nat \/ (key x = key y /\ (x < y)%nat).

(** Whether the doubles of the sizes [a] and [b] compare as [a] and [b]. *)
Definition size_ltb_agrees (a b : nat) : bool :=
  Bool.eqb (PrimFloat.ltb (double_of_Z (Z.of_nat a)) (double_of_Z (Z.of_nat b)))
           (a <? b)%nat.

(** The counters [indices] read as one number, in the mixed radix of the
    pool sizes along [ord], least significant position first. *)
Fixpoint rank (p : pools) (ord : list nat) (idx : list nat) : nat :=
  match ord with
  | [] => O
  | pos :: ord' => (nth pos idx O + pool_size p pos * rank p ord' idx)%nat
  end.

(** The number of counter settings along [ord]. *)
Fixpoint space (p : pools) (ord : list nat) : nat :=
  match ord with
  | [] => 1%nat
  | pos :: ord' => (pool_size p pos * space p ord')%nat
  end.

(** Every counter along [ord] points into its pool. *)
Definition in_range (p : pools) (ord : list nat) (idx : list nat) : Prop :=
  forall pos, pos ∈ ord -> (nth pos idx O < pool_size p pos)%nat.

(** Sixteen counters, each pointing into its pool. *)
Definition valid (p : pools) (order : list nat) (idx : list nat) : Prop :=
  length idx = 16%nat /\ in_range p order idx.

(** [brute_force_attempt] accepts [key]. *)
Definition hit (aes : list byte -> list byte -> list byte)
    (target_enctext key : list byte) : Prop :=
  brute_force_attempt aes key cleartext target_enctext = 0.

(** The product of the pool lengths. *)
Definition pool_product (p : pools) : nat := foldr Nat.mul 1%nat (lens p).

(** A key of the product space: sixteen bytes, the one at each position
    taken from that position's pool. *)
Definition in_product (p : pools) (key : list byte) : Prop :=
  length key = 16%nat /\
  forall i, (i < 16)%nat -> nth i key "000"%byte ∈ nth i (bytes p) [].

(** ** Sample inputs *)

(** A timer that always measures 100 cycles. *)
Definition w0 : World := {| rand := fun _ => 0; rdtsc_elapsed := fun _ => 100 |}.

(** A timer that measures 900 and 100 cycles in turn, with a [rand] that
    counts in steps of 37. *)
Definition w1 : World :=
  {| rand := fun k => Z.of_nat k * 37;
     rdtsc_elapsed := fun k => if Nat.even k then 900 else 100 |}.

(** The initial state with the threshold set to 500 ticks. *)
Definition s500 : State := set_threshold 500 (initial_state 0%float).

(** The state after one call of [generate] under [w1]. *)
Definition one_run : State :=
  match generate 2 w1 s500 with
  | Some g => g_state g
  | None => s500
  end.

(** A cipher that shows its key: the ciphertext is the key. *)
Definition transparent_cipher (key data : list byte) : list byte :=
  map (fun i => nth i key "000"%byte) (seq 0 16).

(** The pools {0}, {0, 1}, {0}, ..., {0}, and the file that holds them. *)
Definition uneven_pools : pools :=
  {| lens := [1; 2] ++ replicate 14 1;
     bytes := [["000"]; ["000"; "001"]] ++ replicate 14 ["000"] |}%nat%byte.

Definition uneven_pools_file : list byte :=
  (["001"; "000"; "002"; "000"; "001"] ++ concat (replicate 14 ["001"; "000"]))%byte.

(** The key 0, 1, 0, ..., 0. *)
Definition key_in_pools : list byte := (["000"; "001"] ++ replicate 14 "000")%byte.

(** The key 5, 1, 0, ..., 0, whose first byte the first pool lacks. *)
Definition key_off_pools : list byte := (["005"; "001"] ++ replicate 14 "000")%byte.

(** ** The rest of main.c *)

(** Conversion of an integer to [uint32_t], the type of the registers
    and, on the machines of [cpuid], of [unsigned int]. *)
Definition to_uint32 (z : Z) : Z := z mod 2 ^ 32.

(** What [cpuid] leaves in the four registers. *)
Record cpuid_regs := {
  eax : Z;
  ebx : Z;
  ecx : Z;
  edx : Z
}.

(** The body of the loop of [cache_size] below the [break]: the four
    [unsigned int] fields of leaf 4 (sets in [ecx]; line size, partitions
    and ways in the low 12, next 10 and next 10 bits of [ebx], each stored
    less one) and their product, taken in [unsigned int] before it is
    widened to [size_t]. *)
Definition cache_total_size (r : cpuid_regs) : Z :=
  let ebx0 := to_uint32 (ebx r) in
  let cache_sets := to_uint32 (to_uint32 (ecx r) + 1) in
  let cache_coherency_line_size := to_uint32 (Z.land ebx0 4095 + 1) in
  let ebx1 := Z.shiftr ebx0 12 in
  let cache_physical_line_partitions := to_uint32 (Z.land ebx1 1023 + 1) in
  let ebx2 := Z.shiftr ebx1 10 in
  let cache_ways_of_associativity := to_uint32 (Z.land ebx2 1023 + 1) in
  to_uint32
    (to_uint32
       (to_uint32 (cache_ways_of_associativity * cache_physical_line_partitions)
        * cache_coherency_line_size)
     * cache_sets).

(** The loop of [cache_size] with [n] passes left, at cache id [i];
    [cpuid i] is what the instruction answers for [eax = 4], [ecx = i]. *)
Fixpoint cache_size_loop (cpuid : nat -> cpuid_regs) (n i : nat) (largest : Z) : Z :=
  match n with
  | O => largest
  | S n' =>
      let r := cpuid i in
      if Z.land (to_uint32 (eax r)) 31 =? 0 then largest
      else
        let size := cache_total_size r in
        cache_size_loop cpuid n' (S i) (if largest <? size then size else largest)
  end.

(** [cache_size()]. *)
Definition cache_size (cpuid : nat -> cpuid_regs) : Z := cache_size_loop cpuid 32 0 0.

(** [rand_bytes(dest, num)] as the loop is written,
    [for (byte i = 0; i < num; ++i) dest[i] = rand();], from the [k]-th
    value of [rand] on: the counter [i] is a [byte] and wraps at 256.
    What comes back is the buffer and the number of values of [rand]
    used by then; [fuel] bounds the number of passes. *)
Fixpoint rand_bytes_loop (fuel : nat) (w : World) (k : nat) (num i : Z)
    (dest : list byte) : option (list byte * nat) :=
  match fuel with
  | O => None
  | S fuel' =>
      if i <? num
      then rand_bytes_loop fuel' w (S k) num ((i + 1) mod 256)
             (<[Z.to_nat i := byte_of_Z (rand w k)]> dest)
      else Some (dest, k)
  end.

(** [pos] after [qsort_r(pos, 256, sizeof(byte), cmp_zip, val)] on
    [pos[b] = b]: the bytes in the order [dump_corr] and [print_means]
    list them. *)
Definition ranking (val : list float) : list nat :=
  qsort_r (cmp_zip val) (seq 0 256).

(** A line of a correlation file: position, byte and correlation
    ("%2d %02x %lf"; with [DEBUG] at 0 nothing else is written). *)
Record corr_line := {
  c_pos : nat;
  c_byte : nat;
  c_val : float
}.

(** The pass of the outer loop of [dump_corr] at position [i]. *)
Definition dump_corr_row (corr : list (list float)) (i : nat) : list corr_line :=
  map (fun b => {| c_pos := i; c_byte := b; c_val := entry corr i b |})
      (ranking (nth i corr [])).

(** [dump_corr(corr, filename)]: the lines written to the file. *)
Definition dump_corr (corr : list (list float)) : list corr_line :=
  flat_map (dump_corr_row corr) (seq 0 16).

(** A line of a tally file: position, byte, count and normalised mean
    ("%2d %02x %lld %lf"). *)
Record means_line := {
  m_pos : nat;
  m_byte : nat;
  m_num : Z;
  m_mean : float
}.

(** The pass of the outer loop of [print_means] at position [i]. *)
Definition print_means_row (tly : list (list tally)) (means : list (list float))
    (i : nat) : list means_line :=
  map (fun b => {| m_pos := i; m_byte := b;
                   m_num := num (cell tly i b);
                   m_mean := entry means i b |})
      (ranking (nth i means [])).

(** [print_means(tly, means, key, fname)]: the lines that follow the key
    and the average. *)
Definition print_means (tly : list (list tally)) (means : list (list float))
    : list means_line :=
  flat_map (print_means_row tly means) (seq 0 16).

(** ** Vocabulary of the further properties *)

(** A double that is a number: not NaN. *)
Definition ordered (x : float) : Prop := Prim2SF x <> S754_nan.

(** [x] is listed ahead of [y] by a stable sort under [cmp]: [x] does not
    compare above [y], and where they tie [x] is the smaller. *)
Definition ahead (cmp : nat -> nat -> Z) (x y : nat) : Prop :=
  cmp x y <= 0 /\ (cmp y x <= 0 -> (x < y)%nat).

(** A double that is a finite number. *)
Definition finite_double (x : float) : bool :=
  match Prim2SF x with
  | S754_zero _ | S754_finite _ _ _ => true
  | _ => false
  end.

(** The variance as [pearson_correlation_coefficient] computes it. *)
Definition variance (X : list float) : float :=
  let avg := PrimFloat.div (Pearson.fsum X) 256 in
  PrimFloat.div
    (PrimFloat.sub (Pearson.fsum (map (fun x => PrimFloat.mul x x) X))
                   (PrimFloat.mul (PrimFloat.mul 256 avg) avg))
    255.

(** A binary64 number that is a zero or NaN: what the square root of a
    vanishing variance product is. *)
Definition null (x : spec_float) : Prop :=
  match x with
  | S754_zero _ | S754_nan => True
  | _ => False
  end.

(** The registers of a cache of [ways] ways, [parts] partitions, lines
    of [line] bytes and [sets] sets, as leaf 4 of [cpuid] lays them out;
    [type] is the cache type in the low five bits of [eax]. *)
Definition leaf4 (type ways parts line sets : Z) : cpuid_regs :=
  {| eax := type;
     ebx := (ways - 1) * 2 ^ 22 + (parts - 1) * 2 ^ 12 + (line - 1);
     ecx := sets - 1;
     edx := 0 |}.

(** [cpuid] describes a cache: the type in the low five bits of [eax]
    is not 0. *)
Definition describes_cache (r : cpuid_regs) : Prop :=
  Z.land (to_uint32 (eax r)) 31 <> 0.

(** Pools as [brute_force] holds them: [n] pools, each of 1 to 256
    candidates, with [lens] their lengths. *)
Definition well_formed (n : nat) (p : pools) : Prop :=
  length (lens p) = n /\ length (bytes p) = n /\
  forall i, (i < n)%nat ->
    (1 <= pool_size p i <= 256)%nat /\
    length (nth i (bytes p) []) = pool_size p i.

(** The file that lists the pools: for each one its length in one byte
    (0 for 256), then its candidates. *)
Definition pool_file (p : pools) : list byte :=
  concat (zip_with (fun n pool => byte_of_Z (Z.of_nat n) :: pool) (lens p) (bytes p)).

(** The order of two triples, the first component first. *)
Definition lex_lt (a b : Z * Z * Z) : Prop :=
  let '(a1, a2, a3) := a in
  let '(b1, b2, b3) := b in
  a1 < b1 \/ (a1 = b1 /\ (a2 < b2 \/ (a2 = b2 /\ a3 < b3))).

(** Where a binary64 number stands among the others: by class (negative
    infinity, negative, zero, positive, positive infinity), then by
    exponent and mantissa. *)
Definition sf_rank (x : spec_float) : Z * Z * Z :=
  match x with
  | S754_infinity true => (-2, 0, 0)
  | S754_finite true m e => (-1, - e, - Z.pos m)
  | S754_zero _ | S754_nan => (0, 0, 0)
  | S754_finite false m e => (1, e, Z.pos m)
  | S754_infinity false => (2, 0, 0)
  end.

(** ** Sample inputs of the further properties *)

(** A correlation matrix whose rows all are 0, 1, ..., 255. *)
Definition ramp_corr : list (list float) := replicate 16 Pearson.ramp.

(** The vector of 256 ones: the means of a position where no cell
    deviates. *)
Definition ones : list float := replicate 256 1%float.

(** A timer under which every encryption takes 3 * 2^30 cycles. *)
Definition w_long : World :=
  {| rand := fun _ => 0; rdtsc_elapsed := fun _ => 3 * 2 ^ 30 |}.

(** A processor with three caches: 32 KiB and 256 KiB of 8 ways, 8 MiB
    of 16 ways; no cache at the ids from 3 on. *)
Definition three_caches (i : nat) : cpuid_regs :=
  match i with
  | 0%nat => leaf4 1 8 1 64 64
  | 1%nat => leaf4 3 8 1 64 512
  | 2%nat => leaf4 3 16 1 64 8192
  | _ => leaf4 0 1 1 1 1
  end.

(** A cipher that looks at the first two bytes of its key only: the
    ciphertext is those two bytes and fourteen zeros. *)
Definition two_byte_cipher (key data : list byte) : list byte :=
  map (fun i => if (i <? 2)%nat then nth i key "000"%byte else "000"%byte) (seq 0 16).

(** * Properties *)

(** ** Machine numbers *)

(** An [int] stays within its 32 bits. *)
Lemma to_int32_range (z : Z) : - 2 ^ 31 <= to_int32 z <= INT32_MAX.
Proof.
  unfold to_int32, INT32_MAX.
  pose proof (Z.mod_pos_bound (z + 2 ^ 31) (2 ^ 32) ltac:(lia)). lia.
Qed.

(** Conversion to [int] leaves a value that fits alone. *)
Lemma to_int32_id (z : Z) : - 2 ^ 31 <= z <= INT32_MAX -> to_int32 z = z.
Proof.
  unfold to_int32, INT32_MAX. intros H.
  rewrite Z.mod_small; lia.
Qed.

(** ** Doubles that hold integers *)

(** The tally adds [int] tick counts into a double. Below 2^53 every
    whole number is a double, and the sum of two such doubles is the
    double of the sum: shown here from the IEEE 754 specification of
    the primitive operations ([SpecFloat]). *)

Lemma digits_size c : digits2_pos c = Pos.size c.
Proof. induction c; simpl; congruence. Qed.

Lemma digits_pos c : 1 <= digits c.
Proof. unfold digits. lia. Qed.

(** [c] has at most [n] binary digits when it is below 2^n. *)
Lemma digits_le c n : 0 <= n -> (digits c <= n <-> Z.pos c < 2 ^ n).
Proof.
  intros Hn. unfold digits. rewrite digits_size.
  pose proof (Pos.size_gt c) as Hgt. pose proof (Pos.size_le c) as Hle.
  apply Pos2Z.pos_lt_pos in Hgt. apply Pos2Z.pos_le_pos in Hle.
  rewrite Pos2Z.inj_pow in Hgt, Hle.
  split; intros H.
  - eapply Z.lt_le_trans; [exact Hgt|]. apply Z.pow_le_mono_r; lia.
  - destruct (Z.le_gt_cases (Z.pos (Pos.size c)) n) as [|Hlt]; [assumption|exfalso].
    assert (Hpow : 2 ^ (n + 1) <= 2 ^ Z.pos (Pos.size c)) by (apply Z.pow_le_mono_r; lia).
    rewrite Z.pow_add_r in Hpow by lia. lia.
Qed.

(** Shifting up by [n] places adds [n] digits. *)
Lemma digits_shift_nat n c : digits (shift_nat n c) = digits c + Z.of_nat n.
Proof.
  unfold digits. induction n as [|n IH]; [simpl; lia|].
  change (shift_nat (S n) c) with (xO (shift_nat n c)).
  cbn [digits2_pos]. rewrite Pos2Z.inj_succ, IH. lia.
Qed.

Lemma shift_nat_add a b c : shift_nat a (shift_nat b c) = shift_nat (a + b) c.
Proof. induction a as [|a IH]; [reflexivity|]. simpl. f_equal. exact IH. Qed.

Lemma Zpos_shift_nat n c : Z.pos (shift_nat n c) = Z.pos c * 2 ^ Z.of_nat n.
Proof.
  rewrite shift_nat_correct, Zpower_nat_Z. lia.
Qed.

(** The iteration of [SpecFloat] is the iteration over [nat]. *)
Lemma iter_pos_nat {A} (f : A -> A) p x : SpecFloat.iter_pos f p x = Nat.iter (Pos.to_nat p) f x.
Proof.
  revert x. induction p as [p IH|p IH|]; intros x; cbn [SpecFloat.iter_pos].
  - rewrite !IH, Pos2Nat.inj_xI. rewrite <- Nat.iter_succ_r.
    replace (S (2 * Pos.to_nat p))%nat with (Pos.to_nat p + S (Pos.to_nat p))%nat by lia.
    rewrite Nat.iter_add. reflexivity.
  - rewrite !IH, Pos2Nat.inj_xO.
    replace (2 * Pos.to_nat p)%nat with (Pos.to_nat p + Pos.to_nat p)%nat by lia.
    rewrite Nat.iter_add. reflexivity.
  - reflexivity.
Qed.

(** Shifting [c * 2^n] down by [k <= n] places drops zeros only. *)
Lemma shr_shift_nat k n c :
  (k <= n)%nat ->
  Nat.iter k shr_1 {| shr_m := Z.pos (shift_nat n c); shr_r := false; shr_s := false |} =
  {| shr_m := Z.pos (shift_nat (n - k) c); shr_r := false; shr_s := false |}.
Proof.
  revert n. induction k as [|k IH]; intros n Hk.
  - rewrite Nat.sub_0_r. reflexivity.
  - rewrite Nat.iter_succ_r.
    destruct n as [|n]; [lia|].
    change (shift_nat (S n) c) with (xO (shift_nat n c)). cbn [shr_1 orb].
    rewrite IH by lia. reflexivity.
Qed.

(** The exponent of a number of [e] digits, away from the subnormals. *)
Lemma fexp_digits e : -1021 <= e -> fexp prec emax e = e - 53.
Proof. intros H. unfold fexp, emin, prec, emax. lia. Qed.

(** Rounding a mantissa [c * 2^n] at exponent [e] that needs [k <= n]
    binary places dropped loses nothing. *)
Lemma binary_round_aux_exact sgn c n e k :
  fexp prec emax (digits c + Z.of_nat n + e) - e = Z.of_nat k ->
  (k <= n)%nat -> e + Z.of_nat k <= 971 ->
  binary_round_aux prec emax sgn (Z.pos (shift_nat n c)) e loc_Exact =
  S754_finite sgn (shift_nat (n - k) c) (e + Z.of_nat k).
Proof.
  intros Hk Hle He. unfold binary_round_aux.
  assert (H1 : shr_fexp prec emax (Z.pos (shift_nat n c)) e loc_Exact =
               ({| shr_m := Z.pos (shift_nat (n - k) c); shr_r := false; shr_s := false |},
                e + Z.of_nat k)).
  { unfold shr_fexp. cbn [Zdigits2 shr_record_of_loc].
    fold (digits (shift_nat n c)). rewrite digits_shift_nat, Hk.
    unfold shr. destruct k as [|k].
    - change (Z.of_nat 0) with 0. cbv iota. rewrite Nat.sub_0_r, Z.add_0_r. reflexivity.
    - change (Z.of_nat (S k)) with (Z.pos (Pos.of_succ_nat k)). cbv iota.
      rewrite iter_pos_nat, SuccNat2Pos.id_succ.
      rewrite shr_shift_nat by lia. reflexivity. }
  rewrite H1. cbn [shr_m loc_of_shr_record round_nearest_even].
  assert (H2 : shr_fexp prec emax (Z.pos (shift_nat (n - k) c)) (e + Z.of_nat k) loc_Exact =
               ({| shr_m := Z.pos (shift_nat (n - k) c); shr_r := false; shr_s := false |},
                e + Z.of_nat k)).
  { unfold shr_fexp. cbn [Zdigits2 shr_record_of_loc].
    fold (digits (shift_nat (n - k) c)). rewrite digits_shift_nat.
    replace (digits c + Z.of_nat (n - k) + (e + Z.of_nat k))
      with (digits c + Z.of_nat n + e) by lia.
    replace (fexp prec emax (digits c + Z.of_nat n + e) - (e + Z.of_nat k)) with 0 by lia.
    reflexivity. }
  rewrite H2. cbn [shr_m].
  replace (e + Z.of_nat k <=? emax - prec) with true; [reflexivity|].
  symmetry. apply Z.leb_le. unfold emax, prec. lia.
Qed.

(** Rounding [c * 2^j] at exponent [-j], that is the integer [c], gives
    the double that holds [c]. *)
Lemma binary_round_exact sgn c j :
  digits c <= 53 ->
  binary_round prec emax sgn (shift_nat j c) (- Z.of_nat j) = held_finite sgn c.
Proof.
  intros Hd. pose proof (digits_pos c) as Hp.
  unfold binary_round, held_finite. fold (digits (shift_nat j c)).
  rewrite digits_shift_nat.
  replace (digits c + Z.of_nat j + - Z.of_nat j) with (digits c) by lia.
  rewrite fexp_digits by lia.
  unfold shl_align.
  destruct (digits c - 53 - - Z.of_nat j) as [|q|q] eqn:Hq.
  - rewrite (binary_round_aux_exact sgn c j (- Z.of_nat j) O).
    + f_equal; [f_equal; lia | lia].
    + rewrite fexp_digits by lia. lia.
    + lia.
    + lia.
  - rewrite (binary_round_aux_exact sgn c j (- Z.of_nat j) (Pos.to_nat q)).
    + f_equal; [f_equal; lia | lia].
    + rewrite fexp_digits by lia. lia.
    + lia.
    + lia.
  - change (Pos.iter xO (shift_nat j c) q) with (shift_pos q (shift_nat j c)).
    rewrite shift_pos_nat, shift_nat_add.
    rewrite (binary_round_aux_exact sgn c _ (digits c - 53) O).
    + f_equal; [f_equal; lia | lia].
    + rewrite fexp_digits by lia. lia.
    + lia.
    + lia.
Qed.

(** The same for an integer [z] of either sign, or zero. *)
Lemma binary_normalize_exact z j :
  Z.abs z < 2 ^ 53 ->
  binary_normalize prec emax (z * 2 ^ Z.of_nat j) (- Z.of_nat j) false = held z.
Proof.
  intros Hz. destruct z as [|c|c].
  - reflexivity.
  - rewrite <- Zpos_shift_nat. cbn [binary_normalize held].
    apply binary_round_exact. apply digits_le; lia.
  - change (Z.abs (Z.neg c)) with (Z.pos c) in Hz.
    change (Z.neg c) with (- Z.pos c). rewrite Z.mul_opp_l, <- Zpos_shift_nat.
    cbn [Z.opp binary_normalize held].
    apply binary_round_exact. apply digits_le; lia.
Qed.

(** Aligning the mantissa of the double that holds [c] to a smaller
    exponent [ez] gives [c * 2^(-ez)]. *)
Lemma align_held c ez :
  digits c <= 53 -> ez <= digits c - 53 ->
  fst (shl_align (shift_nat (Z.to_nat (53 - digits c)) c) (digits c - 53) ez) =
  shift_nat (Z.to_nat (- ez)) c.
Proof.
  intros Hd He. unfold shl_align.
  destruct (ez - (digits c - 53)) as [|q|q] eqn:Hq; cbn [fst].
  - f_equal. lia.
  - lia.
  - change (Pos.iter xO ?x q) with (shift_pos q x).
    rewrite shift_pos_nat, shift_nat_add. f_equal. lia.
Qed.

Lemma held_nonzero z :
  z <> 0 -> held z = held_finite (z <? 0) (Z.to_pos (Z.abs z)).
Proof. destruct z; [congruence | reflexivity | reflexivity]. Qed.

Lemma cond_Zopp_shift z j :
  z <> 0 ->
  cond_Zopp (z <? 0) (Z.pos (shift_nat j (Z.to_pos (Z.abs z)))) = z * 2 ^ Z.of_nat j.
Proof.
  intros Hz. rewrite Zpos_shift_nat.
  destruct z as [|c|c]; [congruence| |]; cbn [Z.ltb Z.compare cond_Zopp Z.abs Z.to_pos].
  - reflexivity.
  - change (Z.to_pos (Z.abs (Z.neg c))) with c.
    change (Z.neg c) with (- Z.pos c). ring.
Qed.

(** The IEEE sum of the doubles that hold [a] and [b] is the double that
    holds [a + b]. *)
Lemma SFadd_held a b :
  Z.abs a < 2 ^ 53 -> Z.abs b < 2 ^ 53 -> Z.abs (a + b) < 2 ^ 53 ->
  SFadd prec emax (held a) (held b) = held (a + b).
Proof.
  intros Ha Hb Hab.
  destruct (Z.eq_dec a 0) as [->|Ha0].
  { destruct b; reflexivity. }
  destruct (Z.eq_dec b 0) as [->|Hb0].
  { rewrite Z.add_0_r. destruct a; reflexivity. }
  rewrite (held_nonzero a Ha0), (held_nonzero b Hb0).
  set (ca := Z.to_pos (Z.abs a)). set (cb := Z.to_pos (Z.abs b)).
  assert (Hda : digits ca <= 53) by (apply digits_le; subst ca; lia).
  assert (Hdb : digits cb <= 53) by (apply digits_le; subst cb; lia).
  unfold held_finite, SFadd.
  set (ez := Z.min (digits ca - 53) (digits cb - 53)).
  rewrite (align_held ca ez), (align_held cb ez) by (subst ez; lia).
  subst ca cb. rewrite !cond_Zopp_shift by assumption.
  rewrite <- Z.mul_add_distr_r.
  remember (Z.to_nat (- ez)) as J eqn:HJ.
  replace ez with (- Z.of_nat J) by (subst J ez; lia).
  apply binary_normalize_exact, Hab.
Qed.

Lemma binary_normalize_exact0 z :
  Z.abs z < 2 ^ 53 -> binary_normalize prec emax z 0 false = held z.
Proof.
  intros Hz. pose proof (binary_normalize_exact z O Hz) as H.
  cbn [Z.of_nat Z.opp] in H. rewrite Z.pow_0_r, Z.mul_1_r in H. exact H.
Qed.

(** The double of an integer below 2^53 in size holds that integer. *)
Lemma Prim2SF_double_of_Z z :
  Z.abs z < 2 ^ 53 -> Prim2SF (double_of_Z z) = held z.
Proof.
  intros Hz. unfold double_of_Z.
  assert (Hw : 2 ^ 53 < Uint63.wB) by reflexivity.
  destruct (z <? 0) eqn:Hneg.
  - apply Z.ltb_lt in Hneg.
    rewrite opp_spec, of_uint63_spec, Uint63.of_Z_spec, Z.mod_small by lia.
    rewrite binary_normalize_exact0 by lia.
    destruct z; [lia | lia | reflexivity].
  - apply Z.ltb_ge in Hneg.
    rewrite of_uint63_spec, Uint63.of_Z_spec, Z.mod_small by lia.
    apply binary_normalize_exact0, Hz.
Qed.

(** Adding the doubles of two integers gives the double of their sum, as
    long as the integers and the sum stay below 2^53 in size. *)
Lemma double_of_Z_add a b :
  Z.abs a < 2 ^ 53 -> Z.abs b < 2 ^ 53 -> Z.abs (a + b) < 2 ^ 53 ->
  PrimFloat.add (double_of_Z a) (double_of_Z b) = double_of_Z (a + b).
Proof.
  intros Ha Hb Hab. apply Prim2SF_inj.
  rewrite add_spec, !Prim2SF_double_of_Z by assumption.
  apply SFadd_held; assumption.
Qed.

(** The integer part of the double of an integer below 2^53 in size is
    that integer. *)
Lemma double_trunc_of_Z z :
  Z.abs z < 2 ^ 53 -> double_trunc (double_of_Z z) = z.
Proof.
  intros Hz. unfold double_trunc. rewrite Prim2SF_double_of_Z by assumption.
  destruct (Z.eq_dec z 0) as [->|Hz0]; [reflexivity|].
  rewrite (held_nonzero z Hz0). unfold held_finite.
  set (c := Z.to_pos (Z.abs z)).
  assert (Hd : digits c <= 53) by (apply digits_le; subst c; lia).
  pose proof (digits_pos c) as Hp.
  rewrite Zpos_shift_nat.
  assert (Hmag : (if 0 <=? digits c - 53
                  then Z.pos c * 2 ^ Z.of_nat (Z.to_nat (53 - digits c)) * 2 ^ (digits c - 53)
                  else Z.pos c * 2 ^ Z.of_nat (Z.to_nat (53 - digits c)) / 2 ^ (- (digits c - 53)))
                 = Z.pos c).
  { destruct (0 <=? digits c - 53) eqn:He.
    - apply Z.leb_le in He. replace (digits c - 53) with 0 by lia.
      replace (53 - digits c) with 0 by lia.
      change (Z.of_nat (Z.to_nat 0)) with 0. rewrite Z.pow_0_r. lia.
    - replace (Z.of_nat (Z.to_nat (53 - digits c))) with (- (digits c - 53)) by lia.
      apply Z.div_mul. apply Z.pow_nonzero; lia. }
  cbv zeta. rewrite Hmag. subst c. destruct z; [congruence | reflexivity | reflexivity].
Qed.

(** ** The measurement loop *)

(** [measure] returns at the first call of [run] whose tick count does not
    exceed [T]. *)
Lemma measure_Some (fuel : nat) (w : World) (T : Z) (k : nat) (d : Z) (k' : nat) :
  measure fuel w T k = Some (d, k') <->
  exists n, (n < fuel)%nat /\ (forall m, (m < n)%nat -> T < run w (k + m)) /\
            run w (k + n) <= T /\ d = run w (k + n) /\ k' = S (k + n).
Proof.
  revert k. induction fuel as [|fuel IH]; intros k; simpl.
  - split; [discriminate | intros (n & Hn & _); lia].
  - destruct (Z.ltb_spec T (run w k)) as [Hgt | Hle].
    + rewrite IH. split.
      * intros (n & Hn & Hbefore & Hacc & -> & ->).
        exists (S n). replace (k + S n)%nat with (S k + n)%nat by lia.
        split; [lia|]. split; [|auto].
        intros [|m] Hm; [rewrite Nat.add_0_r; exact Hgt|].
        replace (k + S m)%nat with (S k + m)%nat by lia. apply Hbefore. lia.
      * intros (n & Hn & Hbefore & Hacc & -> & ->).
        destruct n as [|n]; [rewrite Nat.add_0_r in Hacc; lia|].
        exists n. replace (k + S n)%nat with (S k + n)%nat in * by lia.
        split; [lia|]. split; [|auto].
        intros m Hm. replace (S k + m)%nat with (k + S m)%nat by lia. apply Hbefore. lia.
    + split.
      * intros [= <- <-]. exists 0%nat. rewrite Nat.add_0_r.
        split; [lia|]. split; [intros m Hm; lia | auto].
      * intros (n & Hn & Hbefore & Hacc & -> & ->).
        destruct n as [|n]; [rewrite Nat.add_0_r; reflexivity|].
        specialize (Hbefore 0%nat ltac:(lia)). rewrite Nat.add_0_r in Hbefore. lia.
Qed.

(** [measure] runs out of passes exactly when every measurement it made
    exceeded [T]. *)
Lemma measure_None (fuel : nat) (w : World) (T : Z) (k : nat) :
  measure fuel w T k = None <-> forall m, (m < fuel)%nat -> T < run w (k + m).
Proof.
  revert k. induction fuel as [|fuel IH]; intros k; simpl.
  - split; [intros _ m Hm; lia | reflexivity].
  - destruct (Z.ltb_spec T (run w k)) as [Hgt | Hle].
    + rewrite IH. split.
      * intros H [|m] Hm; [rewrite Nat.add_0_r; exact Hgt|].
        replace (k + S m)%nat with (S k + m)%nat by lia. apply H. lia.
      * intros H m Hm. replace (S k + m)%nat with (k + S m)%nat by lia. apply H. lia.
    + split; [discriminate|].
      intros H. specialize (H 0%nat ltac:(lia)). rewrite Nat.add_0_r in H. lia.
Qed.

(** More passes do not change what [measure] returns. *)
Lemma measure_mono (fuel fuel' : nat) (w : World) (T : Z) (k : nat) (r : Z * nat) :
  (fuel <= fuel')%nat -> measure fuel w T k = Some r -> measure fuel' w T k = Some r.
Proof.
  destruct r as [d k']. rewrite !measure_Some.
  intros Hle (n & Hn & H). exists n. split; [lia | exact H].
Qed.

Lemma generate_completes (w : World) (s : State) :
  (exists n, run w (run_calls s + n) <= tally_threshold s) ->
  exists fuel g, generate fuel w s = Some g.
Proof.
  intros (n & Hn). exists (S n). unfold generate.
  destruct (measure (S n) w (tally_threshold s) (run_calls s)) as [[d k]|] eqn:Hm;
    [eauto|].
  rewrite measure_None in Hm. specialize (Hm n ltac:(lia)). lia.
Qed.

(** C9. With the threshold in force, a call of [generate] returns exactly
    when some measurement from the current one on yields a tick count
    that does not exceed [tally_threshold]; when every measurement
    exceeds it, the loop never ends, however many passes it is given. *)
Theorem generate_terminates_iff (w : World) (s : State) :
  ((exists fuel g, generate fuel w s = Some g) <->
   (exists n, run w (run_calls s + n) <= tally_threshold s)) /\
  ((forall n, tally_threshold s < run w (run_calls s + n)) ->
   forall fuel, generate fuel w s = None).
Proof.
  split; [split|].
  - intros (fuel & g & Hg). unfold generate in Hg.
    destruct (measure fuel w (tally_threshold s) (run_calls s)) as [[d k]|] eqn:Hm;
      [|discriminate].
    apply measure_Some in Hm as (n & _ & _ & Hacc & _). eauto.
  - apply generate_completes.
  - intros Hall fuel. unfold generate.
    assert (Hm : measure fuel w (tally_threshold s) (run_calls s) = None).
    { apply measure_None. intros m _. apply Hall. }
    rewrite Hm. reflexivity.
Qed.

(** ** The tally table *)

Lemma nth_map_seq {A} (f : nat -> A) (n i : nat) (d : A) :
  (i < n)%nat -> nth i (map f (seq 0 n)) d = f i.
Proof.
  intros Hi. rewrite nth_lookup, list_lookup_fmap, lookup_seq_lt by exact Hi.
  reflexivity.
Qed.

Lemma zero_table_shape : table_shape zero_table.
Proof.
  split; [reflexivity|]. unfold zero_table.
  apply Forall_replicate. reflexivity.
Qed.

Lemma nth_replicate {A} (n i : nat) (x d : A) :
  nth i (replicate n x) d = if decide (i < n)%nat then x else d.
Proof.
  destruct (decide (i < n)%nat) as [Hi|Hi].
  - rewrite nth_lookup, (lookup_replicate_2 _ _ i Hi). reflexivity.
  - apply nth_overflow. rewrite length_replicate. lia.
Qed.

Lemma cell_zero_table (i b : nat) : cell zero_table i b = zero_tally.
Proof.
  unfold cell, zero_table. rewrite (nth_replicate 16).
  destruct (decide (i < 16)%nat).
  - rewrite nth_replicate. destruct (decide (b < 256)%nat); reflexivity.
  - destruct b; reflexivity.
Qed.

Lemma table_shape_row (t : list (list tally)) (i : nat) :
  table_shape t -> (i < 16)%nat -> length (nth i t []) = 256%nat.
Proof.
  intros [Hlen Hrows] Hi. rewrite nth_lookup.
  destruct (lookup_lt_is_Some_2 t i ltac:(lia)) as [row Hrow].
  rewrite Hrow. simpl. exact (proj1 (Forall_lookup _ _) Hrows i row Hrow).
Qed.

Lemma tally_position_shape data d t i :
  table_shape t -> table_shape (tally_position data d t i).
Proof.
  intros [Hlen Hrows]. unfold tally_position. split.
  - rewrite length_alter. exact Hlen.
  - apply Forall_alter; [exact Hrows|]. intros row _ Hrow. rewrite length_alter. exact Hrow.
Qed.

(** One position: row [i] changes at the column of [data[i]], nothing else does. *)
Lemma cell_tally_position data d t i j b :
  table_shape t -> (i < 16)%nat ->
  cell (tally_position data d t i) j b =
  if decide (j = i /\ b = Byte.to_nat (nth i data "000"%byte))
  then tally_cell d (cell t j b) else cell t j b.
Proof.
  intros Hshape Hi. pose proof (table_shape_row t i Hshape Hi) as Hrow.
  destruct Hshape as [Hlen _].
  pose proof (Byte.to_nat_bounded (nth i data "000"%byte)) as Hbyte.
  unfold cell, tally_position.
  generalize dependent (Byte.to_nat (nth i data "000"%byte)). intros c Hc.
  rewrite (nth_lookup _ i) in Hrow. rewrite (nth_lookup _ j), (nth_lookup (default _ _)).
  rewrite (nth_lookup t j), (nth_lookup (default _ (t !! j))).
  rewrite list_lookup_alter.
  destruct (decide (i = j)) as [<-|Hij].
  - destruct (lookup_lt_is_Some_2 t i ltac:(lia)) as [row Hr].
    rewrite Hr in *. simpl in *. rewrite list_lookup_alter.
    destruct (decide (c = b)) as [<-|Hb].
    + rewrite decide_True by auto.
      destruct (lookup_lt_is_Some_2 row c ltac:(lia)) as [x Hx].
      rewrite Hx. reflexivity.
    + rewrite decide_False by (intros [_ ->]; congruence). reflexivity.
  - rewrite decide_False by (intros [-> _]; congruence). reflexivity.
Qed.

Lemma fold_tally_shape data d l t :
  table_shape t -> table_shape (fold_left (tally_position data d) l t).
Proof.
  revert t. induction l as [|i l IH]; intros t Ht; simpl; [exact Ht|].
  apply IH, tally_position_shape, Ht.
Qed.

(** Several positions, each visited once: the rows visited change at the
    column of their cleartext byte. *)
Lemma cell_fold_tally data d l t j b :
  table_shape t -> NoDup l -> Forall (fun i => (i < 16)%nat) l ->
  cell (fold_left (tally_position data d) l t) j b =
  if decide (j ∈ l /\ b = Byte.to_nat (nth j data "000"%byte))
  then tally_cell d (cell t j b) else cell t j b.
Proof.
  revert t. induction l as [|i l IH]; intros t Ht Hnd Hlt; cbn [fold_left].
  - rewrite decide_False; [reflexivity|]. intros [H _]. inversion H.
  - apply NoDup_cons in Hnd as [Hi Hnd]. apply Forall_cons in Hlt as [Hi16 Hlt].
    rewrite IH by auto using tally_position_shape.
    rewrite cell_tally_position by assumption.
    destruct (decide (j = i)) as [->|Hji].
    + rewrite (decide_False (P := i ∈ l /\ _)) by (intros [Hin _]; contradiction).
      destruct (decide (b = Byte.to_nat (nth i data "000"%byte))) as [Hb|Hb].
      * rewrite !decide_True by (split; [left || reflexivity | exact Hb]). reflexivity.
      * rewrite !decide_False by (intros [_ Hb']; contradiction). reflexivity.
    + rewrite (decide_False (P := j = i /\ _)) by (intros [Heq _]; contradiction).
      destruct (decide (j ∈ l /\ b = Byte.to_nat (nth j data "000"%byte)))
        as [[Hin Hb]|Hn].
      * rewrite decide_True by (split; [right; exact Hin | exact Hb]). reflexivity.
      * rewrite decide_False; [reflexivity|]. intros [Hin Hb]. apply Hn.
        apply elem_of_cons in Hin as [Heq|Hin]; [contradiction|]. split; assumption.
Qed.

(** The tallying block as a whole, cell by cell. *)
Lemma cell_perform_tallies data d s j b :
  table_shape (tly s) -> (j < 16)%nat ->
  cell (tly (perform_tallies data d s)) j b =
  if decide (b = Byte.to_nat (nth j data "000"%byte))
  then tally_cell d (cell (tly s) j b) else cell (tly s) j b.
Proof.
  intros Hs Hj. unfold perform_tallies. cbn [tly].
  rewrite cell_fold_tally; [| assumption | apply NoDup_seq |].
  - assert (Hin : j ∈ seq 0 16) by (apply elem_of_seq; lia).
    destruct (decide (b = Byte.to_nat (nth j data "000"%byte))) as [Hb|Hb].
    + rewrite decide_True by auto. reflexivity.
    + rewrite decide_False by tauto. reflexivity.
  - apply Forall_forall. intros i Hin. apply elem_of_seq in Hin. lia.
Qed.

Lemma Zsum_ext f g n : (forall b, (b < n)%nat -> f b = g b) -> Zsum f n = Zsum g n.
Proof.
  induction n as [|n IH]; intros H; simpl; [reflexivity|].
  rewrite IH, H by (intros; try apply H; lia). reflexivity.
Qed.

(** Raising one summand by [delta] raises the sum by [delta]. *)
Lemma Zsum_bump f g n c delta :
  (c < n)%nat ->
  (forall b, (b < n)%nat -> g b = if decide (b = c) then f b + delta else f b) ->
  Zsum g n = Zsum f n + delta.
Proof.
  induction n as [|n IH]; intros Hc H; [lia|]. simpl.
  rewrite (H n) by lia.
  destruct (decide (n = c)) as [->|Hn].
  - rewrite (Zsum_ext g f); [lia|]. intros b Hb. rewrite H by lia.
    rewrite decide_False by lia. reflexivity.
  - rewrite IH; [lia | lia |]. intros b Hb. apply H. lia.
Qed.

Lemma Zsum_zero n : Zsum (fun _ => 0) n = 0.
Proof. induction n as [|n IH]; simpl; lia. Qed.

(** What a call of [generate] that returns did to the state. *)
Lemma generate_Some (fuel : nat) (w : World) (s : State) (g : generated) :
  generate fuel w s = Some g ->
  exists k,
    measure fuel w (tally_threshold s) (run_calls s) = Some (g_ticks g, k) /\
    g_data g = rand_bytes w (rand_calls s) 16 /\
    tly (g_state g) = fold_left (tally_position (g_data g) (g_ticks g)) (seq 0 16) (tly s) /\
    total_runs (g_state g) = total_runs s + 1 /\
    total_ticks (g_state g) = total_ticks s + g_ticks g /\
    tally_threshold (g_state g) = tally_threshold s /\
    d_arg (g_state g) = d_arg s /\
    rand_calls (g_state g) = (rand_calls s + 16)%nat /\
    run_calls (g_state g) = k.
Proof.
  unfold generate.
  destruct (measure fuel w (tally_threshold s) (run_calls s)) as [[d k]|]; [|discriminate].
  intros [= <-]. exists k. cbn. repeat split; reflexivity.
Qed.

(** More passes do not change what [generate] returns. *)
Lemma generate_mono (fuel fuel' : nat) (w : World) (s : State) (g : generated) :
  (fuel <= fuel')%nat -> generate fuel w s = Some g -> generate fuel' w s = Some g.
Proof.
  intros Hle. unfold generate.
  destruct (measure fuel w (tally_threshold s) (run_calls s)) as [[d k]|] eqn:Hm;
    [|discriminate].
  rewrite (measure_mono _ _ _ _ _ _ Hle Hm). auto.
Qed.

(** C1. A call of [generate] that returns has accepted a measurement: a
    cleartext [P] and a duration [d] within the threshold. At each of the
    sixteen positions [i] the cell of [P[i]] then counts one measurement
    more and [d] ticks more ([d] is added to its double), every other
    cell of the row is as before, [total_ticks] has grown by [d] and
    [total_runs] by one. *)
Theorem generate_tallies (fuel : nat) (w : World) (s : State) (g : generated) :
  table_shape (tly s) ->
  generate fuel w s = Some g ->
  let P := g_data g in
  let d := g_ticks g in
  let s' := g_state g in
  P = rand_bytes w (rand_calls s) 16 /\
  d <= tally_threshold s /\
  (forall i, (i < 16)%nat ->
     let b := Byte.to_nat (nth i P "000"%byte) in
     num (cell (tly s') i b) = num (cell (tly s) i b) + 1 /\
     ticks (cell (tly s') i b) =
     PrimFloat.add (ticks (cell (tly s) i b)) (double_of_Z d)) /\
  (forall i b, (i < 16)%nat -> b <> Byte.to_nat (nth i P "000"%byte) ->
     cell (tly s') i b = cell (tly s) i b) /\
  total_ticks s' = total_ticks s + d /\
  total_runs s' = total_runs s + 1.
Proof.
  intros Hshape Hg. cbv zeta.
  destruct (generate_Some _ _ _ _ Hg) as (k & Hm & HP & Htly & Hruns & Hticks & _).
  apply measure_Some in Hm as (n & _ & _ & Hacc & Hd & _).
  assert (Hcell : forall i b, (i < 16)%nat ->
            cell (tly (g_state g)) i b =
            if decide (b = Byte.to_nat (nth i (g_data g) "000"%byte))
            then tally_cell (g_ticks g) (cell (tly s) i b) else cell (tly s) i b).
  { intros i b Hi.
    pose proof (cell_perform_tallies (g_data g) (g_ticks g) s i b Hshape Hi) as H.
    unfold perform_tallies in H. cbn [tly] in H. rewrite <- Htly in H. exact H. }
  split; [exact HP|]. split; [lia|]. split; [|split; [|split; assumption]].
  - intros i Hi. rewrite Hcell, decide_True by auto. split; reflexivity.
  - intros i b Hi Hb. rewrite Hcell, decide_False by auto. reflexivity.
Qed.

Lemma generate_tallies_witness :
  table_shape (tly s500) /\
  exists g, generate 2 w1 s500 = Some g /\
    g_ticks g = 100 /\
    (forall i, (i < 16)%nat ->
       let b := Byte.to_nat (nth i (g_data g) "000"%byte) in
       num (cell (tly (g_state g)) i b) = num (cell (tly s500) i b) + 1 /\
       ticks (cell (tly (g_state g)) i b) =
       PrimFloat.add (ticks (cell (tly s500) i b)) (double_of_Z (g_ticks g))) /\
    total_ticks (g_state g) = 100 /\ total_runs (g_state g) = 1.
Proof.
  split; [exact zero_table_shape|].
  eexists. split; [reflexivity|].
  destruct (generate_tallies 2 w1 s500 _ zero_table_shape eq_refl)
    as (_ & _ & Hcells & _ & Hticks & Hruns).
  split; [reflexivity|]. split; [exact Hcells|]. split; [exact Hticks | exact Hruns].
Defined.

Lemma Zsum_nonneg f n : (forall b, (b < n)%nat -> 0 <= f b) -> 0 <= Zsum f n.
Proof.
  induction n as [|n IH]; intros Hf; cbn [Zsum]; [lia|].
  specialize (Hf n ltac:(lia)) as Hn. specialize (IH ltac:(intros; apply Hf; lia)). lia.
Qed.

(** A term of a sum of non-negative numbers is at most the sum. *)
Lemma Zsum_term_le f n c :
  (forall b, (b < n)%nat -> 0 <= f b) -> (c < n)%nat -> f c <= Zsum f n.
Proof.
  induction n as [|n IH]; intros Hf Hc; [lia|]. cbn [Zsum].
  pose proof (Hf n ltac:(lia)) as Hn.
  destruct (decide (c = n)) as [->|Hne].
  - pose proof (Zsum_nonneg f n ltac:(intros; apply Hf; lia)). lia.
  - specialize (IH ltac:(intros; apply Hf; lia) ltac:(lia)). lia.
Qed.

(** A run of 2^22 measurements of an [int] each stays below 2^53, up to
    where every whole number is a double. *)
Lemma runs_below_2_53 (n t d : Z) :
  n < Z.shiftl 1 DEFAULT_RUNS -> 0 <= t <= n * INT32_MAX -> 0 <= d <= INT32_MAX ->
  0 <= t + d <= (n + 1) * INT32_MAX /\ t + d < 2 ^ 53.
Proof.
  change (Z.shiftl 1 DEFAULT_RUNS) with 4194304. unfold INT32_MAX. lia.
Qed.

(** One call of [generate] keeps the table and the counters in agreement,
    as long as fewer than 2^22 measurements were tallied before it and
    the tick counts are not negative. *)
Lemma generate_conserved (fuel : nat) (w : World) (s : State) (g : generated) :
  conserved s -> whole s ->
  total_runs s < Z.shiftl 1 DEFAULT_RUNS -> (forall j, 0 <= run w j) ->
  generate fuel w s = Some g -> conserved (g_state g) /\ whole (g_state g).
Proof.
  intros [Hshape Hsums] [Hbound Hcells] Hruns Hpos Hg.
  destruct (generate_Some _ _ _ _ Hg) as (k & Hm & _ & Htly & Hr & Ht & _).
  apply measure_Some in Hm as (n & _ & _ & _ & Hd & _).
  assert (Hd0 : 0 <= g_ticks g <= INT32_MAX).
  { rewrite Hd. split; [apply Hpos | apply to_int32_range]. }
  destruct (runs_below_2_53 _ _ _ Hruns Hbound Hd0) as [Hbound' Hlt].
  assert (Hcell : forall i b, (i < 16)%nat ->
            cell (tly (g_state g)) i b =
            if decide (b = Byte.to_nat (nth i (g_data g) "000"%byte))
            then tally_cell (g_ticks g) (cell (tly s) i b) else cell (tly s) i b).
  { intros i b Hi.
    pose proof (cell_perform_tallies (g_data g) (g_ticks g) s i b Hshape Hi) as H.
    unfold perform_tallies in H. cbn [tly] in H. rewrite <- Htly in H. exact H. }
  assert (Hadd : forall i b, (i < 16)%nat -> (b < 256)%nat ->
            ticks (tally_cell (g_ticks g) (cell (tly s) i b)) =
            double_of_Z (double_trunc (ticks (cell (tly s) i b)) + g_ticks g) /\
            double_trunc (ticks (tally_cell (g_ticks g) (cell (tly s) i b))) =
            double_trunc (ticks (cell (tly s) i b)) + g_ticks g).
  { intros i b Hi Hb. destruct (Hcells i b Hi Hb) as [Hz Hint].
    destruct (Hsums i Hi) as [_ Hts].
    assert (Hle : double_trunc (ticks (cell (tly s) i b)) <= total_ticks s).
    { rewrite <- Hts. unfold ticks_sum.
      apply (Zsum_term_le (fun b => double_trunc (ticks (cell (tly s) i b)))); [|exact Hb].
      intros b' Hb'. apply (Hcells i b' Hi Hb'). }
    assert (Heq : ticks (tally_cell (g_ticks g) (cell (tly s) i b)) =
                  double_of_Z (double_trunc (ticks (cell (tly s) i b)) + g_ticks g)).
    { cbn [tally_cell ticks]. rewrite <- double_of_Z_add by lia. f_equal. exact Hint. }
    split; [exact Heq|]. rewrite Heq. apply double_trunc_of_Z. lia. }
  split; [split|split].
  - rewrite Htly. apply fold_tally_shape, Hshape.
  - intros i Hi. destruct (Hsums i Hi) as [Hc Hts].
    pose proof (Byte.to_nat_bounded (nth i (g_data g) "000"%byte)) as Hb.
    apply Nat.lt_succ_r in Hb.
    split.
    + rewrite Hr, <- Hc. unfold count_sum.
      apply (Zsum_bump _ _ _ (Byte.to_nat (nth i (g_data g) "000"%byte))); [exact Hb|].
      intros b _. rewrite (Hcell i b Hi). destruct (decide _); reflexivity.
    + rewrite Ht, <- Hts. unfold ticks_sum.
      apply (Zsum_bump _ _ _ (Byte.to_nat (nth i (g_data g) "000"%byte))); [exact Hb|].
      intros b Hb'. rewrite (Hcell i b Hi). destruct (decide _); [|reflexivity].
      apply (Hadd i b Hi Hb').
  - rewrite Hr, Ht. exact Hbound'.
  - intros i b Hi Hb. rewrite (Hcell i b Hi). destruct (decide _); [|apply Hcells; assumption].
    destruct (Hadd i b Hi Hb) as [Heq Htr]. destruct (Hcells i b Hi Hb) as [Hz _].
    split; [lia|]. unfold integral. rewrite Htr. exact Heq.
Qed.

Lemma generate_n_conserved (n fuel : nat) (w : World) (s s' : State) :
  conserved s -> whole s ->
  total_runs s + Z.of_nat n <= Z.shiftl 1 DEFAULT_RUNS -> (forall j, 0 <= run w j) ->
  generate_n n fuel w s = Some s' ->
  conserved s' /\ whole s' /\ total_runs s' = total_runs s + Z.of_nat n.
Proof.
  intros Hs Hw Hruns Hpos. revert s Hs Hw Hruns.
  induction n as [|n IH]; intros s Hs Hw Hruns; cbn [generate_n].
  - intros [= <-]. split; [exact Hs|]. split; [exact Hw | lia].
  - destruct (generate fuel w s) as [g|] eqn:Hg; [|discriminate]. intros Hn.
    destruct (generate_Some _ _ _ _ Hg) as (k & _ & _ & _ & Hr & _).
    destruct (generate_conserved _ _ _ _ Hs Hw ltac:(lia) Hpos Hg) as [Hs' Hw'].
    destruct (IH _ Hs' Hw' ltac:(lia) Hn) as (Hc & Hwh & Htot).
    split; [exact Hc|]. split; [exact Hwh | lia].
Qed.

(** A zeroed table agrees with zeroed counters. *)
Lemma zero_conserved T d r k :
  conserved {| tly := zero_table; total_runs := 0; total_ticks := 0;
               tally_threshold := T; d_arg := d; rand_calls := r; run_calls := k |}.
Proof.
  split; [apply zero_table_shape|]. intros i _. cbn [tly total_runs total_ticks].
  unfold count_sum, ticks_sum. split.
  - rewrite (Zsum_ext _ (fun _ => 0)); [apply Zsum_zero|].
    intros b _. rewrite cell_zero_table. reflexivity.
  - rewrite (Zsum_ext _ (fun _ => 0)); [apply Zsum_zero|].
    intros b _. rewrite cell_zero_table. reflexivity.
Qed.

Lemma zero_whole T d r k :
  whole {| tly := zero_table; total_runs := 0; total_ticks := 0;
           tally_threshold := T; d_arg := d; rand_calls := r; run_calls := k |}.
Proof.
  split; [cbn [total_runs total_ticks]; lia|]. intros i b _ _. cbn [tly].
  rewrite cell_zero_table. split; [discriminate | reflexivity].
Qed.

(** C8. After the measurement loop of a key study, which starts from a
    zeroed table and zeroed counters, at every position the counts of
    the 256 cells add up to [total_runs] and their ticks to
    [total_ticks]; every cell's double is the whole number of ticks
    tallied in it. The study makes at most the 2^22 measurements that
    [main] asks for, and a tick count is not negative. *)
Theorem tally_conservation (fuel : nat) (w : World) (test_key : list byte)
    (gen_key : bool) (runs : Z) (s : State) (k : studied) :
  runs <= Z.shiftl 1 DEFAULT_RUNS ->
  (forall j, 0 <= run w j) ->
  study_key fuel w test_key gen_key runs s = Some k ->
  forall i, (i < 16)%nat ->
    count_sum (tly (k_state k)) i = total_runs (k_state k) /\
    ticks_sum (tly (k_state k)) i = total_ticks (k_state k) /\
    forall b, (b < 256)%nat -> integral (ticks (cell (tly (k_state k)) i b)).
Proof.
  intros Hruns Hpos. unfold study_key.
  destruct (generate_n _ _ _ _) as [s1|] eqn:Hn; [|discriminate].
  intros [= <-]. cbn [k_state]. intros i Hi.
  apply generate_n_conserved in Hn as ([_ Hsums] & [_ Hcells] & _).
  - destruct (Hsums i Hi) as [Hc Ht]. split; [exact Hc|]. split; [exact Ht|].
    intros b Hb. apply (Hcells i b Hi Hb).
  - apply zero_conserved.
  - apply zero_whole.
  - cbn [total_runs]. change (Z.shiftl 1 DEFAULT_RUNS) with 4194304 in *. lia.
  - exact Hpos.
Qed.

(** The timer of [w1] measures 900 or 100 ticks. *)
Lemma w1_ticks (j : nat) : 0 <= run w1 j.
Proof.
  unfold run, w1. cbn [rdtsc_elapsed]. destruct (Nat.even j); discriminate.
Qed.

Lemma tally_conservation_witness :
  exists k, study_key 2 w1 [] true 3 s500 = Some k /\
    total_runs (k_state k) = 3 /\
    forall i, (i < 16)%nat ->
      count_sum (tly (k_state k)) i = total_runs (k_state k) /\
      ticks_sum (tly (k_state k)) i = total_ticks (k_state k) /\
      forall b, (b < 256)%nat -> integral (ticks (cell (tly (k_state k)) i b)).
Proof.
  eexists. split; [reflexivity|]. split; [reflexivity|].
  refine (tally_conservation 2 w1 [] true 3 s500 _ _ w1_ticks eq_refl).
  discriminate.
Defined.

(** Beyond 2^53 a double no longer counts every tick: a cell that holds
    2^53 ticks is not changed by one tick more. *)
Lemma tally_cell_beyond_2_53 :
  ticks (tally_cell 1 (Tally 1 (double_of_Z (2 ^ 53)))) = double_of_Z (2 ^ 53).
Proof. vm_compute. reflexivity. Qed.

(** With a timer that keeps producing accepted measurements, the loops
    of a key study come to an end. *)
Lemma generate_n_mono (n fuel fuel' : nat) (w : World) (s s' : State) :
  (fuel <= fuel')%nat -> generate_n n fuel w s = Some s' -> generate_n n fuel' w s = Some s'.
Proof.
  intros Hle. revert s. induction n as [|n IH]; intros s; cbn [generate_n]; [auto|].
  destruct (generate fuel w s) as [g|] eqn:Hg; [|discriminate].
  rewrite (generate_mono _ _ _ _ _ Hle Hg). apply IH.
Qed.

Lemma generate_n_completes (n : nat) (w : World) (s : State) :
  fair w (tally_threshold s) -> exists fuel s', generate_n n fuel w s = Some s'.
Proof.
  revert s. induction n as [|n IH]; intros s Hfair.
  - exists 0%nat, s. reflexivity.
  - destruct (generate_completes w s (Hfair (run_calls s)))
      as (fuel1 & g & Hg).
    destruct (IH (g_state g)) as (fuel2 & s' & Hn).
    { destruct (generate_Some _ _ _ _ Hg) as (k & _ & _ & _ & _ & _ & HT & _).
      rewrite HT. exact Hfair. }
    exists (Nat.max fuel1 fuel2), s'. cbn [generate_n].
    rewrite (generate_mono fuel1 _ _ _ _ (Nat.le_max_l _ _) Hg).
    exact (generate_n_mono _ _ _ _ _ _ (Nat.le_max_r _ _) Hn).
Qed.

(** ** Threshold calibration *)

(** The calibration loop counts every measurement: after [n] passes
    [total_runs] has grown by [n] and [total_ticks] by the ticks of the
    [n] calls of [run]. *)
Lemma cutoff_loop_spec (n : nat) (w : World) (s : State) :
  let s' := cutoff_loop n w s in
  tly s' = tly s /\
  total_runs s' = total_runs s + Z.of_nat n /\
  total_ticks s' = total_ticks s + Zsum (fun j => run w (run_calls s + j)) n /\
  tally_threshold s' = tally_threshold s /\
  d_arg s' = d_arg s /\
  rand_calls s' = (rand_calls s + 16 * n)%nat /\
  run_calls s' = (run_calls s + n)%nat.
Proof.
  cbv zeta. revert s. induction n as [|n IH]; intros s.
  - cbn [cutoff_loop Zsum]. repeat split; lia.
  - cbn [cutoff_loop].
    destruct (IH {| tly := tly s; total_runs := total_runs s + 1;
                    total_ticks := total_ticks s + run w (run_calls s);
                    tally_threshold := tally_threshold s; d_arg := d_arg s;
                    rand_calls := (rand_calls s + 16)%nat;
                    run_calls := S (run_calls s) |})
      as (H1 & H2 & H3 & H4 & H5 & H6 & H7).
    cbn [tly total_runs total_ticks tally_threshold d_arg rand_calls run_calls] in *.
    rewrite H1, H2, H3, H4, H5, H6, H7.
    repeat split; try lia.
    assert (Hshift : forall m, Zsum (fun j => run w (run_calls s + j)) (S m) =
              run w (run_calls s) + Zsum (fun j => run w (S (run_calls s) + j)) m).
    { clear. induction m as [|m IHm].
      - cbn [Zsum]. rewrite Nat.add_0_r. lia.
      - change (Zsum (fun j => run w (run_calls s + j)) (S (S m)))
          with (Zsum (fun j => run w (run_calls s + j)) (S m) + run w (run_calls s + S m)).
        rewrite IHm. cbn [Zsum].
        replace (S (run_calls s) + m)%nat with (run_calls s + S m)%nat by lia. lia. }
    rewrite Hshift. lia.
Qed.

(** The calibration proper, for any positive number of runs. *)
Lemma calc_encryption_stats_calibrates (w : World) (runs : Z) (s : State) :
  PrimFloat.ltb 0 (d_arg s) = false -> 0 < runs ->
  exists s',
    calc_encryption_stats w runs s = Some s' /\
    run_calls s' = (run_calls s + Z.to_nat runs)%nat /\
    total_runs s' = runs /\
    total_ticks s' = total_ticks s + Zsum (fun j => run w (run_calls s + j)) (Z.to_nat runs) /\
    tally_threshold s' =
      to_int32 (Z.quot (total_ticks s') (total_runs s') * THRESH_MULT).
Proof.
  intros Hd Hruns. unfold calc_encryption_stats. rewrite Hd.
  assert (Hn : Z.of_nat (Z.to_nat runs) = runs) by (apply Z2Nat.id; lia).
  revert Hn. generalize (Z.to_nat runs). intros n Hn.
  match goal with |- context [cutoff_loop n w ?s0] =>
    destruct (cutoff_loop_spec n w s0) as (H1 & H2 & H3 & H4 & H5 & H6 & H7);
    set (s1 := cutoff_loop n w s0) in *
  end.
  cbn [tly total_runs total_ticks tally_threshold d_arg rand_calls run_calls] in *.
  assert (Hne : (total_runs s1 =? 0) = false) by (apply Z.eqb_neq; lia).
  rewrite Hne. eexists. split; [reflexivity|].
  cbn [set_threshold tly total_runs total_ticks tally_threshold d_arg rand_calls run_calls].
  split; [exact H7|]. split; [lia|]. split; [exact H3 | reflexivity].
Qed.

(** C7, as amended. Without an argument, or with one that is not above
    zero, the calibration takes [2^22] measurements, none of them
    filtered, and sets the threshold to [total_ticks / total_runs]
    (integer division) times [THRESH_MULT = 5], converted to [int]. With
    an argument above zero the calibration is skipped and the threshold
    is the argument converted to [int], its fraction dropped. *)
Theorem calibration_threshold (w : World) (arg : option float) :
  let s := initial_state (cli_threshold arg) in
  let runs := Z.shiftl 1 DEFAULT_RUNS in
  (PrimFloat.ltb 0 (cli_threshold arg) = false ->
   exists s',
     calc_encryption_stats w runs s = Some s' /\
     runs = 2 ^ 22 /\
     run_calls s' = Z.to_nat runs /\
     total_runs s' = runs /\
     total_ticks s' = Zsum (fun j => run w j) (Z.to_nat runs) /\
     THRESH_MULT = 5 /\
     tally_threshold s' =
       to_int32 (Z.quot (total_ticks s') (total_runs s') * THRESH_MULT)) /\
  (PrimFloat.ltb 0 (cli_threshold arg) = true ->
   forall T, double_to_int (cli_threshold arg) = Some T ->
     calc_encryption_stats w runs s = Some (set_threshold T s)).
Proof.
  cbv zeta. split.
  - intros Hd.
    destruct (calc_encryption_stats_calibrates w (Z.shiftl 1 DEFAULT_RUNS)
                (initial_state (cli_threshold arg)) Hd eq_refl)
      as (s' & Hs' & Hk & Hr & Ht & HT).
    exists s'. split; [exact Hs'|]. split; [reflexivity|].
    split; [rewrite Hk; apply Nat.add_0_l|]. split; [exact Hr|].
    split; [rewrite Ht; apply Z.add_0_l|]. split; [reflexivity | exact HT].
  - intros Hd T HT. unfold calc_encryption_stats. cbn [d_arg initial_state].
    rewrite Hd, HT. reflexivity.
Qed.

(** C7 as first stated fails: the threshold is not always the value the
    command line supplies. With the argument 2.5 it is 2. *)
Lemma calibration_cli_counterexample :
  ~ (forall (w : World) (d : float) (s' : State),
       PrimFloat.ltb 0 d = true ->
       calc_encryption_stats w (Z.shiftl 1 DEFAULT_RUNS)
         (initial_state (cli_threshold (Some d))) = Some s' ->
       double_of_Z (tally_threshold s') = d).
Proof.
  intros H.
  specialize (H w0 2.5%float
                (set_threshold 2 (initial_state 2.5%float)) eq_refl eq_refl).
  apply (f_equal (fun x => PrimFloat.ltb x 2.5%float)) in H.
  vm_compute in H. discriminate H.
Qed.

Lemma calibration_threshold_witness :
  PrimFloat.ltb 0 (cli_threshold (Some 2.5%float)) = true /\
  double_to_int (cli_threshold (Some 2.5%float)) = Some 2 /\
  calc_encryption_stats w0 (Z.shiftl 1 DEFAULT_RUNS)
    (initial_state (cli_threshold (Some 2.5%float)))
  = Some (set_threshold 2 (initial_state (cli_threshold (Some 2.5%float)))).
Proof.
  split; [reflexivity|]. split; [reflexivity|].
  exact (proj2 (calibration_threshold w0 (Some 2.5%float)) eq_refl 2 eq_refl).
Defined.

(** ** Means and correlations *)

(** The entry [i], [b] of a matrix built entry by entry. *)
Lemma entry_map_seq (f : nat -> nat -> float) (i b : nat) :
  (i < 16)%nat -> (b < 256)%nat ->
  entry (map (fun i => map (f i) (seq 0 256)) (seq 0 16)) i b = f i b.
Proof.
  intros Hi Hb. unfold entry.
  rewrite (nth_map_seq (fun i => map (f i) (seq 0 256)) 16 i [] Hi).
  apply nth_map_seq, Hb.
Qed.

(** C2. With [total_runs] above zero and [G = total_ticks / total_runs],
    [calc_means] gives every cell that counted something the entry
    [(ticks / num) / G], and every cell that counted nothing the entry
    1.0. *)
Theorem calc_means_entries (s : State) (i b : nat) :
  0 < total_runs s -> (i < 16)%nat -> (b < 256)%nat ->
  let G := PrimFloat.div (double_of_Z (total_ticks s)) (double_of_Z (total_runs s)) in
  let t := cell (tly s) i b in
  (0 < num t ->
   entry (calc_means s) i b =
   PrimFloat.div (PrimFloat.div (ticks t) (double_of_Z (num t))) G) /\
  (num t = 0 -> entry (calc_means s) i b = 1%float).
Proof.
  intros _ Hi Hb. cbv zeta. unfold calc_means.
  rewrite (entry_map_seq
             (fun i b => normalized_mean (grand_mean s) (cell (tly s) i b)) i b Hi Hb).
  unfold normalized_mean, grand_mean. split; intros Hnum.
  - apply Z.ltb_lt in Hnum. rewrite Hnum. reflexivity.
  - rewrite Hnum. reflexivity.
Qed.

Lemma calc_means_entries_witness :
  0 < total_runs one_run /\ 0 < num (cell (tly one_run) 1 37) /\
  entry (calc_means one_run) 1 37 = 1%float.
Proof.
  split; [reflexivity|]. split; [reflexivity|].
  destruct (calc_means_entries one_run 1 37 eq_refl
              (proj1 (Nat.ltb_lt 1 16) eq_refl) (proj1 (Nat.ltb_lt 37 256) eq_refl))
    as [H _].
  rewrite H by reflexivity. vm_compute. reflexivity.
Defined.

(** C3. For the means of the target and of a test key [k2], a position
    [i] and a candidate byte [k1], the correlator stores at [i], [k1] the
    Pearson coefficient of the 256-element vectors
    [X[s] = M_target[i][s xor k1]] and [Y[s] = M_test[i][s xor k2[i]]]. *)
Theorem correlate_entries (M_target M_test : list (list float)) (k2 : list byte)
    (i k1 : nat) :
  (i < 16)%nat -> (k1 < 256)%nat ->
  exists X Y : list float,
    length X = 256%nat /\ length Y = 256%nat /\
    (forall s, (s < 256)%nat -> nth s X 0%float = entry M_target i (Nat.lxor s k1)) /\
    (forall s, (s < 256)%nat ->
       nth s Y 0%float =
       entry M_test i (Nat.lxor s (Byte.to_nat (nth i k2 "000"%byte)))) /\
    entry (correlate M_test M_target k2) i k1 =
    Pearson.pearson_correlation_coefficient X Y.
Proof.
  intros Hi Hk.
  exists (realign M_target i k1),
         (realign M_test i (Byte.to_nat (nth i k2 "000"%byte))).
  unfold realign. rewrite !length_map, !length_seq.
  split; [reflexivity|]. split; [reflexivity|].
  split; [intros s Hs;
          exact (nth_map_seq (fun s => entry M_target i (Nat.lxor s k1)) 256 s _ Hs)|].
  split; [intros s Hs;
          exact (nth_map_seq
                   (fun s => entry M_test i
                               (Nat.lxor s (Byte.to_nat (nth i k2 "000"%byte))))
                   256 s _ Hs)|].
  unfold correlate.
  exact (entry_map_seq
           (fun i k1 => Pearson.pearson_correlation_coefficient
                          (realign M_target i k1)
                          (realign M_test i (Byte.to_nat (nth i k2 "000"%byte))))
           i k1 Hi Hk).
Qed.

Lemma correlate_entries_witness :
  exists X Y : list float,
    length X = 256%nat /\ length Y = 256%nat /\
    (forall s, (s < 256)%nat ->
       nth s X 0%float = entry (calc_means one_run) 3 (Nat.lxor s 7)) /\
    (forall s, (s < 256)%nat ->
       nth s Y 0%float =
       entry zero_corr 3 (Nat.lxor s (Byte.to_nat (nth 3 (cleartext) "000"%byte)))) /\
    entry (correlate zero_corr (calc_means one_run) cleartext) 3 7 =
    Pearson.pearson_correlation_coefficient X Y.
Proof.
  exact (correlate_entries (calc_means one_run) zero_corr cleartext 3 7
           (proj1 (Nat.ltb_lt 3 16) eq_refl) (proj1 (Nat.ltb_lt 7 256) eq_refl)).
Defined.

(** ** The Pearson coefficient *)

Section PearsonFacts.

Import Pearson.
Local Open Scope float_scope.

(** The single loop of the C function computes the five sums. *)
Lemma loop_sums (X Y pre1 pre2 : list float) (a : acc) :
  length X = length Y -> length pre1 = length pre2 ->
  fold_left (step (pre1 ++ X) (pre2 ++ Y)) (seq (length pre1) (length X)) a =
  {| avg_x := fold_left PrimFloat.add X (avg_x a);
     avg_y := fold_left PrimFloat.add Y (avg_y a);
     sum_x_sq := fold_left PrimFloat.add (map (fun x => x * x) X) (sum_x_sq a);
     sum_y_sq := fold_left PrimFloat.add (map (fun y => y * y) Y) (sum_y_sq a);
     sum_x_y := fold_left PrimFloat.add (zip_with PrimFloat.mul X Y) (sum_x_y a) |}.
Proof.
  revert Y pre1 pre2 a.
  induction X as [|x X IH]; intros [|y Y] pre1 pre2 a HXY Hpre; try discriminate.
  - destruct a; reflexivity.
  - cbn [length seq fold_left map zip_with].
    assert (Hs : step (pre1 ++ x :: X) (pre2 ++ y :: Y) a (length pre1) =
                 {| avg_x := avg_x a + x; avg_y := avg_y a + y;
                    sum_x_sq := sum_x_sq a + x * x; sum_y_sq := sum_y_sq a + y * y;
                    sum_x_y := sum_x_y a + x * y |}).
    { unfold step. rewrite nth_middle. rewrite Hpre, nth_middle. reflexivity. }
    rewrite Hs.
    replace (pre1 ++ x :: X) with ((pre1 ++ [x]) ++ X) by (rewrite <- app_assoc; reflexivity).
    replace (pre2 ++ y :: Y) with ((pre2 ++ [y]) ++ Y) by (rewrite <- app_assoc; reflexivity).
    replace (S (length pre1)) with (length (pre1 ++ [x])) by (rewrite length_app; simpl; lia).
    rewrite IH.
    + reflexivity.
    + simpl in HXY. lia.
    + rewrite !length_app. simpl. lia.
Qed.

Lemma pearson_refines (X Y : list float) :
    length X = 256%nat -> length Y = 256%nat ->
    pearson_correlation_coefficient X Y = pearson_textbook X Y.
Proof.
  intros HX HY. unfold pearson_correlation_coefficient, pearson_textbook, fsum.
  pose proof (loop_sums X Y [] [] acc0) as H.
  rewrite HX in H. simpl app in H. change (length (@nil float)) with 0%nat in H.
  rewrite H by (simpl; congruence). reflexivity.
Qed.

Lemma pearson_ramp_ramp : pearson_correlation_coefficient ramp ramp = 1.
Proof. vm_compute. reflexivity. Qed.
Lemma pearson_ramp_reverse : pearson_correlation_coefficient ramp (reverse ramp) = -1.
Proof. vm_compute. reflexivity. Qed.

(** C6. [pearson_correlation_coefficient] computes the textbook formula
    with denominator 255 on every pair of 256-element vectors; on the
    vector 0, 1, ..., 255 paired with itself it returns 1.0, and paired
    with its reverse it returns -1.0. *)
Theorem pearson_textbook_formula :
  (forall X Y : list float,
     length X = 256%nat -> length Y = 256%nat ->
     pearson_correlation_coefficient X Y = pearson_textbook X Y) /\
  pearson_correlation_coefficient ramp ramp = 1 /\
  pearson_correlation_coefficient ramp (reverse ramp) = -1.
Proof.
  split; [exact pearson_refines|].
  split; [exact pearson_ramp_ramp | exact pearson_ramp_reverse].
Qed.

End PearsonFacts.

(** ** The order of the positions *)

Section InsertionSort.

Context {A : Type} (cmp : A -> A -> Z).

(** The sort rearranges, and nothing else. *)
Lemma qsort_insert_perm (x : A) (l : list A) : qsort_insert cmp x l ≡ₚ x :: l.
Proof.
  induction l as [|y l IH]; cbn [qsort_insert]; [reflexivity|].
  destruct (cmp x y <=? 0); [reflexivity|].
  rewrite IH. apply Permutation_swap.
Qed.

Lemma qsort_r_perm (l : list A) : qsort_r cmp l ≡ₚ l.
Proof.
  induction l as [|x l IH]; cbn [qsort_r foldr]; [reflexivity|].
  fold (qsort_r cmp l). rewrite qsort_insert_perm, IH. reflexivity.
Qed.

End InsertionSort.

Section SortedByKey.

Variable key : nat -> nat.
Variable cmp : nat -> nat -> Z.
Variable dom : nat -> Prop.
Hypothesis cmp_key : forall x y, dom x -> dom y -> (cmp x y <= 0 <-> (key y <= key x)%nat).

(** Inserting a position smaller than all those present keeps the list
    in order. *)
Lemma qsort_insert_sorted (x : nat) (l : list nat) :
  dom x -> Forall dom l -> Forall (fun y => (x < y)%nat) l ->
  StronglySorted (before key) l ->
  StronglySorted (before key) (qsort_insert cmp x l).
Proof.
  intros Hx. induction l as [|y l IH]; intros Hdom Hlt Hsorted; cbn [qsort_insert].
  - repeat constructor.
  - apply Forall_cons in Hdom as [Hy Hdom]. apply Forall_cons in Hlt as [Hxy Hlt].
    apply StronglySorted_inv in Hsorted as [Hsorted Hall].
    destruct (Z.leb_spec (cmp x y) 0) as [Hle|Hgt].
    + apply cmp_key in Hle; [|assumption..].
      constructor; [constructor; assumption|].
      constructor; [unfold before; lia|].
      rewrite Forall_forall in Hall, Hlt |- *. intros z Hz.
      specialize (Hall z Hz). specialize (Hlt z Hz). unfold before in *. lia.
    + assert (Hk : (key x < key y)%nat).
      { destruct (Nat.le_gt_cases (key y) (key x)) as [H|H]; [|exact H].
        apply cmp_key in H; [lia | assumption..]. }
      constructor; [apply IH; assumption|].
      rewrite (qsort_insert_perm cmp x l).
      constructor; [unfold before; lia | exact Hall].
Qed.

Lemma qsort_r_seq_sorted (k n : nat) :
  (forall x, (k <= x < k + n)%nat -> dom x) ->
  StronglySorted (before key) (qsort_r cmp (seq k n)).
Proof.
  revert k. induction n as [|n IH]; intros k Hdom; cbn [seq qsort_r foldr].
  - constructor.
  - fold (qsort_r cmp (seq (S k) n)).
    assert (Hin : forall y, y ∈ qsort_r cmp (seq (S k) n) -> (S k <= y < S k + n)%nat).
    { intros y Hy. rewrite qsort_r_perm in Hy. apply elem_of_seq in Hy. lia. }
    apply qsort_insert_sorted.
    + apply Hdom. lia.
    + apply Forall_forall. intros y Hy. apply Hdom. specialize (Hin y Hy). lia.
    + apply Forall_forall. intros y Hy. specialize (Hin y Hy). lia.
    + apply IH. intros x Hx. apply Hdom. lia.
Qed.

End SortedByKey.

(** In a sorted list an earlier entry is related to every later one. *)
Lemma StronglySorted_nth {A} (R : A -> A -> Prop) (l : list A) (d : A) (a b : nat) :
  StronglySorted R l -> (a < b < length l)%nat -> R (nth a l d) (nth b l d).
Proof.
  intros Hs. revert a b. induction Hs as [|x l Hs IH Hall]; intros a b Hab.
  - cbn in Hab. lia.
  - destruct b as [|b]; [lia|]. cbn [length] in Hab. destruct a as [|a]; cbn [nth].
    + rewrite Forall_forall in Hall. apply Hall, list_elem_of_In, nth_In. lia.
    + apply IH. lia.
Qed.

(** The doubles of two pool sizes compare as the sizes do: checked on
    every pair of sizes from 1 to 256. *)
(** A check that passed on a range holds at each number of the range. *)
Lemma forallb_seq (f : nat -> bool) (k n x : nat) :
  forallb f (seq k n) = true -> (k <= x < k + n)%nat -> f x = true.
Proof.
  revert k. induction n as [|n IH]; intros k H Hx; [lia|].
  cbn [seq forallb] in H. apply andb_prop in H as [Hk H].
  destruct (decide (x = k)) as [->|Hne]; [exact Hk|].
  apply (IH (S k)); [exact H | lia].
Qed.

Lemma size_ltb_agrees_all :
  forallb (fun a => forallb (size_ltb_agrees a) (seq 1 256)) (seq 1 256) = true.
Proof. vm_compute. reflexivity. Qed.

Lemma double_of_size_ltb (a b : nat) :
  (1 <= a < 1 + 256)%nat -> (1 <= b < 1 + 256)%nat ->
  PrimFloat.ltb (double_of_Z (Z.of_nat a)) (double_of_Z (Z.of_nat b)) = (a <? b)%nat.
Proof.
  intros Ha Hb.
  exact (eqb_prop _ _
           (forallb_seq (size_ltb_agrees a) 1 256 b
              (forallb_seq (fun a => forallb (size_ltb_agrees a) (seq 1 256)) 1 256 a
                 size_ltb_agrees_all Ha) Hb)).
Qed.

(** What the reading loop yields: [n] pools, each of 1 to 256 bytes, with
    [bytes[i]] as long as [lens[i]] says. *)
Lemma read_pools_spec (n : nat) (f : list byte) (p : pools) :
  read_pools n f = Some p ->
  length (lens p) = n /\ length (bytes p) = n /\
  forall i, (i < n)%nat ->
    (1 <= pool_size p i < 1 + 256)%nat /\
    length (nth i (bytes p) []) = pool_size p i.
Proof.
  unfold pool_size.
  revert f p. induction n as [|n IH]; intros f p; cbn [read_pools].
  - intros [= <-]. cbn. repeat split; lia.
  - destruct f as [|l rest]; [discriminate|].
    set (len := if (Byte.to_nat l =? 0)%nat then 256%nat else Byte.to_nat l).
    assert (Hlen : (1 <= len < 1 + 256)%nat).
    { subst len. pose proof (Byte.to_nat_bounded l).
      destruct (Nat.eqb_spec (Byte.to_nat l) 0); lia. }
    destruct (Nat.ltb_spec (length rest) len) as [|Hrest]; [discriminate|].
    destruct (read_pools n (drop len rest)) as [q|] eqn:Hq; [|discriminate].
    intros [= <-]. cbn [lens bytes length].
    destruct (IH _ _ Hq) as (Hl & Hb & Hi).
    split; [lia|]. split; [lia|].
    intros [|i] Hlt; cbn [nth].
    + split; [exact Hlen|]. rewrite length_take. lia.
    + apply Hi. lia.
Qed.

Lemma nth_d_lens (p : pools) (i : nat) :
  nth i (d_lens p) 0%float = double_of_Z (Z.of_nat (pool_size p i)).
Proof.
  unfold d_lens, pool_size.
  exact (map_nth (fun n => double_of_Z (Z.of_nat n)) (lens p) O i).
Qed.

(** On pool sizes, [cmp_zip] is the reverse of the numeric order. *)
Lemma cmp_zip_d_lens (p : pools) (x y : nat) :
  (1 <= pool_size p x < 1 + 256)%nat -> (1 <= pool_size p y < 1 + 256)%nat ->
  cmp_zip (d_lens p) x y <= 0 <-> (pool_size p y <= pool_size p x)%nat.
Proof.
  intros Hx Hy. unfold cmp_zip. rewrite !nth_d_lens.
  rewrite (double_of_size_ltb _ _ Hx Hy), (double_of_size_ltb _ _ Hy Hx).
  destruct (Nat.ltb_spec (pool_size p x) (pool_size p y));
    destruct (Nat.ltb_spec (pool_size p y) (pool_size p x)); lia.
Qed.

Lemma sort_order_perm (p : pools) : sort_order p ≡ₚ seq 0 16.
Proof. apply qsort_r_perm. Qed.

Lemma sort_order_sorted (f : list byte) (p : pools) :
  read_pools 16 f = Some p ->
  StronglySorted (before (pool_size p)) (sort_order p).
Proof.
  intros Hp. destruct (read_pools_spec _ _ _ Hp) as (_ & _ & Hsz).
  apply (qsort_r_seq_sorted (pool_size p) (cmp_zip (d_lens p)) (fun x => (x < 16)%nat)).
  - intros x y Hx Hy. apply cmp_zip_d_lens; apply Hsz; assumption.
  - intros x Hx. lia.
Qed.

(** C5, as amended. The positions are sorted by descending pool size:
    [order] is a rearrangement of 0..15 in which a later entry never has
    the larger pool, so that the largest pool is at [order[0]], the
    counter that moves most often, and the smallest pools are at the high
    end. Positions with pools of equal size keep their original relative
    order. *)
Theorem sort_order_descending_stable (f : list byte) (p : pools) :
  read_pools 16 f = Some p ->
  sort_order p ≡ₚ seq 0 16 /\
  forall a b, (a < b < 16)%nat ->
    let x := nth a (sort_order p) O in
    let y := nth b (sort_order p) O in
    (pool_size p y <= pool_size p x)%nat /\
    (pool_size p x = pool_size p y -> (x < y)%nat).
Proof.
  intros Hp. split; [apply sort_order_perm|].
  intros a b Hab. cbv zeta.
  pose proof (sort_order_sorted f p Hp) as Hs.
  assert (Hlen : length (sort_order p) = 16%nat).
  { rewrite (Permutation_length (sort_order_perm p)). apply length_seq. }
  pose proof (StronglySorted_nth _ _ O a b Hs ltac:(rewrite Hlen; exact Hab)) as H.
  unfold before in H. lia.
Qed.

(** C5 as first stated fails: the pool sizes along [order] are not
    ascending. For the pools {0}, {0, 1}, {0}, ... the first entry of
    [order] is position 1, whose pool is the largest. *)
Lemma sort_order_ascending_counterexample :
  ~ (forall (f : list byte) (p : pools),
       read_pools 16 f = Some p ->
       forall a b, (a < b < 16)%nat ->
         (pool_size p (nth a (sort_order p) O) <= pool_size p (nth b (sort_order p) O))%nat).
Proof.
  intros H.
  destruct (read_pools 16 uneven_pools_file) as [p|] eqn:Hp; [|vm_compute in Hp; discriminate].
  specialize (H _ p Hp 0%nat 1%nat ltac:(lia)).
  vm_compute in Hp. injection Hp as <-. vm_compute in H. lia.
Qed.

Lemma sort_order_descending_stable_witness :
  read_pools 16 uneven_pools_file = Some uneven_pools /\
  nth 0 (sort_order uneven_pools) O = 1%nat /\
  sort_order uneven_pools ≡ₚ seq 0 16 /\
  forall a b, (a < b < 16)%nat ->
    let x := nth a (sort_order uneven_pools) O in
    let y := nth b (sort_order uneven_pools) O in
    (pool_size uneven_pools y <= pool_size uneven_pools x)%nat /\
    (pool_size uneven_pools x = pool_size uneven_pools y -> (x < y)%nat).
Proof.
  split; [reflexivity|]. split; [reflexivity|].
  exact (sort_order_descending_stable uneven_pools_file uneven_pools eq_refl).
Defined.

(** ** The brute-force search *)

Local Open Scope nat_scope.

Lemma nth_insert (idx : list nat) (pos q v : nat) :
  pos < length idx ->
  nth q (<[pos := v]> idx) 0 = if decide (q = pos) then v else nth q idx 0.
Proof.
  intros Hpos. rewrite !nth_lookup, list_lookup_insert.
  destruct (decide (q = pos)) as [->|Hne].
  - rewrite decide_True by auto. reflexivity.
  - rewrite decide_False by (intros [-> _]; congruence). reflexivity.
Qed.

(** The rank depends on the counters along [ord] only. *)
Lemma rank_agree (p : pools) (ord : list nat) (idx idx' : list nat) :
  (forall pos, pos ∈ ord -> nth pos idx 0 = nth pos idx' 0) ->
  rank p ord idx = rank p ord idx'.
Proof.
  induction ord as [|pos ord IH]; intros H; cbn [rank]; [reflexivity|].
  rewrite (H pos) by left. rewrite IH; [reflexivity|].
  intros q Hq. apply H. right. exact Hq.
Qed.

Lemma rank_lt_space (p : pools) (ord : list nat) (idx : list nat) :
  in_range p ord idx -> rank p ord idx < space p ord.
Proof.
  induction ord as [|pos ord IH]; intros H; cbn [rank space]; [lia|].
  assert (Hpos : nth pos idx 0 < pool_size p pos) by (apply H; left).
  assert (Hrest : rank p ord idx < space p ord).
  { apply IH. intros q Hq. apply H. right. exact Hq. }
  nia.
Qed.

(** Counters in range are determined by their rank. *)
Lemma rank_inj (p : pools) (ord : list nat) (idx idx' : list nat) :
  in_range p ord idx -> in_range p ord idx' ->
  rank p ord idx = rank p ord idx' ->
  forall pos, pos ∈ ord -> nth pos idx 0 = nth pos idx' 0.
Proof.
  induction ord as [|q ord IH]; intros H H' Heq pos Hpos; [inversion Hpos|].
  cbn [rank] in Heq.
  assert (Hq : nth q idx 0 < pool_size p q) by (apply H; left).
  assert (Hq' : nth q idx' 0 < pool_size p q) by (apply H'; left).
  assert (Hdigit : nth q idx 0 = nth q idx' 0 /\ rank p ord idx = rank p ord idx').
  { destruct (Nat.div_mod_unique (pool_size p q) (rank p ord idx) (rank p ord idx')
                (nth q idx 0) (nth q idx' 0) Hq Hq' ltac:(lia)) as [-> ->].
    split; reflexivity. }
  destruct Hdigit as [Hd Hr].
  apply elem_of_cons in Hpos as [->|Hpos]; [exact Hd|].
  apply IH; try assumption.
  - intros z Hz. apply H. right. exact Hz.
  - intros z Hz. apply H'. right. exact Hz.
Qed.

(** The carry loop adds one to the rank, or reports that the space is exhausted. *)
Lemma carry_spec (p : pools) (ord : list nat) (idx : list nat) :
  NoDup ord -> (forall pos, pos ∈ ord -> pos < length idx) ->
  in_range p ord idx ->
  match carry p ord idx with
  | Some idx' =>
      length idx' = length idx /\ in_range p ord idx' /\
      rank p ord idx' = S (rank p ord idx) /\
      (forall q, q ∉ ord -> nth q idx' 0 = nth q idx 0)
  | None => S (rank p ord idx) = space p ord
  end.
Proof.
  revert idx. induction ord as [|pos ord IH]; intros idx Hnd Hlen Hin; cbn [carry rank space].
  - reflexivity.
  - apply NoDup_cons in Hnd as [Hpos Hnd].
    assert (Hposlen : pos < length idx) by (apply Hlen; left).
    assert (Hd : nth pos idx 0 < pool_size p pos) by (apply Hin; left).
    fold (pool_size p pos).
    destruct (Nat.leb_spec (pool_size p pos) (S (nth pos idx 0))) as [Hwrap|Hfit].
    + specialize (IH (<[pos := 0]> idx) Hnd).
      assert (Hrank0 : rank p ord (<[pos := 0]> idx) = rank p ord idx).
      { apply rank_agree. intros q Hq. rewrite nth_insert by exact Hposlen.
        rewrite decide_False by (intros ->; contradiction). reflexivity. }
      destruct (carry p ord (<[pos := 0]> idx)) as [idx'|].
      * destruct IH as (Hl & Hr & Hrk & Hframe).
        -- intros q Hq. rewrite length_insert. apply Hlen. right. exact Hq.
        -- intros q Hq. rewrite nth_insert by exact Hposlen.
           rewrite decide_False by (intros ->; contradiction). apply Hin. right. exact Hq.
        -- assert (Hpos' : nth pos idx' 0 = 0).
           { rewrite (Hframe pos Hpos), nth_insert by exact Hposlen.
             rewrite decide_True by reflexivity. reflexivity. }
           split; [rewrite Hl; apply length_insert|]. split; [|split].
           ++ intros q Hq. apply elem_of_cons in Hq as [->|Hq]; [lia | apply Hr, Hq].
           ++ rewrite Hpos', Hrk, Hrank0. nia.
           ++ intros q Hq. rewrite Hframe by (intros Hq'; apply Hq; right; exact Hq').
              rewrite nth_insert by exact Hposlen.
              rewrite decide_False; [reflexivity|]. intros ->. apply Hq. left.
      * rewrite <- IH, Hrank0; [nia | |].
        -- intros q Hq. rewrite length_insert. apply Hlen. right. exact Hq.
        -- intros q Hq. rewrite nth_insert by exact Hposlen.
           rewrite decide_False by (intros ->; contradiction). apply Hin. right. exact Hq.
    + assert (Hrank : rank p ord (<[pos := S (nth pos idx 0)]> idx) = rank p ord idx).
      { apply rank_agree. intros q Hq. rewrite nth_insert by exact Hposlen.
        rewrite decide_False by (intros ->; contradiction). reflexivity. }
      split; [apply length_insert|]. split; [|split].
      * intros q Hq. rewrite nth_insert by exact Hposlen.
        destruct (decide (q = pos)) as [->|Hne]; [lia|].
        apply Hin. apply elem_of_cons in Hq as [->|Hq]; [contradiction|]. right. exact Hq.
      * cbn [rank]. rewrite Hrank, nth_insert by exact Hposlen.
        rewrite decide_True by reflexivity. lia.
      * intros q Hq. rewrite nth_insert by exact Hposlen.
        rewrite decide_False; [reflexivity|]. intros ->. apply Hq. left.
Qed.

(** The size of the space does not depend on the order. *)
Lemma space_perm (p : pools) (ord ord' : list nat) :
  ord ≡ₚ ord' -> space p ord = space p ord'.
Proof.
  induction 1; cbn [space]; lia.
Qed.

Lemma assemble_agree (p : pools) (idx idx' : list nat) :
  (forall i, i < 16 -> nth i idx 0 = nth i idx' 0) -> assemble p idx = assemble p idx'.
Proof.
  intros H. unfold assemble. apply map_ext_in. intros i Hi.
  apply in_seq in Hi. rewrite (H i) by lia. reflexivity.
Qed.

Lemma assemble_length (p : pools) (idx : list nat) : length (assemble p idx) = 16.
Proof. unfold assemble. rewrite length_map. apply length_seq. Qed.

Lemma nth_assemble (p : pools) (idx : list nat) (i : nat) :
  i < 16 ->
  nth i (assemble p idx) "000"%byte = nth (nth i idx 0) (nth i (bytes p) []) "000"%byte.
Proof.
  intros Hi. unfold assemble.
  exact (nth_map_seq (fun i => nth (nth i idx 0) (nth i (bytes p) []) "000"%byte) 16 i _ Hi).
Qed.

Section Search.

Variable aes : list byte -> list byte -> list byte.
Variable p : pools.
Variable order : list nat.
Variable target_enctext : list byte.

Hypothesis order_perm : order ≡ₚ seq 0 16.

Lemma order_NoDup : NoDup order.
Proof. rewrite order_perm. apply NoDup_seq. Qed.

Lemma order_elem (i : nat) : i ∈ order <-> i < 16.
Proof. rewrite order_perm, elem_of_seq. lia. Qed.

Lemma valid_agree (v v' : list nat) :
  valid p order v -> valid p order v' -> rank p order v = rank p order v' ->
  assemble p v = assemble p v'.
Proof.
  intros [_ Hv] [_ Hv'] Hr. apply assemble_agree. intros i Hi.
  apply (rank_inj p order v v' Hv Hv' Hr). apply order_elem, Hi.
Qed.

Lemma brute_force_attempt_cases (key : list byte) :
  brute_force_attempt aes key cleartext target_enctext = 0%Z \/
  brute_force_attempt aes key cleartext target_enctext = 1%Z.
Proof. unfold brute_force_attempt. destruct (forallb _ _); auto. Qed.

(** The search visits the index vectors in the order of their ranks, from
    the one it starts at to the first hit aes target_enctext or to the end of the space. *)
Lemma search_spec (fuel : nat) (idx : list nat) :
  valid p order idx -> space p order - rank p order idx <= fuel ->
  exists o,
    search aes fuel p order target_enctext idx = Some o /\
    length (tried o) <= space p order - rank p order idx /\
    (forall key, key ∈ tried o ->
       exists v, valid p order v /\ rank p order idx <= rank p order v /\ key = assemble p v) /\
    ((rc o = 0%Z /\ exists K, last (tried o) = Some K /\ hit aes target_enctext K) \/
     (rc o = 1%Z /\
      length (tried o) = space p order - rank p order idx /\
      (forall v, valid p order v -> rank p order idx <= rank p order v ->
         assemble p v ∈ tried o) /\
      Forall (fun key => ~ hit aes target_enctext key) (tried o))).
Proof.
  revert idx. induction fuel as [|fuel IH]; intros idx Hvalid Hfuel.
  - pose proof (rank_lt_space p order idx (proj2 Hvalid)). lia.
  - pose proof (rank_lt_space p order idx (proj2 Hvalid)) as Hlt.
    cbn [search].
    destruct (Z.eqb_spec (brute_force_attempt aes (assemble p idx) cleartext target_enctext) 0)
      as [Hhit|Hmiss].
    + eexists. split; [reflexivity|]. cbn [tried rc length]. split; [lia|]. split.
      * intros key Hkey. apply list_elem_of_singleton in Hkey as ->.
        exists idx. auto.
      * left. split; [reflexivity|]. exists (assemble p idx). split; [reflexivity | exact Hhit].
    + pose proof (carry_spec p order idx order_NoDup) as Hcarry.
      destruct Hvalid as [Hlen Hrange].
      specialize (Hcarry ltac:(intros pos Hpos; apply order_elem in Hpos; lia) Hrange).
      destruct (carry p order idx) as [idx'|].
      * destruct Hcarry as (Hlen' & Hrange' & Hrank & _).
        destruct (IH idx') as (o & Ho & Hn & Hkeys & Hend).
        { split; [lia | exact Hrange']. }
        { lia. }
        rewrite Ho. eexists. split; [reflexivity|]. cbn [tried rc length].
        split; [lia|]. split.
        -- intros key Hkey. apply elem_of_cons in Hkey as [->|Hkey].
           ++ exists idx. split; [split; assumption | auto].
           ++ destruct (Hkeys key Hkey) as (v & Hv & Hrv & ->).
              exists v. split; [exact Hv|]. split; [lia | reflexivity].
        -- destruct Hend as [(Hrc & K & Hlast & HK)|(Hrc & Hcount & Hcover & Hnone)].
           ++ left. split; [exact Hrc|]. exists K. split; [|exact HK].
              destruct (tried o) as [|k ks]; [discriminate | exact Hlast].
           ++ right. split; [exact Hrc|]. split; [lia|]. split.
              ** intros v Hv Hrv.
                 destruct (decide (rank p order v = rank p order idx)) as [Heq|Hne].
                 --- rewrite (valid_agree v idx Hv (conj Hlen Hrange) Heq). left.
                 --- right. apply Hcover; [exact Hv | lia].
              ** constructor; [exact Hmiss | exact Hnone].
      * eexists. split; [reflexivity|]. cbn [tried rc length]. split; [lia|]. split.
        -- intros key Hkey. apply list_elem_of_singleton in Hkey as ->.
           exists idx. split; [split; assumption | auto].
        -- right. split; [reflexivity|]. split; [lia|]. split.
           ++ intros v Hv Hrv.
              pose proof (rank_lt_space p order v (proj2 Hv)).
              rewrite (valid_agree v idx Hv (conj Hlen Hrange)) by lia. left.
           ++ constructor; [exact Hmiss | constructor].
Qed.

End Search.

Lemma space_seq (p : pools) (n : nat) :
  length (lens p) = n -> space p (seq 0 n) = pool_product p.
Proof.
  unfold pool_product, pool_size.
  assert (H : forall m k, space p (seq k m) =
            foldr Nat.mul 1 (map (fun i => nth i (lens p) 0) (seq k m))).
  { induction m as [|m IH]; intros k; cbn [seq space map foldr]; [reflexivity|].
    rewrite IH. reflexivity. }
  intros <-. rewrite (H (length (lens p)) 0). f_equal.
  apply (nth_ext _ _ 0 0).
  - rewrite length_map, length_seq. reflexivity.
  - intros i Hi. rewrite length_map, length_seq in Hi.
    exact (nth_map_seq (fun i => nth i (lens p) 0) (length (lens p)) i 0 Hi).
Qed.

Lemma rank_zero (p : pools) (ord : list nat) : rank p ord (replicate 16 0) = 0.
Proof.
  induction ord as [|pos ord IH]; cbn [rank]; [reflexivity|].
  rewrite IH, nth_replicate. destruct (decide (pos < 16)); lia.
Qed.

Section Complete.

Variable aes : list byte -> list byte -> list byte.
Variable target_key : list byte.
Variable f : list byte.
Variable p : pools.
Hypothesis well_formed : read_pools 16 f = Some p.

Lemma pool_sizes (i : nat) :
  i < 16 -> 1 <= pool_size p i /\ length (nth i (bytes p) []) = pool_size p i.
Proof.
  intros Hi. destruct (read_pools_spec _ _ _ well_formed) as (_ & _ & H).
  destruct (H i Hi) as [H1 H2]. split; [lia | exact H2].
Qed.

Lemma space_sort_order : space p (sort_order p) = pool_product p.
Proof.
  rewrite (space_perm p _ _ (sort_order_perm p)).
  apply space_seq. destruct (read_pools_spec _ _ _ well_formed) as (H & _). exact H.
Qed.

Lemma valid_zero : valid p (sort_order p) (replicate 16 0).
Proof.
  split; [apply length_replicate|].
  intros pos Hpos. apply (order_elem (sort_order p) (sort_order_perm p)) in Hpos.
  rewrite nth_replicate. destruct (pool_sizes pos Hpos).
  destruct (decide (pos < 16)); lia.
Qed.

(** Every key of the product space is assembled from some valid index vector. *)
Lemma in_product_assemble (key : list byte) :
  in_product p key -> exists v, valid p (sort_order p) v /\ assemble p v = key.
Proof.
  intros [Hlen Hin].
  assert (Hv : forall n, n <= 16 -> exists v, length v = n /\
            forall i, i < n ->
              nth i v 0 < pool_size p i /\
              nth (nth i v 0) (nth i (bytes p) []) "000"%byte = nth i key "000"%byte).
  { induction n as [|n IH]; intros Hn.
    - exists []. split; [reflexivity|]. intros i Hi. lia.
    - destruct (IH ltac:(lia)) as (v & Hvlen & Hvi).
      destruct (proj1 (list_elem_of_lookup _ _) (Hin n ltac:(lia))) as [j Hj].
      exists (v ++ [j]). split; [rewrite length_app; cbn; lia|].
      intros i Hi. destruct (decide (i = n)) as [->|Hne].
      + rewrite <- Hvlen, nth_middle.
        split.
        * rewrite <- (proj2 (pool_sizes (length v) ltac:(lia))).
          apply lookup_lt_is_Some. rewrite Hvlen. eauto.
        * apply nth_lookup_Some. rewrite Hvlen. exact Hj.
      + rewrite app_nth1 by lia. apply Hvi. lia. }
  destruct (Hv 16 ltac:(lia)) as (v & Hvlen & Hvi).
  exists v. split; [split; [exact Hvlen|]|].
  - intros pos Hpos. apply (order_elem (sort_order p) (sort_order_perm p)) in Hpos.
    apply Hvi, Hpos.
  - apply (nth_ext _ _ "000"%byte "000"%byte).
    + rewrite assemble_length, Hlen. reflexivity.
    + intros i Hi. rewrite assemble_length in Hi.
      rewrite nth_assemble by exact Hi. apply Hvi, Hi.
Qed.

Lemma assemble_in_product (v : list nat) :
  valid p (sort_order p) v -> in_product p (assemble p v).
Proof.
  intros [_ Hv]. split; [apply assemble_length|].
  intros i Hi. rewrite nth_assemble by exact Hi.
  apply nth_elem_of. rewrite (proj2 (pool_sizes i Hi)).
  apply Hv, (order_elem (sort_order p) (sort_order_perm p)), Hi.
Qed.

Hypothesis distinct : Forall (fun pool => NoDup pool) (bytes p).

(** With distinct bytes in every pool, different counters give different
    keys. *)
Lemma assemble_inj (v v' : list nat) :
  valid p (sort_order p) v -> valid p (sort_order p) v' ->
  assemble p v = assemble p v' -> rank p (sort_order p) v = rank p (sort_order p) v'.
Proof.
  intros [_ Hv] [_ Hv'] Heq. apply rank_agree. intros pos Hpos.
  pose proof (proj1 (order_elem (sort_order p) (sort_order_perm p) pos) Hpos) as Hlt.
  pose proof (f_equal (fun k => nth pos k "000"%byte) Heq) as Hnth. cbv beta in Hnth.
  rewrite !nth_assemble in Hnth by exact Hlt.
  destruct (pool_sizes pos Hlt) as [_ Hsize].
  assert (Hnd : NoDup (nth pos (bytes p) [])).
  { destruct (read_pools_spec _ _ _ well_formed) as (_ & Hb & _).
    rewrite Forall_forall in distinct. apply distinct, nth_elem_of. lia. }
  specialize (Hv pos Hpos). specialize (Hv' pos Hpos). rewrite <- Hsize in Hv, Hv'.
  destruct (lookup_lt_is_Some_2 _ _ Hv) as [x Hx].
  destruct (lookup_lt_is_Some_2 _ _ Hv') as [x' Hx'].
  rewrite (nth_lookup_Some _ _ _ _ Hx), (nth_lookup_Some _ _ _ _ Hx') in Hnth. subst x'.
  exact (NoDup_lookup _ _ _ _ Hnd Hx Hx').
Qed.

(** Every key tried comes from counters in range, of a rank not below
    where the search started. *)
Lemma search_tried_keys (tgt : list byte) (fuel : nat) (idx : list nat) (o : outcome) :
  valid p (sort_order p) idx ->
  search aes fuel p (sort_order p) tgt idx = Some o ->
  forall key, key ∈ tried o ->
    exists v, valid p (sort_order p) v /\
              rank p (sort_order p) idx <= rank p (sort_order p) v /\
              key = assemble p v.
Proof.
  revert idx o. induction fuel as [|fuel IH]; intros idx o Hvalid; cbn [search];
    [discriminate|].
  destruct (Z.eqb_spec (brute_force_attempt aes (assemble p idx) cleartext tgt) 0).
  - intros [= <-] key Hkey. cbn [tried] in Hkey.
    apply list_elem_of_singleton in Hkey as ->. exists idx. auto.
  - pose proof (carry_spec p (sort_order p) idx
                  (order_NoDup _ (sort_order_perm p))) as Hcarry.
    destruct Hvalid as [Hlen Hrange].
    specialize (Hcarry ltac:(intros pos Hpos;
                  apply (order_elem _ (sort_order_perm p)) in Hpos; lia) Hrange).
    destruct (carry p (sort_order p) idx) as [idx'|].
    + destruct Hcarry as (Hlen' & Hrange' & Hrank & _).
      destruct (search aes fuel p (sort_order p) tgt idx') as [o'|] eqn:Ho';
        [|discriminate].
      intros [= <-] key Hkey. cbn [tried] in Hkey.
      apply elem_of_cons in Hkey as [->|Hkey].
      * exists idx. split; [split; assumption | auto].
      * destruct (IH idx' o' ltac:(split; [lia | exact Hrange']) Ho' key Hkey)
          as (v & Hv & Hrv & ->).
        exists v. split; [exact Hv|]. split; [lia | reflexivity].
    + intros [= <-] key Hkey. cbn [tried] in Hkey.
      apply list_elem_of_singleton in Hkey as ->.
      exists idx. split; [split; assumption | auto].
Qed.

(** With distinct bytes in every pool, no key is tried twice. *)
Lemma search_tried_NoDup (tgt : list byte) (fuel : nat) (idx : list nat) (o : outcome) :
  valid p (sort_order p) idx ->
  search aes fuel p (sort_order p) tgt idx = Some o -> NoDup (tried o).
Proof.
  revert idx o. induction fuel as [|fuel IH]; intros idx o Hvalid; cbn [search];
    [discriminate|].
  destruct (Z.eqb_spec (brute_force_attempt aes (assemble p idx) cleartext tgt) 0).
  - intros [= <-]. cbn [tried]. apply NoDup_singleton.
  - pose proof (carry_spec p (sort_order p) idx
                  (order_NoDup _ (sort_order_perm p))) as Hcarry.
    destruct Hvalid as [Hlen Hrange].
    specialize (Hcarry ltac:(intros pos Hpos;
                  apply (order_elem _ (sort_order_perm p)) in Hpos; lia) Hrange).
    destruct (carry p (sort_order p) idx) as [idx'|].
    + destruct Hcarry as (Hlen' & Hrange' & Hrank & _).
      assert (Hvalid' : valid p (sort_order p) idx') by (split; [lia | exact Hrange']).
      destruct (search aes fuel p (sort_order p) tgt idx') as [o'|] eqn:Ho'; [|discriminate].
      intros [= <-]. cbn [tried]. apply NoDup_cons. split; [|exact (IH _ _ Hvalid' Ho')].
      intros Hin.
      destruct (search_tried_keys _ _ _ _ Hvalid' Ho' _ Hin) as (v & Hv & Hrv & Heq).
      pose proof (assemble_inj idx v (conj Hlen Hrange) Hv Heq). lia.
    + intros [= <-]. cbn [tried]. apply NoDup_singleton.
Qed.

End Complete.

(** [brute_force_attempt] compares the two blocks byte by byte. *)
Lemma brute_force_attempt_0 (aes : list byte -> list byte -> list byte)
    (key data tgt : list byte) :
  length (aes key data) = 16 -> length tgt = 16 ->
  brute_force_attempt aes key data tgt = 0%Z <-> aes key data = tgt.
Proof.
  intros Hlen Htgt. unfold brute_force_attempt.
  destruct (forallb _ _) eqn:Hall.
  - split; [intros _ | reflexivity].
    symmetry. apply (nth_ext _ _ "000"%byte "000"%byte); [congruence|].
    intros i Hi. rewrite Htgt in Hi.
    apply byte_dec_bl. exact (forallb_seq _ 0 16 i Hall ltac:(lia)).
  - split; [discriminate|]. intros Heq. exfalso.
    assert (Htrue : forallb (fun i => Byte.eqb (nth i tgt "000"%byte)
                                        (nth i (aes key data) "000"%byte))
                      (seq 0 16) = true).
    { apply forallb_forall. intros i _. rewrite Heq. apply byte_dec_lb. reflexivity. }
    congruence.
Qed.

Section BruteForceComplete.

Variable aes : list byte -> list byte -> list byte.
Variable target_key : list byte.

Hypothesis target_key_length : length target_key = 16.
Hypothesis aes_block : forall key data, length (aes key data) = 16.
(** Where the cipher tells the target key from the other candidates, a
    candidate is accepted exactly when it is the target key. *)
Lemma hit_target (p : pools) (key : list byte) :
  (forall K, in_product p K ->
     (aes K cleartext = aes target_key cleartext <-> K = target_key)) ->
  in_product p key ->
  hit aes (aes target_key cleartext) key <-> key = target_key.
Proof.
  intros Hidentifies Hkey. unfold hit.
  rewrite brute_force_attempt_0 by apply aes_block.
  apply Hidentifies, Hkey.
Qed.

(** C4. For a well-formed pool file with distinct bytes in every pool, a
    cipher under which a candidate key, one of the product space of the
    pools, produces the reference ciphertext exactly when it is the
    target key, and as many attempts allowed as the product of the pool
    lengths: when every pool holds the target key's byte, [brute_force]
    returns 0, having tried at most that many keys, the last of them the
    target key; when some pool lacks it, [brute_force] returns 1, having
    tried every key of the product space exactly once. *)
Theorem brute_force_complete (f : list byte) (p : pools) (fuel : nat) :
  read_pools 16 f = Some p ->
  Forall (fun pool => NoDup pool) (bytes p) ->
  (forall key, in_product p key ->
     (aes key cleartext = aes target_key cleartext <-> key = target_key)) ->
  pool_product p <= fuel ->
  ((forall i, i < 16 -> nth i target_key "000"%byte ∈ nth i (bytes p) []) ->
   exists o,
     brute_force aes target_key fuel (Some f) = Some o /\
     rc o = 0%Z /\
     length (tried o) <= pool_product p /\
     last (tried o) = Some target_key) /\
  ((exists i, i < 16 /\ nth i target_key "000"%byte ∉ nth i (bytes p) []) ->
   exists o,
     brute_force aes target_key fuel (Some f) = Some o /\
     rc o = 1%Z /\
     length (tried o) = pool_product p /\
     NoDup (tried o) /\
     forall key, key ∈ tried o <-> in_product p key).
Proof.
  intros Hp Hdistinct Hidentifies Hfuel.
  pose proof (valid_zero f p Hp) as Hzero.
  pose proof (space_sort_order f p Hp) as Hspace.
  destruct (search_spec aes p (sort_order p) (aes target_key cleartext)
              (sort_order_perm p) fuel (replicate 16 0) Hzero)
    as (o & Ho & Hlen & Hkeys & Hend).
  { rewrite Hspace. lia. }
  rewrite rank_zero, Nat.sub_0_r, Hspace in *.
  assert (Hbf : brute_force aes target_key fuel (Some f) = Some o).
  { unfold brute_force. rewrite Hp. exact Ho. }
  split.
  - intros Hcontains.
    destruct (in_product_assemble f p Hp target_key (conj target_key_length Hcontains))
      as (v & Hv & Hassemble).
    exists o. split; [exact Hbf|].
    destruct Hend as [(Hrc & K & Hlast & HK)|(Hrc & _ & Hcover & Hnone)].
    + split; [exact Hrc|]. split; [exact Hlen|]. rewrite Hlast. f_equal.
      apply (hit_target p K Hidentifies); [|exact HK].
      assert (HKin : K ∈ tried o).
      { apply last_Some in Hlast as [l ->]. apply elem_of_app. right. left. }
      destruct (Hkeys K HKin) as (v' & Hv' & _ & ->).
      exact (assemble_in_product f p Hp v' Hv').
    + exfalso. rewrite Forall_forall in Hnone.
      apply (Hnone target_key).
      * rewrite <- Hassemble. apply Hcover; [exact Hv | lia].
      * apply (hit_target p target_key Hidentifies);
          [exact (conj target_key_length Hcontains) | reflexivity].
  - intros (i & Hi & Hmissing).
    exists o. split; [exact Hbf|].
    destruct Hend as [(Hrc & K & Hlast & HK)|(Hrc & Hcount & Hcover & Hnone)].
    + exfalso.
      assert (HKin : K ∈ tried o).
      { apply last_Some in Hlast as [l ->]. apply elem_of_app. right. left. }
      destruct (Hkeys K HKin) as (v' & Hv' & _ & ->).
      apply (hit_target p _ Hidentifies) in HK;
        [|exact (assemble_in_product f p Hp v' Hv')].
      apply Hmissing. rewrite <- HK.
      exact (proj2 (assemble_in_product f p Hp v' Hv') i Hi).
    + split; [exact Hrc|]. split; [exact Hcount|]. split.
      * exact (search_tried_NoDup aes f p Hp Hdistinct _ _ _ _ Hzero Ho).
      * intros key. split.
        -- intros Hkey. destruct (Hkeys key Hkey) as (v & Hv & _ & ->).
           exact (assemble_in_product f p Hp v Hv).
        -- intros Hkey. destruct (in_product_assemble f p Hp key Hkey) as (v & Hv & <-).
           apply Hcover; [exact Hv | lia].
Qed.

End BruteForceComplete.

(** The theorem at work. A cipher that shows its key tells all keys
    apart; one that reads two bytes of the key tells the candidates of
    the sample pools apart and no more, which is all the theorem asks. *)
Lemma transparent_cipher_key (key data : list byte) :
  length key = 16%nat -> transparent_cipher key data = key.
Proof.
  intros Hlen. unfold transparent_cipher.
  apply (nth_ext _ _ "000"%byte "000"%byte).
  - rewrite length_map, length_seq. congruence.
  - intros i Hi. rewrite length_map, length_seq in Hi.
    exact (nth_map_seq (fun i => nth i key "000"%byte) 16 i _ Hi).
Qed.

Lemma transparent_cipher_block (key data : list byte) :
  length (transparent_cipher key data) = 16%nat.
Proof. unfold transparent_cipher. rewrite length_map. apply length_seq. Qed.

Lemma transparent_cipher_identifies (target key : list byte) :
  length target = 16%nat -> length key = 16%nat ->
  transparent_cipher key cleartext = transparent_cipher target cleartext <-> key = target.
Proof.
  intros Ht Hk. rewrite !transparent_cipher_key by assumption. reflexivity.
Qed.

Lemma uneven_pools_distinct : Forall (fun pool => NoDup pool) (bytes uneven_pools).
Proof.
  unfold uneven_pools. cbn [bytes]. apply Forall_app. split.
  - apply Forall_cons. split; [apply NoDup_singleton|].
    apply Forall_cons. split; [|apply Forall_nil; exact I].
    apply NoDup_cons. split; [|apply NoDup_singleton].
    intros H. apply list_elem_of_singleton in H. discriminate H.
  - apply Forall_replicate, NoDup_singleton.
Qed.

Lemma key_in_uneven_pools (i : nat) :
  (i < 16)%nat -> nth i key_in_pools "000"%byte ∈ nth i (bytes uneven_pools) [].
Proof.
  intros Hi.
  do 16 (destruct i as [|i]; [apply list_elem_of_In; vm_compute; tauto|]).
  exfalso. apply Nat.ltb_lt in Hi. discriminate Hi.
Qed.

Lemma key_off_uneven_pools :
  exists i, (i < 16)%nat /\
            nth i key_off_pools "000"%byte ∉ nth i (bytes uneven_pools) [].
Proof.
  exists O. split; [apply Nat.ltb_lt; reflexivity|].
  intros H. apply list_elem_of_singleton in H. discriminate H.
Qed.

(** The candidates of the sample pools: all zeros, but for the second
    byte, which is 0 or 1. *)
Lemma uneven_pools_product (key : list byte) :
  in_product uneven_pools key -> key = cleartext \/ key = key_in_pools.
Proof.
  intros [Hlen Hin].
  do 16 (destruct key as [|? key]; [discriminate Hlen|]).
  destruct key; [|discriminate Hlen].
  assert (Hlt : forall i, (i <? 16)%nat = true -> (i < 16)%nat)
    by (intros i; apply Nat.ltb_lt).
  pose proof (Hin 0%nat (Hlt 0%nat eq_refl)) as H0. pose proof (Hin 1%nat (Hlt 1%nat eq_refl)) as H1.
  pose proof (Hin 2%nat (Hlt 2%nat eq_refl)) as H2. pose proof (Hin 3%nat (Hlt 3%nat eq_refl)) as H3.
  pose proof (Hin 4%nat (Hlt 4%nat eq_refl)) as H4. pose proof (Hin 5%nat (Hlt 5%nat eq_refl)) as H5.
  pose proof (Hin 6%nat (Hlt 6%nat eq_refl)) as H6. pose proof (Hin 7%nat (Hlt 7%nat eq_refl)) as H7.
  pose proof (Hin 8%nat (Hlt 8%nat eq_refl)) as H8. pose proof (Hin 9%nat (Hlt 9%nat eq_refl)) as H9.
  pose proof (Hin 10%nat (Hlt 10%nat eq_refl)) as H10. pose proof (Hin 11%nat (Hlt 11%nat eq_refl)) as H11.
  pose proof (Hin 12%nat (Hlt 12%nat eq_refl)) as H12. pose proof (Hin 13%nat (Hlt 13%nat eq_refl)) as H13.
  pose proof (Hin 14%nat (Hlt 14%nat eq_refl)) as H14. pose proof (Hin 15%nat (Hlt 15%nat eq_refl)) as H15.
  clear Hin Hlen Hlt.
  apply list_elem_of_In in H0, H1, H2, H3, H4, H5, H6, H7, H8, H9, H10, H11, H12, H13, H14, H15.
  cbn in H0, H1, H2, H3, H4, H5, H6, H7, H8, H9, H10, H11, H12, H13, H14, H15.
  destruct H0 as [<-|[]], H2 as [<-|[]], H3 as [<-|[]], H4 as [<-|[]], H5 as [<-|[]],
    H6 as [<-|[]], H7 as [<-|[]], H8 as [<-|[]], H9 as [<-|[]], H10 as [<-|[]],
    H11 as [<-|[]], H12 as [<-|[]], H13 as [<-|[]], H14 as [<-|[]], H15 as [<-|[]].
  destruct H1 as [<-|[<-|[]]]; [left | right]; reflexivity.
Qed.

(** [two_byte_cipher] writes sixteen bytes. *)
Lemma two_byte_cipher_block (key data : list byte) :
  length (two_byte_cipher key data) = 16.
Proof. unfold two_byte_cipher. rewrite length_map. apply length_seq. Qed.

(** [two_byte_cipher] does not tell all keys apart: it gives the target
    key [key_in_pools] and a key that differs in the third byte the same
    ciphertext. *)
Lemma two_byte_cipher_blind :
  exists key, length key = 16 /\ key <> key_in_pools /\
    two_byte_cipher key cleartext = two_byte_cipher key_in_pools cleartext.
Proof.
  exists (["000"; "001"; "002"] ++ replicate 13 "000")%byte.
  split; [reflexivity|]. split; [discriminate | reflexivity].
Qed.

(** Among the candidates of the sample pools it does tell the target key
    from the others, whether the target is a candidate or not. *)
Lemma two_byte_cipher_identifies (target key : list byte) :
  target = key_in_pools \/ target = key_off_pools ->
  in_product uneven_pools key ->
  two_byte_cipher key cleartext = two_byte_cipher target cleartext <-> key = target.
Proof.
  intros Htarget Hkey.
  destruct (uneven_pools_product key Hkey) as [-> | ->], Htarget as [-> | ->];
    split; intros H; first [reflexivity | discriminate H | vm_compute in H; discriminate H].
Qed.

Lemma brute_force_complete_witness :
  read_pools 16 uneven_pools_file = Some uneven_pools /\
  (pool_product uneven_pools <= 2)%nat /\
  (exists o,
     brute_force two_byte_cipher key_in_pools 2 (Some uneven_pools_file) = Some o /\
     rc o = 0%Z /\
     (length (tried o) <= pool_product uneven_pools)%nat /\
     last (tried o) = Some key_in_pools) /\
  (exists o,
     brute_force two_byte_cipher key_off_pools 2 (Some uneven_pools_file) = Some o /\
     rc o = 1%Z /\
     length (tried o) = pool_product uneven_pools /\
     NoDup (tried o) /\
     forall key, key ∈ tried o <-> in_product uneven_pools key).
Proof.
  split; [reflexivity|]. split; [apply Nat.leb_le; reflexivity|]. split.
  - exact (proj1 (brute_force_complete two_byte_cipher key_in_pools eq_refl
                    two_byte_cipher_block
                    uneven_pools_file uneven_pools 2 eq_refl uneven_pools_distinct
                    (fun key => two_byte_cipher_identifies key_in_pools key (or_introl eq_refl))
                    (proj1 (Nat.leb_le (pool_product uneven_pools) 2) eq_refl))
             key_in_uneven_pools).
  - exact (proj2 (brute_force_complete two_byte_cipher key_off_pools eq_refl
                    two_byte_cipher_block
                    uneven_pools_file uneven_pools 2 eq_refl uneven_pools_distinct
                    (fun key => two_byte_cipher_identifies key_off_pools key (or_intror eq_refl))
                    (proj1 (Nat.leb_le (pool_product uneven_pools) 2) eq_refl))
             key_off_uneven_pools).
Defined.

(** Whatever the file holds, the search comes to an end, with 0 or 1. *)
Lemma brute_force_returns (aes : list byte -> list byte -> list byte)
    (target_key f : list byte) :
  exists fuel0, forall fuel, fuel0 <= fuel ->
    exists o, brute_force aes target_key fuel (Some f) = Some o /\
              (rc o = 0%Z \/ rc o = 1%Z).
Proof.
  unfold brute_force.
  destruct (read_pools 16 f) as [p|] eqn:Hp.
  - exists (pool_product p). intros fuel Hfuel.
    destruct (search_spec aes p (sort_order p) (aes target_key cleartext)
                (sort_order_perm p) fuel (replicate 16 0) (valid_zero f p Hp))
      as (o & Ho & _ & _ & Hend).
    { rewrite (space_sort_order f p Hp). lia. }
    exists o. split; [exact Ho|]. destruct Hend as [[H _]|[H _]]; auto.
  - exists 0. intros fuel _. eexists. split; [reflexivity|]. right. reflexivity.
Qed.

(** ** The program *)

Local Open Scope Z_scope.

Lemma generate_n_threshold (n fuel : nat) (w : World) (s s' : State) :
  generate_n n fuel w s = Some s' -> tally_threshold s' = tally_threshold s.
Proof.
  revert s. induction n as [|n IH]; intros s; cbn [generate_n].
  - intros [= <-]. reflexivity.
  - destruct (generate fuel w s) as [g|] eqn:Hg; [|discriminate]. intros Hn.
    rewrite (IH _ Hn).
    destruct (generate_Some _ _ _ _ Hg) as (k & _ & _ & _ & _ & _ & HT & _). exact HT.
Qed.

Lemma study_key_mono (fuel fuel' : nat) (w : World) (key : list byte) (gen : bool)
    (runs : Z) (s : State) (k : studied) :
  (fuel <= fuel')%nat ->
  study_key fuel w key gen runs s = Some k -> study_key fuel' w key gen runs s = Some k.
Proof.
  intros Hle. unfold study_key.
  destruct (generate_n (Z.to_nat runs) fuel w _) as [s1|] eqn:Hn; [|discriminate].
  rewrite (generate_n_mono _ _ _ _ _ _ Hle Hn). auto.
Qed.

Lemma study_key_threshold (fuel : nat) (w : World) (key : list byte) (gen : bool)
    (runs : Z) (s : State) (k : studied) :
  study_key fuel w key gen runs s = Some k ->
  tally_threshold (k_state k) = tally_threshold s.
Proof.
  unfold study_key.
  destruct (generate_n (Z.to_nat runs) fuel w _) as [s1|] eqn:Hn; [|discriminate].
  intros [= <-]. cbn [k_state]. exact (generate_n_threshold _ _ _ _ _ Hn).
Qed.

Lemma study_key_completes (w : World) (key : list byte) (gen : bool) (runs : Z) (s : State) :
  fair w (tally_threshold s) -> exists fuel k, study_key fuel w key gen runs s = Some k.
Proof.
  intros Hfair. unfold study_key.
  match goal with |- context [generate_n ?n _ w ?s0] =>
    destruct (generate_n_completes n w s0 Hfair) as (fuel & s1 & Hn)
  end.
  exists fuel. rewrite Hn. eauto.
Qed.

Lemma test_keys_mono (n fuel fuel' : nat) (w : World) (runs : Z)
    (mt ct : list (list float)) (s : State) r :
  (fuel <= fuel')%nat ->
  test_keys n fuel w runs mt ct s = Some r -> test_keys n fuel' w runs mt ct s = Some r.
Proof.
  intros Hle. revert ct s. induction n as [|n IH]; intros ct s; cbn [test_keys]; [auto|].
  destruct (study_key fuel w [] true runs s) as [k|] eqn:Hk; [|discriminate].
  rewrite (study_key_mono _ _ _ _ _ _ _ _ Hle Hk). apply IH.
Qed.

Lemma test_keys_completes (n : nat) (w : World) (runs : Z)
    (mt ct : list (list float)) (s : State) :
  fair w (tally_threshold s) -> exists fuel r, test_keys n fuel w runs mt ct s = Some r.
Proof.
  revert ct s. induction n as [|n IH]; intros ct s Hfair; cbn [test_keys].
  - exists 0%nat. eauto.
  - destruct (study_key_completes w [] true runs s Hfair) as (fuel1 & k & Hk).
    destruct (IH (add_corr ct (correlate (k_means k) mt (k_key k))) (k_state k))
      as (fuel2 & r & Hr).
    { rewrite (study_key_threshold _ _ _ _ _ _ _ Hk). exact Hfair. }
    exists (Nat.max fuel1 fuel2), r.
    rewrite (study_key_mono _ _ _ _ _ _ _ _ (Nat.le_max_l fuel1 fuel2) Hk).
    exact (test_keys_mono _ _ _ _ _ _ _ _ _ (Nat.le_max_r fuel1 fuel2) Hr).
Qed.

(** Under a fair timer the gathering of [main] comes to an end. *)
Lemma gather_completes (w : World) (target_key : list byte) (s s1 : State) :
  calc_encryption_stats w (Z.shiftl 1 DEFAULT_RUNS) s = Some s1 ->
  fair w (tally_threshold s1) ->
  exists fuel r, gather fuel w target_key s = Some r.
Proof.
  intros Hcal Hfair. unfold gather. rewrite Hcal.
  destruct (study_key_completes w target_key false (Z.shiftl 1 DEFAULT_RUNS) s1 Hfair)
    as (fuel1 & k & Hk).
  destruct (test_keys_completes KEYS_CAP w (Z.shiftl 1 DEFAULT_RUNS) (k_means k)
              zero_corr (k_state k)) as (fuel2 & r & Hr).
  { rewrite (study_key_threshold _ _ _ _ _ _ _ Hk). exact Hfair. }
  exists (Nat.max fuel1 fuel2), r.
  rewrite (study_key_mono _ _ _ _ _ _ _ _ (Nat.le_max_l fuel1 fuel2) Hk).
  exact (test_keys_mono _ _ _ _ _ _ _ _ _ (Nat.le_max_r fuel1 fuel2) Hr).
Qed.

Local Open Scope nat_scope.

(** What the return code of the search says about the keys tried. *)
Lemma search_outcome (aes : list byte -> list byte -> list byte) (fuel : nat)
    (p : pools) (order : list nat) (tgt : list byte) (idx : list nat) (o : outcome) :
  search aes fuel p order tgt idx = Some o ->
  (rc o = 0%Z /\ exists K, last (tried o) = Some K /\ hit aes tgt K) \/
  (rc o = 1%Z /\ Forall (fun K => ~ hit aes tgt K) (tried o)).
Proof.
  revert idx o. induction fuel as [|fuel IH]; intros idx o; cbn [search]; [discriminate|].
  destruct (Z.eqb_spec (brute_force_attempt aes (assemble p idx) cleartext tgt) 0)
    as [Hhit|Hmiss].
  - intros [= <-]. left. split; [reflexivity|]. eauto.
  - destruct (carry p order idx) as [idx'|].
    + destruct (search aes fuel p order tgt idx') as [o'|] eqn:Ho'; [|discriminate].
      intros [= <-]. cbn [rc tried].
      destruct (IH _ _ Ho') as [(Hrc & K & Hlast & HK)|(Hrc & Hnone)].
      * left. split; [exact Hrc|]. exists K. split; [|exact HK].
        destruct (tried o') as [|k ks]; [discriminate | exact Hlast].
      * right. split; [exact Hrc|]. constructor; [exact Hmiss | exact Hnone].
    + intros [= <-]. right. split; [reflexivity|]. repeat constructor. exact Hmiss.
Qed.

Lemma brute_force_outcome (aes : list byte -> list byte -> list byte)
    (target_key : list byte) (fuel : nat) (f : list byte) (o : outcome) :
  brute_force aes target_key fuel (Some f) = Some o ->
  (rc o = 0%Z /\ exists K, last (tried o) = Some K /\ hit aes (aes target_key cleartext) K) \/
  (rc o = 1%Z /\ Forall (fun K => ~ hit aes (aes target_key cleartext) K) (tried o)).
Proof.
  unfold brute_force. destruct (read_pools 16 f) as [p|].
  - apply search_outcome.
  - intros [= <-]. right. split; [reflexivity | constructor].
Qed.

Local Open Scope Z_scope.

(** C10. [main] exits with 1 when [aes.key] is missing or shorter than 16
    bytes. Without [bf.dat] it does not search: it gathers correlations,
    exits with 0 when that completes, and does complete under a fair
    timer. With [bf.dat] it exits with the result of the search, which
    always comes: 0 when the last key tried produces the reference
    ciphertext, 1 when no key tried does. *)
Theorem main_exit_codes (aes : list byte -> list byte -> list byte) (w : World)
    (arg : option float) :
  (forall fuel fkey fbf,
     fkey = None \/ (exists kf, fkey = Some kf /\ (length kf < 16)%nat) ->
     main aes fuel w arg fkey fbf = Some 1) /\
  (forall fuel kf, (16 <= length kf)%nat ->
     main aes fuel w arg (Some kf) None =
     match gather fuel w (take 16 kf) (initial_state (cli_threshold arg)) with
     | Some _ => Some 0
     | None => None
     end) /\
  (forall kf s1, (16 <= length kf)%nat ->
     calc_encryption_stats w (Z.shiftl 1 DEFAULT_RUNS)
       (initial_state (cli_threshold arg)) = Some s1 ->
     fair w (tally_threshold s1) ->
     exists fuel, main aes fuel w arg (Some kf) None = Some 0) /\
  (forall fuel kf f o, (16 <= length kf)%nat ->
     brute_force aes (take 16 kf) fuel (Some f) = Some o ->
     main aes fuel w arg (Some kf) (Some f) = Some (rc o) /\
     ((rc o = 0 /\
       exists K, last (tried o) = Some K /\
                 hit aes (aes (take 16 kf) cleartext) K) \/
      (rc o = 1 /\
       Forall (fun K => ~ hit aes (aes (take 16 kf) cleartext) K) (tried o)))) /\
  (forall kf f, (16 <= length kf)%nat ->
     exists fuel0, forall fuel, (fuel0 <= fuel)%nat ->
       exists code, main aes fuel w arg (Some kf) (Some f) = Some code /\
                    (code = 0 \/ code = 1)).
Proof.
  assert (Hlong : forall kf : list byte,
            (16 <= length kf)%nat -> (length kf <? 16)%nat = false).
  { intros kf H. apply Nat.ltb_ge, H. }
  split; [|split; [|split; [|split]]].
  - intros fuel fkey fbf [->|(kf & -> & Hshort)]; [reflexivity|].
    unfold main. apply Nat.ltb_lt in Hshort. rewrite Hshort. reflexivity.
  - intros fuel kf Hkf. unfold main. rewrite (Hlong kf Hkf). reflexivity.
  - intros kf s1 Hkf Hcal Hfair.
    destruct (gather_completes w (take 16 kf) _ _ Hcal Hfair) as (fuel & r & Hr).
    exists fuel. unfold main. rewrite (Hlong kf Hkf). cbn [brute_force rc Z.ltb Z.compare].
    rewrite Hr. reflexivity.
  - intros fuel kf f o Hkf Ho.
    pose proof (brute_force_outcome _ _ _ _ _ Ho) as Hout.
    split; [|exact Hout].
    unfold main. rewrite (Hlong kf Hkf), Ho.
    destruct Hout as [[-> _]|[-> _]]; reflexivity.
  - intros kf f Hkf.
    destruct (brute_force_returns aes (take 16 kf) f) as (fuel0 & Hret).
    exists fuel0. intros fuel Hfuel. destruct (Hret fuel Hfuel) as (o & Ho & Hrc).
    exists (rc o). split; [|exact Hrc].
    unfold main. rewrite (Hlong kf Hkf), Ho.
    destruct Hrc as [-> | ->]; reflexivity.
Qed.

(** The sum of a constant. *)
Lemma Zsum_const (c : Z) (n : nat) : Zsum (fun _ => c) n = c * Z.of_nat n.
Proof.
  induction n as [|n IH]; [cbn [Zsum]; lia|].
  cbn [Zsum]. rewrite IH. lia.
Qed.

(** Under the steady timer [w0] the calibration sets the threshold to 500
    ticks, which every measurement meets. *)
Lemma steady_timer_fair (s1 : State) :
  calc_encryption_stats w0 (Z.shiftl 1 DEFAULT_RUNS) (initial_state 0%float) = Some s1 ->
  fair w0 (tally_threshold s1).
Proof.
  intros Hcal.
  destruct (calc_encryption_stats_calibrates w0 (Z.shiftl 1 DEFAULT_RUNS)
              (initial_state 0%float) eq_refl eq_refl)
    as (s1' & Hcal' & _ & Hruns & Hticks & HT).
  rewrite Hcal in Hcal'. injection Hcal' as <-.
  assert (Hsum : total_ticks s1 = 100 * Z.shiftl 1 DEFAULT_RUNS).
  { rewrite Hticks. cbn [total_ticks initial_state].
    rewrite (Zsum_ext _ (fun _ => 100)) by (intros; reflexivity).
    rewrite Zsum_const, Z2Nat.id by discriminate. lia. }
  assert (H500 : tally_threshold s1 = 500).
  { rewrite HT, Hsum, Hruns. reflexivity. }
  intros k. exists 0%nat. rewrite H500. discriminate.
Qed.

Lemma main_exit_codes_witness :
  main transparent_cipher 0 w0 None None None = Some 1 /\
  (exists fuel, main transparent_cipher fuel w0 None (Some key_in_pools) None = Some 0) /\
  main transparent_cipher 2 w0 None (Some key_in_pools) (Some uneven_pools_file) = Some 0 /\
  main transparent_cipher 2 w0 None (Some cleartext) (Some []) = Some 1.
Proof.
  destruct (main_exit_codes transparent_cipher w0 None) as (Hkey & _ & Hgather & Hbf & _).
  split; [apply Hkey; left; reflexivity|].
  split; [|split].
  - destruct (calc_encryption_stats_calibrates w0 (Z.shiftl 1 DEFAULT_RUNS)
                (initial_state (cli_threshold None)) eq_refl eq_refl)
      as (s1 & Hcal & _).
    exact (Hgather key_in_pools s1 (proj1 (Nat.leb_le 16 16) eq_refl) Hcal
             (steady_timer_fair s1 Hcal)).
  - specialize (Hbf 2%nat key_in_pools uneven_pools_file).
    destruct (brute_force transparent_cipher (take 16 key_in_pools) 2
                (Some uneven_pools_file)) as [o|] eqn:Ho;
      vm_compute in Ho; [injection Ho as <- | discriminate Ho].
    exact (proj1 (Hbf _ (proj1 (Nat.leb_le 16 16) eq_refl) eq_refl)).
  - specialize (Hbf 2%nat cleartext []).
    destruct (brute_force transparent_cipher (take 16 cleartext) 2 (Some []))
      as [o|] eqn:Ho;
      vm_compute in Ho; [injection Ho as <- | discriminate Ho].
    exact (proj1 (Hbf _ (proj1 (Nat.leb_le 16 16) eq_refl) eq_refl)).
Defined.

(** ** Further properties of the code *)

(** X1. While [tally_threshold] has its initial value [INT32_MAX] no
    measurement is discarded: [generate] returns after a single call of
    [run], with the tick count of that call. *)
Theorem unfiltered_generate (w : World) (s : State) :
  tally_threshold s = INT32_MAX ->
  exists g, generate 1 w s = Some g /\
            g_ticks g = run w (run_calls s) /\
            run_calls (g_state g) = S (run_calls s).
Proof.
  intros HT. unfold generate. cbn [measure]. rewrite HT.
  pose proof (to_int32_range (rdtsc_elapsed w (run_calls s))) as Hrange.
  fold (run w (run_calls s)) in Hrange.
  destruct (Z.ltb_spec INT32_MAX (run w (run_calls s))) as [Hgt|_]; [lia|].
  eexists. split; [reflexivity|]. split; reflexivity.
Qed.

Lemma unfiltered_generate_witness :
  tally_threshold (initial_state 0%float) = INT32_MAX /\
  exists g, generate 1 w1 (initial_state 0%float) = Some g /\
            g_ticks g = run w1 0 /\
            run_calls (g_state g) = 1%nat.
Proof.
  split; [reflexivity|].
  exact (unfiltered_generate w1 (initial_state 0%float) eq_refl).
Defined.

(** X2. The reading loop of [brute_force] yields as many pools as it was
    asked for, each with between 1 and 256 candidates (a length byte of 0
    stands for 256), and [bytes[i]] holds exactly [lens[i]] of them. *)
Theorem pools_read_sizes (n : nat) (f : list byte) (p : pools) :
  read_pools n f = Some p ->
  length (lens p) = n /\ length (bytes p) = n /\
  forall i, (i < n)%nat ->
    (1 <= pool_size p i <= 256)%nat /\
    length (nth i (bytes p) []) = pool_size p i.
Proof.
  intros Hp. destruct (read_pools_spec n f p Hp) as (Hl & Hb & Hi).
  split; [exact Hl|]. split; [exact Hb|].
  intros i Hlt. destruct (Hi i Hlt) as [[Hlo Hhi] Hlen].
  split; [|exact Hlen]. split; [exact Hlo|]. apply Nat.lt_succ_r. exact Hhi.
Qed.

Lemma pools_read_sizes_witness :
  read_pools 16 uneven_pools_file = Some uneven_pools /\
  length (lens uneven_pools) = 16%nat /\ length (bytes uneven_pools) = 16%nat /\
  forall i, (i < 16)%nat ->
    (1 <= pool_size uneven_pools i <= 256)%nat /\
    length (nth i (bytes uneven_pools) []) = pool_size uneven_pools i.
Proof.
  split; [reflexivity|].
  exact (pools_read_sizes 16 uneven_pools_file uneven_pools eq_refl).
Defined.

(** X3. Whatever the cipher and the target key, the search over the pools
    of a well-formed file ends within as many attempts as the product of
    the pool lengths, with 0 or 1. *)
Theorem brute_force_bounded (aes : list byte -> list byte -> list byte)
    (target_key f : list byte) (p : pools) (fuel : nat) :
  read_pools 16 f = Some p ->
  (pool_product p <= fuel)%nat ->
  exists o, brute_force aes target_key fuel (Some f) = Some o /\
            (rc o = 0 \/ rc o = 1) /\
            (length (tried o) <= pool_product p)%nat.
Proof.
  intros Hp Hfuel. unfold brute_force. rewrite Hp.
  destruct (search_spec aes p (sort_order p) (aes target_key cleartext)
              (sort_order_perm p) fuel (replicate 16 O) (valid_zero f p Hp))
    as (o & Ho & Hlen & _ & Hend).
  { rewrite (space_sort_order f p Hp). lia. }
  rewrite rank_zero, Nat.sub_0_r, (space_sort_order f p Hp) in Hlen.
  exists o. split; [exact Ho|]. split; [|exact Hlen].
  destruct Hend as [[H _]|[H _]]; auto.
Qed.

Lemma brute_force_bounded_witness :
  read_pools 16 uneven_pools_file = Some uneven_pools /\
  (pool_product uneven_pools <= 2)%nat /\
  exists o, brute_force transparent_cipher cleartext 2 (Some uneven_pools_file) = Some o /\
            (rc o = 0 \/ rc o = 1) /\
            (length (tried o) <= pool_product uneven_pools)%nat.
Proof.
  split; [reflexivity|]. split; [apply Nat.leb_le; reflexivity|].
  exact (brute_force_bounded transparent_cipher cleartext uneven_pools_file uneven_pools 2
           eq_refl (proj1 (Nat.leb_le (pool_product uneven_pools) 2) eq_refl)).
Defined.

(** X4. [brute_force] returns -1 exactly when there is no pool file, and
    1 without trying any key when the file ends before the sixteenth
    pool is complete. *)
Theorem brute_force_file_codes (aes : list byte -> list byte -> list byte)
    (target_key : list byte) (fuel : nat) :
  brute_force aes target_key fuel None = Some {| rc := -1; tried := [] |} /\
  (forall f, read_pools 16 f = None ->
     brute_force aes target_key fuel (Some f) = Some {| rc := 1; tried := [] |}) /\
  (forall f o, brute_force aes target_key fuel (Some f) = Some o -> rc o <> -1).
Proof.
  split; [reflexivity|]. split.
  - intros f Hf. unfold brute_force. rewrite Hf. reflexivity.
  - intros f o Ho. destruct (brute_force_outcome _ _ _ _ _ Ho) as [[-> _]|[-> _]]; lia.
Qed.

(** X5. One pass of the carry loop is the successor of the counters read
    as a mixed-radix number along [order]: it adds one and keeps every
    counter inside its pool, or reports the end of the space when the
    number was the last one. *)
Theorem carry_is_successor (p : pools) (ord : list nat) (idx : list nat) :
  NoDup ord -> (forall pos, pos ∈ ord -> (pos < length idx)%nat) ->
  in_range p ord idx ->
  match carry p ord idx with
  | Some idx' => rank p ord idx' = S (rank p ord idx) /\ in_range p ord idx'
  | None => S (rank p ord idx) = space p ord
  end.
Proof.
  intros Hnd Hlen Hin. pose proof (carry_spec p ord idx Hnd Hlen Hin) as H.
  destruct (carry p ord idx) as [idx'|]; [|exact H].
  destruct H as (_ & Hr & Hrank & _). split; assumption.
Qed.

Lemma carry_is_successor_witness :
  match carry uneven_pools (sort_order uneven_pools) (replicate 16 O) with
  | Some idx' =>
      rank uneven_pools (sort_order uneven_pools) idx' =
      S (rank uneven_pools (sort_order uneven_pools) (replicate 16 O)) /\
      in_range uneven_pools (sort_order uneven_pools) idx'
  | None =>
      S (rank uneven_pools (sort_order uneven_pools) (replicate 16 O)) =
      space uneven_pools (sort_order uneven_pools)
  end.
Proof.
  apply carry_is_successor.
  - exact (order_NoDup _ (sort_order_perm uneven_pools)).
  - intros pos Hpos. apply (order_elem _ (sort_order_perm uneven_pools)) in Hpos.
    exact Hpos.
  - exact (proj2 (valid_zero uneven_pools_file uneven_pools eq_refl)).
Defined.

(** A spot check: on X = 0, 1, ..., 255 and Y = X squared the coefficient
    is 0.968 to three decimal places. *)
Theorem pearson_squares :
  let r := Pearson.pearson_correlation_coefficient Pearson.ramp
             (map (fun x => PrimFloat.mul x x) Pearson.ramp) in
  PrimFloat.ltb (PrimFloat.div (double_of_Z 9675) (double_of_Z 10000)) r = true /\
  PrimFloat.ltb r (PrimFloat.div (double_of_Z 9685) (double_of_Z 10000)) = true.
Proof.
  cbv zeta. split; vm_compute; reflexivity.
Qed.

(** ** The coefficient without variance *)

(** A double that equals 0 is a zero. *)
Lemma eqb_zero (x : float) :
  PrimFloat.eqb x 0 = true -> exists s, Prim2SF x = S754_zero s.
Proof.
  rewrite FloatAxioms.eqb_spec. change (Prim2SF 0) with (S754_zero false).
  destruct (Prim2SF x) as [s|[]| |[] m e]; try discriminate. eauto.
Qed.

(** A product with a zero is a zero or NaN. *)
Lemma mul_zero_null (x y : float) :
  (exists s, Prim2SF x = S754_zero s) \/ (exists s, Prim2SF y = S754_zero s) ->
  null (Prim2SF (PrimFloat.mul x y)).
Proof.
  rewrite mul_spec. unfold SF64mul.
  intros [[s ->]|[s ->]].
  - destruct (Prim2SF y) as [?|?| |? ? ?]; exact I.
  - destruct (Prim2SF x) as [?|?| |? ? ?]; exact I.
Qed.

(** The square root of a zero or NaN is one. *)
Lemma sqrt_null (x : float) : null (Prim2SF x) -> null (Prim2SF (PrimFloat.sqrt x)).
Proof.
  rewrite sqrt_spec. unfold SF64sqrt.
  destruct (Prim2SF x) as [?|[]| |[] ? ?]; cbn [null SFsqrt]; tauto.
Qed.

(** A quotient by a zero or NaN is not a finite number. *)
Lemma div_null (n d : float) :
  null (Prim2SF d) -> finite_double (PrimFloat.div n d) = false.
Proof.
  unfold finite_double. rewrite div_spec. unfold SF64div.
  destruct (Prim2SF d) as [?|?| |? ? ?]; cbn [null]; try tauto; intros _;
    destruct (Prim2SF n) as [?|?| |? ? ?]; reflexivity.
Qed.

(** X6. [pearson_correlation_coefficient] does not guard against a
    vanishing variance: where the variance of either vector comes out as
    zero, what it returns is NaN or an infinity, never a number. *)
Theorem pearson_zero_variance (X Y : list float) :
  length X = 256%nat -> length Y = 256%nat ->
  PrimFloat.eqb (variance X) 0 = true \/ PrimFloat.eqb (variance Y) 0 = true ->
  finite_double (Pearson.pearson_correlation_coefficient X Y) = false.
Proof.
  intros HX HY Hvar. rewrite (pearson_refines X Y HX HY).
  unfold Pearson.pearson_textbook. cbv zeta.
  change (PrimFloat.div
            (PrimFloat.sub (Pearson.fsum (map (fun x => PrimFloat.mul x x) X))
               (PrimFloat.mul (PrimFloat.mul 256 (PrimFloat.div (Pearson.fsum X) 256))
                  (PrimFloat.div (Pearson.fsum X) 256))) 255)
    with (variance X).
  change (PrimFloat.div
            (PrimFloat.sub (Pearson.fsum (map (fun y => PrimFloat.mul y y) Y))
               (PrimFloat.mul (PrimFloat.mul 256 (PrimFloat.div (Pearson.fsum Y) 256))
                  (PrimFloat.div (Pearson.fsum Y) 256))) 255)
    with (variance Y).
  apply div_null, sqrt_null, mul_zero_null.
  destruct Hvar as [H|H]; [left | right]; exact (eqb_zero _ H).
Qed.

Lemma pearson_zero_variance_witness :
  length ones = 256%nat /\ length Pearson.ramp = 256%nat /\
  PrimFloat.eqb (variance ones) 0 = true /\
  finite_double (Pearson.pearson_correlation_coefficient ones Pearson.ramp) = false.
Proof.
  split; [reflexivity|]. split; [reflexivity|].
  assert (H : PrimFloat.eqb (variance ones) 0 = true) by (vm_compute; reflexivity).
  split; [exact H|].
  exact (pearson_zero_variance ones Pearson.ramp eq_refl eq_refl (or_introl H)).
Defined.

(** ** The measurement loop, further *)

(** X7. A discarded measurement is repeated on the same cleartext:
    whatever the number [n] of measurements that [generate] discards,
    each of them above the threshold, it draws sixteen values of [rand],
    once, and calls [run] [n + 1] times. *)
Theorem generate_keeps_cleartext (fuel : nat) (w : World) (s : State) (g : generated) :
  generate fuel w s = Some g ->
  exists n,
    (forall m, (m < n)%nat -> tally_threshold s < run w (run_calls s + m)) /\
    g_ticks g = run w (run_calls s + n) /\
    run_calls (g_state g) = (run_calls s + n + 1)%nat /\
    g_data g = rand_bytes w (rand_calls s) 16 /\
    rand_calls (g_state g) = (rand_calls s + 16)%nat.
Proof.
  intros Hg.
  destruct (generate_Some _ _ _ _ Hg) as (k & Hm & HP & _ & _ & _ & _ & _ & Hrand & Hrun).
  apply measure_Some in Hm as (n & _ & Hbefore & _ & Hd & Hk).
  exists n. split; [exact Hbefore|]. split; [exact Hd|].
  split; [rewrite Hrun; lia|]. split; [exact HP | exact Hrand].
Qed.

Lemma generate_keeps_cleartext_witness :
  exists g, generate 2 w1 s500 = Some g /\
  exists n,
    (forall m, (m < n)%nat -> tally_threshold s500 < run w1 (run_calls s500 + m)) /\
    g_ticks g = run w1 (run_calls s500 + n) /\
    run_calls (g_state g) = (run_calls s500 + n + 1)%nat /\
    g_data g = rand_bytes w1 (rand_calls s500) 16 /\
    rand_calls (g_state g) = (rand_calls s500 + 16)%nat.
Proof.
  eexists. split; [reflexivity|].
  exact (generate_keeps_cleartext 2 w1 s500 _ eq_refl).
Defined.

(** X8. [run] returns the elapsed cycles as an [int]: a measurement of
    2^31 cycles or more (and less than 2^32) comes out negative, and
    [generate] accepts it under any threshold that is not negative. *)
Theorem long_measurement_accepted (w : World) (s : State) :
  0 <= tally_threshold s ->
  2 ^ 31 <= rdtsc_elapsed w (run_calls s) < 2 ^ 32 ->
  exists g, generate 1 w s = Some g /\
            g_ticks g = rdtsc_elapsed w (run_calls s) - 2 ^ 32 /\
            g_ticks g < 0.
Proof.
  intros HT He.
  assert (Hrun : run w (run_calls s) = rdtsc_elapsed w (run_calls s) - 2 ^ 32).
  { unfold run, to_int32.
    replace (rdtsc_elapsed w (run_calls s) + 2 ^ 31)
      with (rdtsc_elapsed w (run_calls s) - 2 ^ 31 + 1 * 2 ^ 32) by lia.
    rewrite Z.mod_add by lia. rewrite Z.mod_small by lia. lia. }
  unfold generate. cbn [measure]. rewrite Hrun.
  destruct (Z.ltb_spec (tally_threshold s) (rdtsc_elapsed w (run_calls s) - 2 ^ 32))
    as [Hgt|_]; [lia|].
  eexists. split; [reflexivity|]. cbn [g_ticks]. lia.
Qed.

Lemma long_measurement_accepted_witness :
  0 <= tally_threshold s500 /\
  2 ^ 31 <= rdtsc_elapsed w_long (run_calls s500) < 2 ^ 32 /\
  exists g, generate 1 w_long s500 = Some g /\
            g_ticks g = rdtsc_elapsed w_long (run_calls s500) - 2 ^ 32 /\
            g_ticks g < 0.
Proof.
  assert (H1 : 0 <= tally_threshold s500) by (vm_compute; discriminate).
  assert (H2 : 2 ^ 31 <= rdtsc_elapsed w_long (run_calls s500) < 2 ^ 32)
    by (vm_compute; split; [discriminate | reflexivity]).
  split; [exact H1|]. split; [exact H2|].
  exact (long_measurement_accepted w_long s500 H1 H2).
Defined.

(** ** The loop of [rand_bytes] *)

(** One pass of the loop. *)
Lemma rand_bytes_loop_S (fuel : nat) (w : World) (k : nat) (num i : Z) (dest : list byte) :
  rand_bytes_loop (S fuel) w k num i dest =
  if i <? num
  then rand_bytes_loop fuel w (S k) num ((i + 1) mod 256)
         (<[Z.to_nat i := byte_of_Z (rand w k)]> dest)
  else Some (dest, k).
Proof. reflexivity. Qed.

(** With [n] bytes still to write the loop writes them and returns. *)
Lemma rand_bytes_loop_returns (w : World) (num : Z) (n : nat) :
  forall (k : nat) (i : Z) (dest : list byte),
    0 <= i -> i + Z.of_nat n = num -> num <= 255 -> num <= Z.of_nat (length dest) ->
    rand_bytes_loop (S n) w k num i dest =
    Some (take (Z.to_nat i) dest ++ rand_bytes w k n ++ drop (Z.to_nat num) dest,
          (k + n)%nat).
Proof.
  induction n as [|n IH]; intros k i dest Hi Hn Hnum Hlen; rewrite rand_bytes_loop_S.
  - replace i with num by lia. rewrite Z.ltb_irrefl, Nat.add_0_r.
    unfold rand_bytes. cbn [seq map app]. rewrite take_drop. reflexivity.
  - destruct (Z.ltb_spec i num) as [_|Hge]; [|lia].
    rewrite Z.mod_small by lia.
    rewrite (IH (S k) (i + 1) _ ltac:(lia) ltac:(lia) Hnum)
      by (rewrite length_insert; exact Hlen).
    f_equal. f_equal; [|lia].
    replace (Z.to_nat (i + 1)) with (S (Z.to_nat i)) by lia.
    rewrite (take_S_r _ _ (byte_of_Z (rand w k)))
      by (apply list_lookup_insert_eq; lia).
    rewrite take_insert_ge by lia.
    rewrite drop_insert_lt by lia.
    rewrite <- app_assoc. f_equal.
    unfold rand_bytes. cbn [seq map app]. rewrite Nat.add_0_r. f_equal.
    rewrite <- seq_shift, map_map. f_equal. apply map_ext. intros j. f_equal. f_equal. lia.
Qed.

(** With 256 bytes or more to write the counter never reaches [num]. *)
Lemma rand_bytes_loop_spins (w : World) (num : Z) (fuel : nat) :
  256 <= num ->
  forall (k : nat) (i : Z) (dest : list byte),
    0 <= i < 256 -> rand_bytes_loop fuel w k num i dest = None.
Proof.
  intros Hnum. induction fuel as [|fuel IH]; intros k i dest Hi.
  - reflexivity.
  - rewrite rand_bytes_loop_S. destruct (Z.ltb_spec i num) as [_|Hge]; [|lia].
    apply IH. apply Z.mod_pos_bound. lia.
Qed.

(** X9. The loop of [rand_bytes] counts in a [byte]. Asked for up to 255
    bytes it writes the low eight bits of that many successive values of
    [rand] to the front of [dest] and leaves the rest alone; asked for
    none or fewer it writes nothing; asked for 256 or more it never
    returns, the counter wrapping to 0 before it can reach [num]. *)
Theorem rand_bytes_loop_bounds (w : World) (k : nat) (num : Z) (dest : list byte) :
  (0 <= num <= 255 -> num <= Z.of_nat (length dest) ->
   rand_bytes_loop (S (Z.to_nat num)) w k num 0 dest =
   Some (rand_bytes w k (Z.to_nat num) ++ drop (Z.to_nat num) dest,
         (k + Z.to_nat num)%nat)) /\
  (num <= 0 -> rand_bytes_loop 1 w k num 0 dest = Some (dest, k)) /\
  (256 <= num -> forall fuel, rand_bytes_loop fuel w k num 0 dest = None).
Proof.
  split; [|split].
  - intros Hnum Hlen.
    rewrite (rand_bytes_loop_returns w num (Z.to_nat num) k 0 dest) by lia.
    reflexivity.
  - intros Hnum. rewrite rand_bytes_loop_S.
    destruct (Z.ltb_spec 0 num) as [Hlt|_]; [lia | reflexivity].
  - intros Hnum fuel. apply rand_bytes_loop_spins; [exact Hnum | lia].
Qed.

Lemma rand_bytes_loop_bounds_witness :
  rand_bytes_loop 17 w1 5 16 0 (replicate 16 "000"%byte) =
    Some (rand_bytes w1 5 16 ++ drop 16 (replicate 16 "000"%byte), 21%nat) /\
  forall fuel, rand_bytes_loop fuel w1 5 256 0 (replicate 16 "000"%byte) = None.
Proof.
  split.
  - apply (proj1 (rand_bytes_loop_bounds w1 5 16 (replicate 16 "000"%byte))).
    + split; discriminate.
    + vm_compute. discriminate.
  - apply (proj2 (proj2 (rand_bytes_loop_bounds w1 5 256 (replicate 16 "000"%byte)))).
    discriminate.
Defined.

(** ** The largest cache *)

Lemma to_uint32_range (z : Z) : 0 <= to_uint32 z < 2 ^ 32.
Proof. unfold to_uint32. apply Z.mod_pos_bound. lia. Qed.

Lemma to_uint32_small (z : Z) : 0 <= z < 2 ^ 32 -> to_uint32 z = z.
Proof. unfold to_uint32. apply Z.mod_small. Qed.

(** The low [n] bits of [q * 2^n + r]. *)
Lemma land_low (q r n : Z) :
  0 <= n -> 0 <= r < 2 ^ n -> Z.land (q * 2 ^ n + r) (Z.ones n) = r.
Proof.
  intros Hn Hr. rewrite Z.land_ones by exact Hn.
  rewrite Z.add_comm, Z.mod_add by lia. apply Z.mod_small, Hr.
Qed.

(** What is above the low [n] bits of [q * 2^n + r]. *)
Lemma shiftr_high (q r n : Z) :
  0 <= n -> 0 <= r < 2 ^ n -> Z.shiftr (q * 2 ^ n + r) n = q.
Proof.
  intros Hn Hr. rewrite Z.shiftr_div_pow2 by exact Hn.
  rewrite Z.add_comm, Z.div_add by lia. rewrite Z.div_small by exact Hr. lia.
Qed.

(** A product taken factor by factor in [unsigned int]. *)
Lemma mul_chain_mod (a b c d : Z) :
  (((a * b) mod 2 ^ 32 * c) mod 2 ^ 32 * (d mod 2 ^ 32)) mod 2 ^ 32 =
  (a * b * c * d) mod 2 ^ 32.
Proof.
  rewrite Z.mul_mod_idemp_r by lia.
  rewrite Z.mul_mod_idemp_l by lia.
  rewrite <- Z.mul_assoc, Z.mul_mod_idemp_l by lia.
  f_equal. ring.
Qed.

(** X10. [cache_size] reads the geometry of a cache back from the registers
    of leaf 4 and multiplies it out in [unsigned int]: the size is the
    product of ways, partitions, line size and sets modulo 2^32, the
    product itself where that is below 4 GiB. *)
Theorem cache_total_size_decodes (type ways parts line sets : Z) :
  1 <= ways <= 1024 -> 1 <= parts <= 1024 -> 1 <= line <= 4096 ->
  1 <= sets <= 2 ^ 32 ->
  cache_total_size (leaf4 type ways parts line sets) =
  (ways * parts * line * sets) mod 2 ^ 32 /\
  (ways * parts * line * sets < 2 ^ 32 ->
   cache_total_size (leaf4 type ways parts line sets) = ways * parts * line * sets).
Proof.
  intros Hw Hp Hl Hs.
  assert (Hsize : cache_total_size (leaf4 type ways parts line sets) =
                  (ways * parts * line * sets) mod 2 ^ 32).
  { unfold cache_total_size, leaf4. cbn [ebx ecx].
    rewrite (to_uint32_small ((ways - 1) * 2 ^ 22 + (parts - 1) * 2 ^ 12 + (line - 1)))
      by lia.
    replace ((ways - 1) * 2 ^ 22 + (parts - 1) * 2 ^ 12 + (line - 1))
      with (((ways - 1) * 2 ^ 10 + (parts - 1)) * 2 ^ 12 + (line - 1)) by lia.
    change 4095 with (Z.ones 12). change 1023 with (Z.ones 10).
    rewrite land_low, shiftr_high by lia.
    rewrite land_low, shiftr_high by lia.
    replace (ways - 1) with (0 * 2 ^ 10 + (ways - 1)) at 1 by lia.
    rewrite land_low by lia.
    rewrite (to_uint32_small (line - 1 + 1)), (to_uint32_small (parts - 1 + 1)),
      (to_uint32_small (ways - 1 + 1)) by lia.
    replace (line - 1 + 1) with line by lia.
    replace (parts - 1 + 1) with parts by lia.
    replace (ways - 1 + 1) with ways by lia.
    assert (Hsets : to_uint32 (to_uint32 (sets - 1) + 1) = sets mod 2 ^ 32).
    { rewrite (to_uint32_small (sets - 1)) by lia. unfold to_uint32. f_equal. lia. }
    rewrite Hsets. unfold to_uint32. apply mul_chain_mod. }
  split; [exact Hsize|]. intros Hfit. rewrite Hsize. apply Z.mod_small. nia.
Qed.

Lemma cache_total_size_decodes_witness :
  cache_total_size (leaf4 1 8 1 64 64) = (8 * 1 * 64 * 64) mod 2 ^ 32 /\
  (8 * 1 * 64 * 64 < 2 ^ 32 -> cache_total_size (leaf4 1 8 1 64 64) = 8 * 1 * 64 * 64).
Proof.
  apply (cache_total_size_decodes 1 8 1 64 64); vm_compute; split; discriminate.
Defined.

Lemma cache_total_size_range (r : cpuid_regs) : 0 <= cache_total_size r < 2 ^ 32.
Proof. unfold cache_total_size. apply to_uint32_range. Qed.

(** One pass of the loop. *)
Lemma cache_size_loop_S (cpuid : nat -> cpuid_regs) (n i : nat) (largest : Z) :
  cache_size_loop cpuid (S n) i largest =
  if Z.land (to_uint32 (eax (cpuid i))) 31 =? 0 then largest
  else cache_size_loop cpuid n (S i)
         (if largest <? cache_total_size (cpuid i)
          then cache_total_size (cpuid i) else largest).
Proof. reflexivity. Qed.

(** With [k] caches described from id [i] on, and no more than [m] passes
    to go, the loop returns the largest of [largest] and their sizes. *)
Lemma cache_size_loop_spec (cpuid : nat -> cpuid_regs) (m : nat) :
  forall (i : nat) (largest : Z) (k : nat),
    (k <= m)%nat ->
    (forall j, (j < k)%nat -> describes_cache (cpuid (i + j)%nat)) ->
    ((k < m)%nat -> ~ describes_cache (cpuid (i + k)%nat)) ->
    let r := cache_size_loop cpuid m i largest in
    largest <= r /\
    (forall j, (j < k)%nat -> cache_total_size (cpuid (i + j)%nat) <= r) /\
    (r = largest \/ exists j, (j < k)%nat /\ r = cache_total_size (cpuid (i + j)%nat)).
Proof.
  induction m as [|m IH]; intros i largest k Hk Hdesc Hend; cbv zeta.
  - cbn [cache_size_loop]. split; [lia|]. split; [intros j Hj; lia | left; reflexivity].
  - rewrite cache_size_loop_S. destruct k as [|k].
    + specialize (Hend ltac:(lia)). rewrite Nat.add_0_r in Hend. unfold describes_cache in Hend.
      destruct (Z.eqb_spec (Z.land (to_uint32 (eax (cpuid i))) 31) 0) as [_|Hne]; [|tauto].
      split; [lia|]. split; [intros j Hj; lia | left; reflexivity].
    + pose proof (Hdesc 0%nat ltac:(lia)) as H0. rewrite Nat.add_0_r in H0.
      unfold describes_cache in H0.
      destruct (Z.eqb_spec (Z.land (to_uint32 (eax (cpuid i))) 31) 0) as [He|_]; [tauto|].
      set (largest' := if largest <? cache_total_size (cpuid i)
                       then cache_total_size (cpuid i) else largest).
      assert (Hmax : largest <= largest' /\ cache_total_size (cpuid i) <= largest' /\
                     (largest' = largest \/ largest' = cache_total_size (cpuid i))).
      { subst largest'. destruct (Z.ltb_spec largest (cache_total_size (cpuid i))); lia. }
      destruct (IH (S i) largest' k ltac:(lia)) as (Hle & Hall & Hex).
      { intros j Hj. replace (S i + j)%nat with (i + S j)%nat by lia. apply Hdesc. lia. }
      { intros Hlt. replace (S i + k)%nat with (i + S k)%nat by lia. apply Hend. lia. }
      split; [lia|]. split.
      * intros [|j] Hj.
        -- rewrite Nat.add_0_r. lia.
        -- replace (i + S j)%nat with (S i + j)%nat by lia. apply Hall. lia.
      * destruct Hex as [Hr|(j & Hj & Hr)].
        -- destruct Hmax as (_ & _ & [Hm|Hm]).
           ++ left. congruence.
           ++ right. exists 0%nat. split; [lia|]. rewrite Nat.add_0_r. congruence.
        -- right. exists (S j). split; [lia|].
           replace (i + S j)%nat with (S i + j)%nat by lia. exact Hr.
Qed.

(** X11. [cache_size] returns the size of the largest of the caches that
    [cpuid] describes at the ids from 0 up to the first id without a
    cache, 32 ids at most; it returns 0 when there is no cache at id 0. *)
Theorem cache_size_largest (cpuid : nat -> cpuid_regs) (n : nat) :
  (n <= 32)%nat ->
  (forall j, (j < n)%nat -> describes_cache (cpuid j)) ->
  ((n < 32)%nat -> ~ describes_cache (cpuid n)) ->
  (forall j, (j < n)%nat -> cache_total_size (cpuid j) <= cache_size cpuid) /\
  (n = 0%nat -> cache_size cpuid = 0) /\
  ((0 < n)%nat -> exists j, (j < n)%nat /\ cache_size cpuid = cache_total_size (cpuid j)).
Proof.
  intros Hn Hdesc Hend.
  pose proof (cache_size_loop_spec cpuid 32 0 0 n Hn Hdesc Hend) as H.
  cbv zeta in H. unfold cache_size. destruct H as (Hle & Hall & Hex).
  split; [exact Hall|]. split.
  - intros ->. destruct Hex as [Hr|(j & Hj & _)]; [exact Hr | lia].
  - intros Hpos. destruct Hex as [Hr|(j & Hj & Hr)].
    + exists 0%nat. split; [exact Hpos|].
      pose proof (Hall 0%nat Hpos) as H0. cbn [Nat.add] in H0.
      pose proof (cache_total_size_range (cpuid 0%nat)). lia.
    + exists j. split; [exact Hj | exact Hr].
Qed.

Lemma cache_size_largest_witness :
  cache_size three_caches = 8388608 /\
  (forall j, (j < 3)%nat -> cache_total_size (three_caches j) <= cache_size three_caches) /\
  (3%nat = 0%nat -> cache_size three_caches = 0) /\
  ((0 < 3)%nat -> exists j, (j < 3)%nat /\
     cache_size three_caches = cache_total_size (three_caches j)).
Proof.
  split; [vm_compute; reflexivity|].
  apply (cache_size_largest three_caches 3).
  - apply Nat.leb_le. reflexivity.
  - intros [|[|[|j]]] Hj; [vm_compute; discriminate ..|lia].
  - intros _ H. apply H. reflexivity.
Defined.

(** ** The order of doubles *)

(** [SFcompare] orders the numbers as [sf_rank] does. *)
Lemma SFcompare_rank (x y : spec_float) :
  x <> S754_nan -> y <> S754_nan ->
  exists c, SFcompare x y = Some c /\
    (c = Lt <-> lex_lt (sf_rank x) (sf_rank y)) /\
    (c = Gt <-> lex_lt (sf_rank y) (sf_rank x)).
Proof.
  intros Hx Hy.
  destruct x as [sx|sx| |sx mx ex]; [| |congruence|];
    (destruct y as [sy|sy| |sy my ey]; [| |congruence|]);
    destruct sx, sy; cbn [SFcompare sf_rank lex_lt];
    try (eexists; split; [reflexivity|]; split; split; intros H;
         first [discriminate | reflexivity | lia]).
  - (* both negative *)
    destruct (Z.compare_spec ex ey) as [He|He|He].
    + change (Pos.compare_cont Eq mx my) with (Pos.compare mx my).
      destruct (Pos.compare_spec mx my) as [Hm|Hm|Hm]; cbn [CompOpp];
        eexists; (split; [reflexivity|]); split; split; intros H;
        first [discriminate | reflexivity | lia].
    + eexists; (split; [reflexivity|]); split; split; intros H;
        first [discriminate | reflexivity | lia].
    + eexists; (split; [reflexivity|]); split; split; intros H;
        first [discriminate | reflexivity | lia].
  - (* both positive *)
    destruct (Z.compare_spec ex ey) as [He|He|He].
    + change (Pos.compare_cont Eq mx my) with (Pos.compare mx my).
      destruct (Pos.compare_spec mx my) as [Hm|Hm|Hm];
        eexists; (split; [reflexivity|]); split; split; intros H;
        first [discriminate | reflexivity | lia].
    + eexists; (split; [reflexivity|]); split; split; intros H;
        first [discriminate | reflexivity | lia].
    + eexists; (split; [reflexivity|]); split; split; intros H;
        first [discriminate | reflexivity | lia].
Qed.

(** A comparison with NaN has no answer. *)
Lemma SFcompare_nan (x y : spec_float) :
  x = S754_nan \/ y = S754_nan -> SFcompare x y = None.
Proof.
  intros [-> | ->]; [reflexivity|]. destruct x as [[]|[]| |[] m e]; reflexivity.
Qed.

Lemma ltb_rank (x y : float) :
  ordered x -> ordered y ->
  (PrimFloat.ltb x y = true <-> lex_lt (sf_rank (Prim2SF x)) (sf_rank (Prim2SF y))).
Proof.
  intros Hx Hy. rewrite FloatAxioms.ltb_spec. unfold SFltb.
  destruct (SFcompare_rank _ _ Hx Hy) as (c & -> & Hlt & _).
  etransitivity; [|exact Hlt]. destruct c; split; congruence.
Qed.

Lemma leb_rank (x y : float) :
  ordered x -> ordered y ->
  (PrimFloat.leb x y = true <-> ~ lex_lt (sf_rank (Prim2SF y)) (sf_rank (Prim2SF x))).
Proof.
  intros Hx Hy. rewrite FloatAxioms.leb_spec. unfold SFleb.
  destruct (SFcompare_rank _ _ Hx Hy) as (c & -> & _ & Hgt).
  destruct c; split; try congruence; intros H;
    try (exfalso; apply H, Hgt; reflexivity);
    intros H'; apply Hgt in H'; discriminate.
Qed.

Lemma eqb_rank (x y : float) :
  ordered x -> ordered y ->
  (PrimFloat.eqb x y = true <->
   ~ lex_lt (sf_rank (Prim2SF x)) (sf_rank (Prim2SF y)) /\
   ~ lex_lt (sf_rank (Prim2SF y)) (sf_rank (Prim2SF x))).
Proof.
  intros Hx Hy. rewrite FloatAxioms.eqb_spec. unfold SFeqb.
  destruct (SFcompare_rank _ _ Hx Hy) as (c & -> & Hlt & Hgt).
  destruct c; split; try congruence.
  - intros _. split; intros H'; [apply Hlt in H' | apply Hgt in H']; discriminate.
  - intros [H _]. exfalso. apply H, Hlt. reflexivity.
  - intros [_ H]. exfalso. apply H, Hgt. reflexivity.
Qed.

(** With NaN on either side [<] is false. *)
Lemma ltb_nan (x y : float) : ~ ordered x \/ ~ ordered y -> PrimFloat.ltb x y = false.
Proof.
  intros H. rewrite FloatAxioms.ltb_spec. unfold SFltb. rewrite SFcompare_nan; [reflexivity|].
  unfold ordered in H.
  destruct H as [H|H]; [left|right];
    (destruct (Prim2SF _) as [?|?| |? ? ?]; [exfalso; apply H; discriminate ..| reflexivity |
                                             exfalso; apply H; discriminate]).
Qed.

Lemma lex_lt_trans a b c : lex_lt a b -> lex_lt b c -> lex_lt a c.
Proof. destruct a as [[a1 a2] a3], b as [[b1 b2] b3], c as [[c1 c2] c3]. cbn. lia. Qed.

Lemma lex_lt_total a b : lex_lt a b \/ a = b \/ lex_lt b a.
Proof.
  destruct a as [[a1 a2] a3], b as [[b1 b2] b3]. cbn.
  destruct (Z.lt_total a1 b1) as [?|[->|?]]; [lia| |lia].
  destruct (Z.lt_total a2 b2) as [?|[->|?]]; [lia| |lia].
  destruct (Z.lt_total a3 b3) as [?|[->|?]]; [lia| |lia].
  right. left. reflexivity.
Qed.

Lemma lex_lt_irrefl a : ~ lex_lt a a.
Proof. destruct a as [[a1 a2] a3]. cbn. lia. Qed.

Lemma lex_nlt_trans a b c : ~ lex_lt a b -> ~ lex_lt b c -> ~ lex_lt a c.
Proof.
  intros Hab Hbc Hac.
  destruct (lex_lt_total a b) as [H|[->|H]]; [tauto|tauto|].
  destruct (lex_lt_total b c) as [H'|[->|H']]; [tauto|tauto|].
  exact (lex_lt_irrefl _ (lex_lt_trans _ _ _ (lex_lt_trans _ _ _ Hac H') H)).
Qed.

(** ** Sorted listings *)

Section SortedByCmp.

Variable cmp : nat -> nat -> Z.
Variable dom : nat -> Prop.
Hypothesis cmp_total : forall x y, dom x -> dom y -> 0 < cmp x y -> cmp y x <= 0.
Hypothesis cmp_trans : forall x y z, dom x -> dom y -> dom z ->
  cmp x y <= 0 -> cmp y z <= 0 -> cmp x z <= 0.

(** Inserting a position smaller than all those present keeps the list
    in order. *)
Lemma qsort_insert_ahead (x : nat) (l : list nat) :
  dom x -> Forall dom l -> Forall (fun y => (x < y)%nat) l ->
  StronglySorted (ahead cmp) l ->
  StronglySorted (ahead cmp) (qsort_insert cmp x l).
Proof.
  intros Hx. induction l as [|y l IH]; intros Hdom Hlt Hsorted; cbn [qsort_insert].
  - repeat constructor.
  - apply Forall_cons in Hdom as [Hy Hdom]. apply Forall_cons in Hlt as [Hxy Hlt].
    apply StronglySorted_inv in Hsorted as [Hsorted Hall].
    destruct (Z.leb_spec (cmp x y) 0) as [Hle|Hgt].
    + constructor; [constructor; assumption|].
      constructor; [split; [exact Hle | intros _; exact Hxy]|].
      rewrite Forall_forall in Hall, Hlt, Hdom |- *. intros z Hz.
      destruct (Hall z Hz) as [Hyz _].
      split; [|intros _; apply Hlt, Hz].
      apply (cmp_trans x y z); auto.
    + constructor; [apply IH; assumption|].
      rewrite (qsort_insert_perm cmp x l).
      constructor; [|exact Hall].
      split; [apply cmp_total; assumption | lia].
Qed.

Lemma qsort_r_seq_ahead (k n : nat) :
  (forall x, (k <= x < k + n)%nat -> dom x) ->
  StronglySorted (ahead cmp) (qsort_r cmp (seq k n)).
Proof.
  revert k. induction n as [|n IH]; intros k Hdom; cbn [seq qsort_r foldr].
  - constructor.
  - fold (qsort_r cmp (seq (S k) n)).
    assert (Hin : forall y, y ∈ qsort_r cmp (seq (S k) n) -> (S k <= y < S k + n)%nat).
    { intros y Hy. rewrite qsort_r_perm in Hy. apply elem_of_seq in Hy. lia. }
    apply qsort_insert_ahead.
    + apply Hdom. lia.
    + apply Forall_forall. intros y Hy. apply Hdom. specialize (Hin y Hy). lia.
    + apply Forall_forall. intros y Hy. specialize (Hin y Hy). lia.
    + apply IH. intros x Hx. apply Hdom. lia.
Qed.

End SortedByCmp.

(** [cmp_zip] does not put [p1] after [p2] unless [val[p1] < val[p2]]. *)
Lemma cmp_zip_le (val : list float) (p1 p2 : nat) :
  cmp_zip val p1 p2 <= 0 <-> PrimFloat.ltb (nth p1 val 0%float) (nth p2 val 0%float) = false.
Proof.
  unfold cmp_zip.
  destruct (PrimFloat.ltb (nth p1 val 0%float) (nth p2 val 0%float)); [split; [lia|discriminate]|].
  destruct (PrimFloat.ltb (nth p2 val 0%float) (nth p1 val 0%float)); split; (lia || reflexivity).
Qed.

(** [<] is never true both ways. *)
Lemma ltb_asym (x y : float) : PrimFloat.ltb x y = true -> PrimFloat.ltb y x = false.
Proof.
  intros H.
  destruct (Prim2SF x) as [sx|sx| |sx mx ex] eqn:Ex;
    [| |rewrite ltb_nan in H; [discriminate | left; unfold ordered; rewrite Ex; tauto]|];
    (destruct (Prim2SF y) as [sy|sy| |sy my ey] eqn:Ey;
     [| |rewrite ltb_nan in H; [discriminate | right; unfold ordered; rewrite Ey; tauto]|]);
    (assert (Hx : ordered x) by (unfold ordered; rewrite Ex; discriminate));
    (assert (Hy : ordered y) by (unfold ordered; rewrite Ey; discriminate));
    apply (ltb_rank x y Hx Hy) in H;
    (destruct (PrimFloat.ltb y x) eqn:H'; [|reflexivity]);
    apply (ltb_rank y x Hy Hx) in H';
    exfalso; exact (lex_lt_irrefl _ (lex_lt_trans _ _ _ H H')).
Qed.

Lemma ordered_dec (x : float) : ordered x \/ ~ ordered x.
Proof.
  unfold ordered. destruct (Prim2SF x); [left; discriminate..|right; tauto|left; discriminate].
Qed.

(** On numbers, [cmp_zip] is the comparison of a total order. *)
Lemma cmp_zip_total (val : list float) (x y : nat) :
  0 < cmp_zip val x y -> cmp_zip val y x <= 0.
Proof.
  intros H. apply cmp_zip_le. apply ltb_asym.
  unfold cmp_zip in H.
  destruct (PrimFloat.ltb (nth x val 0%float) (nth y val 0%float)); [reflexivity|].
  destruct (PrimFloat.ltb (nth y val 0%float) (nth x val 0%float)); lia.
Qed.

Lemma cmp_zip_trans (val : list float) (x y z : nat) :
  ordered (nth x val 0%float) -> ordered (nth y val 0%float) -> ordered (nth z val 0%float) ->
  cmp_zip val x y <= 0 -> cmp_zip val y z <= 0 -> cmp_zip val x z <= 0.
Proof.
  intros Hx Hy Hz. rewrite !cmp_zip_le. intros Hxy Hyz.
  destruct (PrimFloat.ltb (nth x val 0%float) (nth z val 0%float)) eqn:Hxz; [|reflexivity].
  apply (ltb_rank _ _ Hx Hz) in Hxz.
  exfalso. revert Hxz. apply (lex_nlt_trans _ (sf_rank (Prim2SF (nth y val 0%float)))).
  - intros H. apply (ltb_rank _ _ Hx Hy) in H. congruence.
  - intros H. apply (ltb_rank _ _ Hy Hz) in H. congruence.
Qed.

(** The ranking lists every byte once. *)
Lemma ranking_perm (val : list float) : ranking val ≡ₚ seq 0 256.
Proof. apply qsort_r_perm. Qed.

Lemma ranking_length (val : list float) : length (ranking val) = 256%nat.
Proof. rewrite ranking_perm. apply length_seq. Qed.

Lemma ranking_elem (val : list float) (b : nat) : b ∈ ranking val <-> (b < 256)%nat.
Proof. rewrite ranking_perm, elem_of_seq. lia. Qed.

(** Of numbers, the ranking lists the larger first and, of two that are
    equal, the smaller byte first. *)
Lemma ranking_sorted (val : list float) :
  (forall b, (b < 256)%nat -> ordered (nth b val 0%float)) ->
  StronglySorted (ahead (cmp_zip val)) (ranking val).
Proof.
  intros Hval. unfold ranking.
  apply (qsort_r_seq_ahead (cmp_zip val) (fun b => (b < 256)%nat)).
  - intros x y _ _. apply cmp_zip_total.
  - intros x y z Hx Hy Hz. apply cmp_zip_trans; apply Hval; assumption.
  - intros x Hx. lia.
Qed.

(** What [ahead] under [cmp_zip] says of two numbers. *)
Lemma ahead_cmp_zip (val : list float) (x y : nat) :
  ordered (nth x val 0%float) -> ordered (nth y val 0%float) ->
  ahead (cmp_zip val) x y ->
  PrimFloat.leb (nth y val 0%float) (nth x val 0%float) = true /\
  (PrimFloat.eqb (nth x val 0%float) (nth y val 0%float) = true -> (x < y)%nat).
Proof.
  intros Hx Hy [Hle Htie]. rewrite cmp_zip_le in Hle, Htie. split.
  - apply (leb_rank _ _ Hy Hx). intros H. apply (ltb_rank _ _ Hx Hy) in H. congruence.
  - intros He. apply (eqb_rank _ _ Hx Hy) in He as [_ He]. apply Htie.
    destruct (PrimFloat.ltb (nth y val 0%float) (nth x val 0%float)) eqn:H; [|reflexivity].
    apply (ltb_rank _ _ Hy Hx) in H. tauto.
Qed.

Lemma StronglySorted_lookup {A} (R : A -> A -> Prop) (l : list A) (a b : nat) (x y : A) :
  StronglySorted R l -> (a < b)%nat -> l !! a = Some x -> l !! b = Some y -> R x y.
Proof.
  intros Hs Hab Ha Hb.
  pose proof (lookup_lt_Some _ _ _ Hb) as Hlen.
  rewrite <- (nth_lookup_Some l a x x Ha), <- (nth_lookup_Some l b x y Hb).
  apply StronglySorted_nth; [exact Hs | lia].
Qed.

Lemma ranking_lookup_lt (val : list float) (a x : nat) :
  ranking val !! a = Some x -> (x < 256)%nat.
Proof.
  intros H. apply (proj1 (ranking_elem val x)). apply list_elem_of_lookup. eauto.
Qed.

(** Rows listed byte by byte hold every pair of a position and a byte
    once. *)
Lemma flat_map_rows_perm {A} (f : A -> nat * nat) (row : nat -> list A) (L : list nat) :
  (forall i, map f (row i) ≡ₚ map (fun b => (i, b)) (seq 0 256)) ->
  map f (flat_map row L) ≡ₚ list_prod L (seq 0 256).
Proof.
  intros Hrow. induction L as [|i L IH]; cbn [flat_map list_prod]; [reflexivity|].
  rewrite map_app. apply Permutation_app; [apply Hrow | exact IH].
Qed.

(** X12. [dump_corr] writes one line for every pair of a position and a
    byte, 4096 in all, and on the line of a pair its correlation. *)
Theorem dump_corr_lists_all (corr : list (list float)) :
  map (fun l => (c_pos l, c_byte l)) (dump_corr corr) ≡ₚ list_prod (seq 0 16) (seq 0 256) /\
  length (dump_corr corr) = 4096%nat /\
  Forall (fun l => c_val l = entry corr (c_pos l) (c_byte l)) (dump_corr corr).
Proof.
  assert (Hperm : map (fun l => (c_pos l, c_byte l)) (dump_corr corr)
                  ≡ₚ list_prod (seq 0 16) (seq 0 256)).
  { apply flat_map_rows_perm. intros i. unfold dump_corr_row.
    rewrite map_map. cbn [c_pos c_byte].
    apply Permutation_map, ranking_perm. }
  split; [exact Hperm|]. split.
  - rewrite <- (length_map (fun l => (c_pos l, c_byte l))), Hperm, length_prod, !length_seq.
    reflexivity.
  - unfold dump_corr. apply Forall_forall. intros l Hl.
    apply list_elem_of_In, in_flat_map in Hl as (i & _ & Hl).
    unfold dump_corr_row in Hl. apply in_map_iff in Hl as (b & <- & _). reflexivity.
Qed.

(** X13. Where the correlations of a position are all numbers, [dump_corr]
    lists its bytes by falling correlation, and the first line of the
    position has the largest correlation of all. *)
Theorem dump_corr_row_descending (corr : list (list float)) (i : nat) :
  (forall b, (b < 256)%nat -> ordered (entry corr i b)) ->
  (forall a b la lb, (a < b)%nat ->
     dump_corr_row corr i !! a = Some la -> dump_corr_row corr i !! b = Some lb ->
     PrimFloat.leb (c_val lb) (c_val la) = true) /\
  (forall l0 b, dump_corr_row corr i !! 0%nat = Some l0 -> (b < 256)%nat ->
     PrimFloat.leb (entry corr i b) (c_val l0) = true).
Proof.
  intros Hval. pose proof (ranking_sorted (nth i corr []) Hval) as Hsorted.
  assert (Hpair : forall a b x y, (a < b)%nat ->
            ranking (nth i corr []) !! a = Some x -> ranking (nth i corr []) !! b = Some y ->
            PrimFloat.leb (entry corr i y) (entry corr i x) = true).
  { intros a b x y Hab Ha Hb.
    apply (ahead_cmp_zip (nth i corr []) x y).
    - apply Hval. exact (ranking_lookup_lt _ _ _ Ha).
    - apply Hval. exact (ranking_lookup_lt _ _ _ Hb).
    - exact (StronglySorted_lookup _ _ a b x y Hsorted Hab Ha Hb). }
  split.
  - intros a b la lb Hab Ha Hb. unfold dump_corr_row in Ha, Hb.
    rewrite list_lookup_fmap in Ha, Hb.
    destruct (ranking (nth i corr []) !! a) as [x|] eqn:Hx; [|discriminate].
    destruct (ranking (nth i corr []) !! b) as [y|] eqn:Hy; [|discriminate].
    injection Ha as <-. injection Hb as <-. cbn [c_val c_byte].
    exact (Hpair a b x y Hab Hx Hy).
  - intros l0 b H0 Hb. unfold dump_corr_row in H0. rewrite list_lookup_fmap in H0.
    destruct (ranking (nth i corr []) !! 0%nat) as [x|] eqn:Hx; [|discriminate].
    injection H0 as <-. cbn [c_val].
    apply (proj2 (ranking_elem (nth i corr []) b)) in Hb.
    apply list_elem_of_lookup in Hb as [j Hj].
    destruct j as [|j].
    + assert (b = x) by congruence. subst b.
      assert (Ho : ordered (entry corr i x)).
      { apply Hval. exact (ranking_lookup_lt _ _ _ Hx). }
      apply (leb_rank _ _ Ho Ho), lex_lt_irrefl.
    + apply (Hpair 0%nat (S j) x b); [lia | exact Hx | exact Hj].
Qed.

(** Every entry of [ramp_corr] is a number. *)
Lemma ramp_corr_ordered (i b : nat) :
  (i < 16)%nat -> (b < 256)%nat -> ordered (entry ramp_corr i b).
Proof.
  intros Hi Hb.
  assert (Hall : forallb (fun i => forallb (fun b =>
                   match Prim2SF (entry ramp_corr i b) with
                   | S754_nan => false
                   | _ => true
                   end) (seq 0 256)) (seq 0 16) = true) by (vm_compute; reflexivity).
  pose proof (forallb_seq _ 0 16 i Hall ltac:(lia)) as Hrow. cbv beta in Hrow.
  pose proof (forallb_seq _ 0 256 b Hrow ltac:(lia)) as Hcell. cbv beta in Hcell.
  unfold ordered. destruct (Prim2SF (entry ramp_corr i b)); congruence.
Qed.

Lemma dump_corr_row_descending_witness :
  (forall b, (b < 256)%nat -> ordered (entry ramp_corr 3 b)) /\
  (forall a b la lb, (a < b)%nat ->
     dump_corr_row ramp_corr 3 !! a = Some la -> dump_corr_row ramp_corr 3 !! b = Some lb ->
     PrimFloat.leb (c_val lb) (c_val la) = true) /\
  (forall l0 b, dump_corr_row ramp_corr 3 !! 0%nat = Some l0 -> (b < 256)%nat ->
     PrimFloat.leb (entry ramp_corr 3 b) (c_val l0) = true).
Proof.
  assert (H : forall b, (b < 256)%nat -> ordered (entry ramp_corr 3 b)).
  { intros b Hb. apply ramp_corr_ordered; [apply Nat.ltb_lt; reflexivity | exact Hb]. }
  split; [exact H|]. exact (dump_corr_row_descending ramp_corr 3 H).
Defined.

(** X14. [cmp_zip] is antisymmetric, and it answers 0, "equal", exactly
    when the two values are equal or one of them is NaN: a NaN ties with
    every value. *)
Theorem cmp_zip_antisymmetric (val : list float) (p1 p2 : nat) :
  cmp_zip val p2 p1 = - cmp_zip val p1 p2 /\
  (cmp_zip val p1 p2 = 0 <->
   ~ ordered (nth p1 val 0%float) \/ ~ ordered (nth p2 val 0%float) \/
   PrimFloat.eqb (nth p1 val 0%float) (nth p2 val 0%float) = true).
Proof.
  set (x := nth p1 val 0%float). set (y := nth p2 val 0%float).
  unfold cmp_zip. fold x y. split.
  - destruct (PrimFloat.ltb x y) eqn:Hxy.
    + rewrite (ltb_asym _ _ Hxy). reflexivity.
    + destruct (PrimFloat.ltb y x); reflexivity.
  - destruct (ordered_dec x) as [Hx|Hx].
    2:{ rewrite (ltb_nan x y), (ltb_nan y x) by tauto. tauto. }
    destruct (ordered_dec y) as [Hy|Hy].
    2:{ rewrite (ltb_nan x y), (ltb_nan y x) by tauto. tauto. }
    pose proof (ltb_rank x y Hx Hy) as Hlt. pose proof (ltb_rank y x Hy Hx) as Hgt.
    pose proof (eqb_rank x y Hx Hy) as Heq.
    destruct (PrimFloat.ltb x y).
    + split; [discriminate|]. intros [H|[H|H]]; [tauto|tauto|].
      apply Heq in H as [H _]. exfalso. apply H, Hlt. reflexivity.
    + destruct (PrimFloat.ltb y x).
      * split; [discriminate|]. intros [H|[H|H]]; [tauto|tauto|].
        apply Heq in H as [_ H]. exfalso. apply H, Hgt. reflexivity.
      * split; [|reflexivity]. intros _. right. right. apply Heq.
        split; intros H; [apply Hlt in H | apply Hgt in H]; discriminate.
Qed.

(** The sum of a list of numbers does not depend on their order. *)
Lemma sum_perm (f : nat -> Z) (l l' : list nat) :
  l ≡ₚ l' -> foldr Z.add 0 (map f l) = foldr Z.add 0 (map f l').
Proof.
  induction 1 as [|x l l' _ IH|x y l|l l' l'' _ IH1 _ IH2]; cbn [map foldr]; lia.
Qed.

Lemma sum_seq (f : nat -> Z) (n : nat) : foldr Z.add 0 (map f (seq 0 n)) = Zsum f n.
Proof.
  induction n as [|n IH]; [reflexivity|].
  rewrite seq_S, map_app, foldr_app. cbn [map foldr Zsum Nat.add].
  rewrite <- IH. generalize (map f (seq 0 n)). intros l.
  induction l as [|x l IHl]; cbn [foldr]; lia.
Qed.

(** X15. [print_means] lists for every position each byte once, and the
    counts on the lines of a position add up to the measurements tallied
    at that position. *)
Theorem print_means_counts (tly : list (list tally)) (means : list (list float)) (i : nat) :
  map m_byte (print_means_row tly means i) ≡ₚ seq 0 256 /\
  foldr Z.add 0 (map m_num (print_means_row tly means i)) = count_sum tly i.
Proof.
  unfold print_means_row. rewrite !map_map. cbn [m_byte m_num]. split.
  - rewrite map_id. apply ranking_perm.
  - rewrite (sum_perm (fun b => num (cell tly i b)) _ _ (ranking_perm _)).
    apply sum_seq.
Qed.

(** ** The pool file *)

(** The byte of a number below 256 is that number. *)
Lemma to_nat_byte_of_Z (z : Z) : Byte.to_nat (byte_of_Z z) = Z.to_nat (z mod 256).
Proof.
  unfold byte_of_Z. pose proof (Z.mod_pos_bound z 256 ltac:(lia)) as Hb.
  destruct (Byte.of_N (Z.to_N (z mod 256))) as [b|] eqn:Hof.
  - apply Byte.to_of_N in Hof. rewrite Byte.to_nat_via_N, Hof. apply Z_N_nat.
  - apply Byte.of_N_None_iff in Hof. lia.
Qed.

Lemma byte_of_Z_to_nat (b : byte) : byte_of_Z (Z.of_nat (Byte.to_nat b)) = b.
Proof.
  unfold byte_of_Z. pose proof (Byte.to_N_bounded b) as Hb.
  rewrite Byte.to_nat_via_N, N_nat_Z.
  rewrite Z.mod_small by lia. rewrite N2Z.id, Byte.of_to_N. reflexivity.
Qed.

(** The length that [brute_force] reads back from the length byte of a
    pool of 1 to 256 candidates. *)
Lemma length_byte (n : nat) :
  (1 <= n <= 256)%nat ->
  (if (Byte.to_nat (byte_of_Z (Z.of_nat n)) =? 0)%nat then 256%nat
   else Byte.to_nat (byte_of_Z (Z.of_nat n))) = n.
Proof.
  intros Hn. rewrite to_nat_byte_of_Z.
  destruct (decide (n = 256%nat)) as [->|Hne]; [reflexivity|].
  rewrite Z.mod_small by lia. rewrite Nat2Z.id.
  destruct (Nat.eqb_spec n 0); [lia | reflexivity].
Qed.

Lemma read_pools_S (n : nat) (f : list byte) :
  read_pools (S n) f =
  match f with
  | [] => None
  | l :: rest =>
      let len := if (Byte.to_nat l =? 0)%nat then 256%nat else Byte.to_nat l in
      if (length rest <? len)%nat then None
      else
        match read_pools n (drop len rest) with
        | None => None
        | Some p => Some {| lens := len :: lens p;
                            bytes := take len rest :: bytes p |}
        end
  end.
Proof. reflexivity. Qed.

(** Reading the file of the pools gives the pools back, whatever follows
    them in the file. *)
Lemma read_pools_pool_file (n : nat) :
  forall (ls : list nat) (bs : list (list byte)) (rest : list byte),
    length ls = n -> length bs = n ->
    (forall i, (i < n)%nat ->
       (1 <= nth i ls O <= 256)%nat /\ length (nth i bs []) = nth i ls O) ->
    read_pools n (pool_file {| lens := ls; bytes := bs |} ++ rest) =
    Some {| lens := ls; bytes := bs |}.
Proof.
  induction n as [|n IH]; intros ls bs rest Hls Hbs Hwf.
  - destruct ls; [|discriminate]. destruct bs; [|discriminate]. reflexivity.
  - destruct ls as [|l ls]; [discriminate|]. destruct bs as [|b bs]; [discriminate|].
    destruct (Hwf 0%nat ltac:(lia)) as [Hl Hb]. cbn [nth] in Hl, Hb.
    unfold pool_file. cbn [lens bytes zip_with concat].
    rewrite <- !app_assoc. cbn [app]. rewrite read_pools_S. cbv zeta.
    rewrite (length_byte l Hl).
    destruct (Nat.ltb_spec (length (b ++ concat (zip_with (fun n pool => byte_of_Z (Z.of_nat n) :: pool) ls bs) ++ rest)) l)
      as [Hshort|_].
    { rewrite length_app in Hshort. lia. }
    rewrite drop_app_length' by (symmetry; exact Hb).
    rewrite take_app_length' by (symmetry; exact Hb).
    change (concat (zip_with (fun n pool => byte_of_Z (Z.of_nat n) :: pool) ls bs))
      with (pool_file {| lens := ls; bytes := bs |}).
    rewrite IH; [reflexivity | cbn in Hls; lia | cbn in Hbs; lia |].
    intros i Hi. exact (Hwf (S i) ltac:(lia)).
Qed.

(** What [read_pools] accepts starts with the file of the pools it
    returns. *)
Lemma read_pools_prefix (n : nat) :
  forall (f : list byte) (p : pools),
    read_pools n f = Some p -> exists rest, f = pool_file p ++ rest.
Proof.
  induction n as [|n IH]; intros f p Hp.
  - injection Hp as <-. exists f. reflexivity.
  - rewrite read_pools_S in Hp. destruct f as [|l rest]; [discriminate|]. cbv zeta in Hp.
    set (len := if (Byte.to_nat l =? 0)%nat then 256%nat else Byte.to_nat l) in *.
    destruct (Nat.ltb_spec (length rest) len) as [|Hlen]; [discriminate|].
    destruct (read_pools n (drop len rest)) as [p'|] eqn:Hp'; [|discriminate].
    injection Hp as <-. destruct (IH _ _ Hp') as [rest' Hrest'].
    exists rest'. unfold pool_file. cbn [lens bytes zip_with concat].
    fold (pool_file p'). rewrite <- app_assoc. cbn [app]. f_equal.
    + subst len. destruct (Nat.eqb_spec (Byte.to_nat l) 0) as [H0|_].
      * rewrite <- (byte_of_Z_to_nat l), H0. reflexivity.
      * symmetry. apply byte_of_Z_to_nat.
    + rewrite <- Hrest'. symmetry. apply take_drop.
Qed.

(** X16. The file [bf.dat] that [brute_force] reads is, for each of the
    sixteen positions, one byte with the number of candidates (0 for 256)
    and then the candidates. Such a file is read back as the pools it
    lists, whatever follows them in the file; and whatever file is read
    starts with the listing of the pools read. *)
Theorem pool_file_round_trip :
  (forall p rest, well_formed 16 p -> read_pools 16 (pool_file p ++ rest) = Some p) /\
  (forall f p, read_pools 16 f = Some p -> exists rest, f = pool_file p ++ rest).
Proof.
  split.
  - intros [ls bs] rest (Hls & Hbs & Hwf). cbn [lens bytes] in Hls, Hbs.
    apply read_pools_pool_file; [exact Hls | exact Hbs |].
    intros i Hi. exact (Hwf i Hi).
  - apply read_pools_prefix.
Qed.

(** The sample pools are well formed. *)
Lemma uneven_pools_well_formed : well_formed 16 uneven_pools.
Proof.
  destruct (read_pools_spec 16 uneven_pools_file uneven_pools eq_refl) as (Hl & Hb & Hi).
  split; [exact Hl|]. split; [exact Hb|].
  intros i Hlt. destruct (Hi i Hlt) as [[Hlo Hhi] Hlen].
  split; [|exact Hlen]. split; [exact Hlo|]. apply Nat.lt_succ_r. exact Hhi.
Qed.

Lemma pool_file_round_trip_witness :
  well_formed 16 uneven_pools /\
  read_pools 16 (pool_file uneven_pools ++ ["255"; "007"]%byte) = Some uneven_pools /\
  exists rest, uneven_pools_file = pool_file uneven_pools ++ rest.
Proof.
  split; [exact uneven_pools_well_formed|]. split.
  - exact (proj1 pool_file_round_trip uneven_pools ["255"; "007"]%byte
             uneven_pools_well_formed).
  - exact (proj2 pool_file_round_trip uneven_pools_file uneven_pools eq_refl).
Defined.

Local Open Scope nat_scope.

(** ** The order of the search *)

Section SearchOrder.

Variable aes : list byte -> list byte -> list byte.
Variable p : pools.
Variable order : list nat.
Variable target_enctext : list byte.

Hypothesis order_perm : order ≡ₚ seq 0 16.

(** One attempt of the search. *)
Lemma search_S (fuel : nat) (idx : list nat) :
  search aes (S fuel) p order target_enctext idx =
  if (brute_force_attempt aes (assemble p idx) cleartext target_enctext =? 0)%Z
  then Some {| rc := 0; tried := [assemble p idx] |}
  else
    match carry p order idx with
    | None => Some {| rc := 1; tried := [assemble p idx] |}
    | Some idx' =>
        match search aes fuel p order target_enctext idx' with
        | None => None
        | Some o => Some {| rc := rc o; tried := assemble p idx :: tried o |}
        end
    end.
Proof. reflexivity. Qed.

(** The [n]-th key tried is [n] steps of the counters away from the
    first. *)
Lemma search_counts (fuel : nat) (idx : list nat) (o : outcome) :
  valid p order idx ->
  search aes fuel p order target_enctext idx = Some o ->
  forall n key, tried o !! n = Some key ->
    exists v, valid p order v /\ rank p order v = rank p order idx + n /\
              key = assemble p v.
Proof.
  revert idx o. induction fuel as [|fuel IH]; intros idx o Hvalid Ho; [discriminate|].
  rewrite search_S in Ho.
  assert (Hfirst : forall n key, [assemble p idx] !! n = Some key ->
            exists v, valid p order v /\ rank p order v = rank p order idx + n /\
                      key = assemble p v).
  { intros [|n] key Hkey; [|discriminate]. injection Hkey as <-.
    exists idx. split; [exact Hvalid|]. split; [lia | reflexivity]. }
  destruct (brute_force_attempt aes (assemble p idx) cleartext target_enctext =? 0)%Z.
  { injection Ho as <-. exact Hfirst. }
  pose proof (carry_spec p order idx (order_NoDup order order_perm)) as Hcarry.
  destruct Hvalid as [Hlen Hrange].
  specialize (Hcarry ltac:(intros pos Hpos;
                           apply (order_elem order order_perm) in Hpos; lia) Hrange).
  destruct (carry p order idx) as [idx'|].
  - destruct Hcarry as (Hlen' & Hrange' & Hrank & _).
    destruct (search aes fuel p order target_enctext idx') as [o'|] eqn:Ho'; [|discriminate].
    injection Ho as <-. cbn [tried]. intros [|n] key Hkey.
    + apply Hfirst. exact Hkey.
    + cbn in Hkey.
      destruct (IH idx' o' ltac:(split; [lia | exact Hrange']) Ho' n key Hkey)
        as (v & Hv & Hr & ->).
      exists v. split; [exact Hv|]. split; [lia | reflexivity].
  - injection Ho as <-. exact Hfirst.
Qed.

(** The search begins with the key at the counters it is given. *)
Lemma search_first (fuel : nat) (idx : list nat) (o : outcome) :
  search aes fuel p order target_enctext idx = Some o ->
  tried o !! 0 = Some (assemble p idx).
Proof.
  destruct fuel as [|fuel]; [discriminate|]. rewrite search_S.
  destruct (brute_force_attempt aes (assemble p idx) cleartext target_enctext =? 0)%Z.
  { intros [= <-]. reflexivity. }
  destruct (carry p order idx) as [idx'|].
  - destruct (search aes fuel p order target_enctext idx') as [o'|]; [|discriminate].
    intros [= <-]. reflexivity.
  - intros [= <-]. reflexivity.
Qed.

End SearchOrder.

(** With all counters at 0 the key is made of the first candidate of
    every pool. *)
Lemma assemble_zero (p : pools) :
  assemble p (replicate 16 0) =
  map (fun i => nth 0 (nth i (bytes p) []) "000"%byte) (seq 0 16).
Proof.
  unfold assemble. apply map_ext. intros i. rewrite nth_replicate.
  destruct (decide (i < 16)); reflexivity.
Qed.

(** X17. [brute_force] tries the keys in counting order: it begins with the
    key made of the first candidate of every pool, and the [n]-th key
    after it is the one whose counters, read along the sorted positions
    as one number in the mixed radix of the pool sizes, make [n]. *)
Theorem brute_force_counting_order (aes : list byte -> list byte -> list byte)
    (target_key f : list byte) (p : pools) (fuel : nat) (o : outcome) :
  read_pools 16 f = Some p ->
  brute_force aes target_key fuel (Some f) = Some o ->
  tried o !! 0 = Some (map (fun i => nth 0 (nth i (bytes p) []) "000"%byte) (seq 0 16)) /\
  forall n key, tried o !! n = Some key ->
    exists v, valid p (sort_order p) v /\ rank p (sort_order p) v = n /\
              key = assemble p v.
Proof.
  intros Hp Ho. unfold brute_force in Ho. rewrite Hp in Ho. split.
  - rewrite <- assemble_zero. exact (search_first _ _ _ _ _ _ _ Ho).
  - intros n key Hkey.
    destruct (search_counts aes p (sort_order p) (aes target_key cleartext)
                (sort_order_perm p) fuel (replicate 16 0) o (valid_zero f p Hp) Ho n key Hkey)
      as (v & Hv & Hr & ->).
    rewrite rank_zero in Hr. exists v. split; [exact Hv|]. split; [exact Hr | reflexivity].
Qed.

Lemma brute_force_counting_order_witness :
  read_pools 16 uneven_pools_file = Some uneven_pools /\
  exists o,
    brute_force transparent_cipher key_off_pools 2 (Some uneven_pools_file) = Some o /\
    length (tried o) = 2 /\
    tried o !! 0 =
      Some (map (fun i => nth 0 (nth i (bytes uneven_pools) []) "000"%byte) (seq 0 16)) /\
    forall n key, tried o !! n = Some key ->
      exists v, valid uneven_pools (sort_order uneven_pools) v /\
                rank uneven_pools (sort_order uneven_pools) v = n /\
                key = assemble uneven_pools v.
Proof.
  split; [reflexivity|].
  destruct (brute_force transparent_cipher key_off_pools 2 (Some uneven_pools_file))
    as [o|] eqn:Ho.
  - exists o. split; [reflexivity|]. split.
    + vm_compute in Ho. injection Ho as <-. reflexivity.
    + exact (brute_force_counting_order transparent_cipher key_off_pools
               uneven_pools_file uneven_pools 2 o eq_refl Ho).
  - vm_compute in Ho. discriminate.
Defined.

Local Open Scope Z_scope.

(** ** The calibration, further *)

(** A sum of numbers between [lo] and [hi]. *)
Lemma Zsum_bounds (f : nat -> Z) (n : nat) (lo hi : Z) :
  (forall j, (j < n)%nat -> lo <= f j <= hi) ->
  Z.of_nat n * lo <= Zsum f n <= Z.of_nat n * hi.
Proof.
  induction n as [|n IH]; intros Hf; cbn [Zsum]; [lia|].
  specialize (IH ltac:(intros; apply Hf; lia)). specialize (Hf n ltac:(lia)). lia.
Qed.

(** X18. The calibration divides before it multiplies: when the
    measurements of the calibration lie between [lo] and [hi], the
    threshold it sets is five times a whole number of ticks between
    [lo] and [hi], the mean with its fraction dropped. *)
Theorem calibration_bounds (w : World) (runs : Z) (s : State) (lo hi : Z) :
  PrimFloat.ltb 0 (d_arg s) = false -> 0 < runs -> total_ticks s = 0 ->
  0 <= lo -> 5 * hi <= INT32_MAX ->
  (forall j, (j < Z.to_nat runs)%nat -> lo <= run w (run_calls s + j) <= hi) ->
  exists s' q,
    calc_encryption_stats w runs s = Some s' /\
    q = Zsum (fun j => run w (run_calls s + j)) (Z.to_nat runs) / runs /\
    tally_threshold s' = 5 * q /\ lo <= q <= hi.
Proof.
  intros Hd Hruns Ht0 Hlo Hhi Hrange.
  destruct (calc_encryption_stats_calibrates w runs s Hd Hruns)
    as (s' & Hs' & _ & Htr & Htt & HT).
  pose proof (Zsum_bounds _ _ _ _ Hrange) as Hsum.
  rewrite Z2Nat.id in Hsum by lia.
  set (S := Zsum (fun j => run w (run_calls s + j)) (Z.to_nat runs)) in *.
  exists s', (S / runs). split; [exact Hs'|]. split; [reflexivity|].
  assert (Hq : lo <= S / runs <= hi).
  { split.
    - apply Z.div_le_lower_bound; lia.
    - apply Z.div_le_upper_bound; lia. }
  split; [|exact Hq].
  rewrite HT, Htr, Htt, Ht0, Z.add_0_l.
  rewrite Z.quot_div_nonneg by lia.
  unfold THRESH_MULT. rewrite to_int32_id; [lia|]. unfold INT32_MAX in *. lia.
Qed.

Lemma calibration_bounds_witness :
  exists s' q,
    calc_encryption_stats w1 4 (initial_state 0%float) = Some s' /\
    q = Zsum (fun j => run w1 (run_calls (initial_state 0%float) + j)) (Z.to_nat 4) / 4 /\
    tally_threshold s' = 5 * q /\ 100 <= q <= 900.
Proof.
  apply (calibration_bounds w1 4 (initial_state 0%float) 100 900).
  - reflexivity.
  - reflexivity.
  - reflexivity.
  - discriminate.
  - vm_compute. discriminate.
  - intros j _. unfold run, w1. cbn [rdtsc_elapsed].
    destruct (Nat.even _); vm_compute; split; discriminate.
Defined.

(** ** The studies of [main] *)

Lemma generate_n_d_arg (n fuel : nat) (w : World) (s s' : State) :
  generate_n n fuel w s = Some s' -> d_arg s' = d_arg s.
Proof.
  revert s. induction n as [|n IH]; intros s; cbn [generate_n].
  - intros [= <-]. reflexivity.
  - destruct (generate fuel w s) as [g|] eqn:Hg; [|discriminate]. intros Hn.
    rewrite (IH _ Hn).
    destruct (generate_Some _ _ _ _ Hg) as (k & _ & _ & _ & _ & _ & _ & Hd & _). exact Hd.
Qed.

Lemma study_key_d_arg (fuel : nat) (w : World) (key : list byte) (gen : bool)
    (runs : Z) (s : State) (k : studied) :
  study_key fuel w key gen runs s = Some k -> d_arg (k_state k) = d_arg s.
Proof.
  unfold study_key.
  destruct (generate_n (Z.to_nat runs) fuel w _) as [s1|] eqn:Hn; [|discriminate].
  intros [= <-]. cbn [k_state]. exact (generate_n_d_arg _ _ _ _ _ Hn).
Qed.

(** The studies of the test keys leave the threshold and the argument
    alone. *)
Lemma test_keys_threshold (n fuel : nat) (w : World) (runs : Z)
    (mt ct : list (list float)) (s : State) (r : list (list float) * State) :
  test_keys n fuel w runs mt ct s = Some r ->
  tally_threshold (snd r) = tally_threshold s /\ d_arg (snd r) = d_arg s.
Proof.
  revert ct s. induction n as [|n IH]; intros ct s; cbn [test_keys].
  - intros [= <-]. split; reflexivity.
  - destruct (study_key fuel w [] true runs s) as [k|] eqn:Hk; [|discriminate].
    intros Hr. destruct (IH _ _ Hr) as [HT Hd].
    rewrite HT, Hd, (study_key_threshold _ _ _ _ _ _ _ Hk), (study_key_d_arg _ _ _ _ _ _ _ Hk).
    split; reflexivity.
Qed.

(** X19. The threshold is set once: what the calibration leaves in
    [tally_threshold] is still there after the study of the target key
    and of the test keys, and so is the argument [d_arg]. *)
Theorem threshold_set_once (fuel : nat) (w : World) (target_key : list byte)
    (s : State) (r : list (list float) * State) :
  gather fuel w target_key s = Some r ->
  exists s1,
    calc_encryption_stats w (Z.shiftl 1 DEFAULT_RUNS) s = Some s1 /\
    tally_threshold (snd r) = tally_threshold s1 /\
    d_arg (snd r) = d_arg s1.
Proof.
  unfold gather.
  destruct (calc_encryption_stats w (Z.shiftl 1 DEFAULT_RUNS) s) as [s1|]; [|discriminate].
  destruct (study_key fuel w target_key false (Z.shiftl 1 DEFAULT_RUNS) s1) as [k|] eqn:Hk;
    [|discriminate].
  intros Hr. exists s1. split; [reflexivity|].
  destruct (test_keys_threshold _ _ _ _ _ _ _ _ Hr) as [HT Hd].
  rewrite HT, Hd, (study_key_threshold _ _ _ _ _ _ _ Hk), (study_key_d_arg _ _ _ _ _ _ _ Hk).
  split; reflexivity.
Qed.

Lemma threshold_set_once_witness :
  exists fuel r,
    gather fuel w0 key_in_pools (initial_state 0%float) = Some r /\
    exists s1,
      calc_encryption_stats w0 (Z.shiftl 1 DEFAULT_RUNS) (initial_state 0%float) = Some s1 /\
      tally_threshold (snd r) = tally_threshold s1 /\
      d_arg (snd r) = d_arg s1.
Proof.
  destruct (calc_encryption_stats_calibrates w0 (Z.shiftl 1 DEFAULT_RUNS)
              (initial_state 0%float) eq_refl eq_refl) as (s1 & Hcal & _).
  destruct (gather_completes w0 key_in_pools (initial_state 0%float) s1 Hcal
              (steady_timer_fair s1 Hcal)) as (fuel & r & Hr).
  exists fuel, r. split; [exact Hr|].
  exact (threshold_set_once fuel w0 key_in_pools (initial_state 0%float) r Hr).
Defined.
